(** * Static-site hygiene scripts: cleanup of legacy fragments and SEO audit

    A shallow embedding of [scripts/seo-audit.js] and of the two variants of
    [scripts/cleanup-wp-legacy.js], with the properties of their rule
    evaluators.

    JavaScript strings are sequences of UTF-16 code units; the regular
    expressions of the scripts are embedded as syntax trees and run by a
    backtracking matcher written after the matcher of ECMA-262 (a matcher
    takes a state and a continuation). *)

From stdpp Require Import gmap strings list fin_maps.
From Stdlib Require Import NArith Lia.
From Stdlib Require DecimalString.

Local Open Scope N_scope.
Local Open Scope nat_scope.

(** ** JavaScript strings *)

(** A string is the list of its UTF-16 code units. *)
Abbreviation jsstring := (list N).

(** An ASCII literal as a JavaScript string. *)
Fixpoint u (s : string) : jsstring :=
  match s with
  | EmptyString => []
  | String a s' => Ascii.N_of_ascii a :: u s'
  end.

Definition LF : N := 10%N.
Definition CR : N := 13%N.
Definition DQ : N := 34%N.   (* the double quote *)
Definition SQ : N := 39%N.   (* the single quote *)

Definition in_range (lo hi c : N) : bool := ((lo <=? c) && (c <=? hi))%N.

(** [\s]: WhiteSpace and LineTerminator of ECMA-262; [String.prototype.trim]
    strips the same set. *)
Definition is_space (c : N) : bool :=
  in_range 9 13 c || (c =? 32)%N || (c =? 160)%N || (c =? 5760)%N
  || in_range 8192 8202 c || (c =? 8232)%N || (c =? 8233)%N
  || (c =? 8239)%N || (c =? 8287)%N || (c =? 12288)%N || (c =? 65279)%N.

Definition is_digit (c : N) : bool := in_range 48 57 c.
Definition is_lower (c : N) : bool := in_range 97 122 c.
Definition is_upper (c : N) : bool := in_range 65 90 c.

(** [\w] is [A-Za-z0-9_]. *)
Definition is_word (c : N) : bool :=
  is_lower c || is_upper c || is_digit c || (c =? 95)%N.

(** [.] excludes the line terminators LF, CR, U+2028 and U+2029. *)
Definition is_dot (c : N) : bool :=
  negb ((c =? 10)%N || (c =? 13)%N || (c =? 8232)%N || (c =? 8233)%N).

(** [[\s\S]]: every code unit. *)
Definition is_any (c : N) : bool := is_space c || negb (is_space c).

Definition one_of (l : list N) (c : N) : bool := existsb (N.eqb c) l.

Arguments is_space : simpl never.
Arguments is_word : simpl never.
Arguments is_any : simpl never.
Arguments is_dot : simpl never.

(** The other-case form of an ASCII letter. Every pattern of the scripts
    that carries the [i] flag is written in ASCII, and Canonicalize never
    maps a code unit above 127 to one below 128, so comparing up to ASCII
    case is what the flag does on these patterns. *)
Definition swapcase (c : N) : N :=
  if is_lower c then (c - 32)%N else if is_upper c then (c + 32)%N else c.

(** [String.prototype.trim]. *)
Fixpoint trimStart (s : jsstring) : jsstring :=
  match s with
  | c :: s' => if is_space c then trimStart s' else s
  | [] => []
  end.

Definition trimEnd (s : jsstring) : jsstring := rev (trimStart (rev s)).

Definition trim (s : jsstring) : jsstring := trimEnd (trimStart s).

(** [String.prototype.startsWith] and [endsWith]. *)
Fixpoint startsWith (p s : jsstring) : bool :=
  match p, s with
  | [], _ => true
  | a :: p', b :: s' => (a =? b)%N && startsWith p' s'
  | _ :: _, [] => false
  end.

Definition endsWith (p s : jsstring) : bool := startsWith (rev p) (rev s).

(** [String.prototype.substring(0, n)]. *)
Definition substring0 (n : nat) (s : jsstring) : jsstring := take n s.

(** [String.prototype.split] with a one-unit separator. *)
Fixpoint split (sep : N) (s : jsstring) : list jsstring :=
  match s with
  | [] => [[]]
  | c :: s' =>
      if (c =? sep)%N then [] :: split sep s'
      else match split sep s' with
           | l :: ls => (c :: l) :: ls
           | [] => [[c]]
           end
  end.

(** ** Regular expressions *)

Inductive regex : Type :=
| Eps                                             (* the empty pattern *)
| Chr (c : N)                                     (* a literal unit *)
| Cls (invert : bool) (p : N -> bool)             (* a class or class escape *)
| Seq (r1 r2 : regex)
| Alt (r1 r2 : regex)
| Rep (min : nat) (max : option nat) (greedy : bool) (r : regex)
| Grp (i : nat) (r : regex)                       (* capturing group number i *)
| Look (negative : bool) (r : regex)              (* (?=r) and (?!r) *)
| Bol                                             (* ^ without the m flag *)
| Eol.                                            (* $ without the m flag *)

Fixpoint lit (s : jsstring) : regex :=
  match s with
  | [] => Eps
  | [c] => Chr c
  | c :: s' => Seq (Chr c) (lit s')
  end.

Fixpoint seq (rs : list regex) : regex :=
  match rs with
  | [] => Eps
  | [r] => r
  | r :: rs' => Seq r (seq rs')
  end.

Definition star (r : regex) : regex := Rep 0 None true r.        (* r*  *)
Definition star_lazy (r : regex) : regex := Rep 0 None false r.  (* r*? *)
Definition plus (r : regex) : regex := Rep 1 None true r.        (* r+  *)
Definition plus_lazy (r : regex) : regex := Rep 1 None false r.  (* r+? *)

Definition cls_space : regex := Cls false is_space.   (* \s *)
Definition cls_word : regex := Cls false is_word.     (* \w *)
Definition cls_digit : regex := Cls false is_digit.   (* \d *)
Definition cls_any : regex := Cls false is_any.       (* [\s\S] *)
Definition cls_dot : regex := Cls false is_dot.       (* . *)

(** The state of a match: the index reached, the input from there on, and
    the captures made so far (latest first). *)
Record MatchState : Type := mkState {
  endIndex : nat;
  rest : jsstring;
  captures : list (nat * jsstring)
}.

Definition Continuation : Type := MatchState -> option MatchState.

Definition advance (x : MatchState) (t : jsstring) : MatchState :=
  mkState (S (endIndex x)) t (captures x).

Definition capture (i : nat) (x y : MatchState) : MatchState :=
  mkState (endIndex y) (rest y)
          ((i, take (endIndex y - endIndex x) (rest x)) :: captures y).

Definition orElse (a : option MatchState) (b : option MatchState)
  : option MatchState :=
  match a with Some z => Some z | None => b end.

(** Membership of a code unit in a class, up to case when [ic]. *)
Definition cls_mem (ic : bool) (p : N -> bool) (c : N) : bool :=
  p c || (ic && p (swapcase c)).

Definition chr_eq (ic : bool) (a c : N) : bool :=
  (a =? c)%N || (ic && (a =? swapcase c)%N).

(** RepeatMatcher of ECMA-262, for the matcher [m] of the repeated pattern.
    An iteration that counts towards [min] lowers [min]; any other
    iteration must consume input (an iteration that matches the empty
    string fails). [min + length (rest x)] iterations are therefore all
    there can be, and [fuel] starts at that number (more fuel gives the
    same result, see [matcher_fuel_enough]). None of the repeated
    patterns of the scripts holds a capturing group, so there is no capture
    to reset between iterations. *)
Fixpoint repeatMatcher (m : MatchState -> Continuation -> option MatchState)
  (greedy : bool) (c : Continuation) (fuel min : nat) (max : option nat)
  (x : MatchState) {struct fuel} : option MatchState :=
  match max with
  | Some 0 => c x
  | _ =>
      match fuel with
      | 0 => if min =? 0 then c x else None
      | S fuel' =>
          let d := fun y : MatchState =>
            if (min =? 0) && (endIndex y =? endIndex x) then None
            else repeatMatcher m greedy c fuel' (pred min) (pred <$> max) y in
          if negb (min =? 0) then m x d
          else if greedy then orElse (m x d) (c x)
          else orElse (c x) (m x d)
      end
  end.

Fixpoint matcher (ic : bool) (r : regex) (x : MatchState) (c : Continuation)
  {struct r} : option MatchState :=
  match r with
  | Eps => c x
  | Chr a =>
      match rest x with
      | b :: t => if chr_eq ic a b then c (advance x t) else None
      | [] => None
      end
  | Cls invert p =>
      match rest x with
      | b :: t => if xorb invert (cls_mem ic p b) then c (advance x t) else None
      | [] => None
      end
  | Seq r1 r2 => matcher ic r1 x (fun y => matcher ic r2 y c)
  | Alt r1 r2 => orElse (matcher ic r1 x c) (matcher ic r2 x c)
  | Rep min max greedy r' =>
      repeatMatcher (matcher ic r') greedy c (min + length (rest x)) min max x
  | Grp i r' => matcher ic r' x (fun y => c (capture i x y))
  | Look negative r' =>
      match matcher ic r' x Some with
      | Some y =>
          if negative then None
          else c (mkState (endIndex x) (rest x) (captures y))
      | None => if negative then c x else None
      end
  | Bol => if endIndex x =? 0 then c x else None
  | Eol => match rest x with [] => c x | _ :: _ => None end
  end.

(** One attempt at index [pos], where [s] is the input from [pos] on. *)
Definition matchAt (ic : bool) (r : regex) (pos : nat) (s : jsstring)
  : option MatchState :=
  matcher ic r (mkState pos s []) Some.

(** The result of [RegExp.prototype.exec]: where the match starts, the
    matched text, and the captures. *)
Record MatchResult : Type := mkResult {
  index : nat;
  matched : jsstring;
  groups : list (nat * jsstring)
}.

(** The capture numbered [i], [undefined] when the group took no part. *)
Fixpoint group (i : nat) (gs : list (nat * jsstring)) : option jsstring :=
  match gs with
  | [] => None
  | (j, v) :: gs' => if i =? j then Some v else group i gs'
  end.

(** [RegExp.prototype.exec] without the [g] flag: the first index, from
    [pos] up to and including the end of the input, at which the pattern
    matches. *)
Fixpoint execFrom (ic : bool) (r : regex) (pos : nat) (s : jsstring)
  : option MatchResult :=
  match matchAt ic r pos s with
  | Some y => Some (mkResult pos (take (endIndex y - pos) s) (captures y))
  | None =>
      match s with
      | [] => None
      | _ :: t => execFrom ic r (S pos) t
      end
  end.

(** [s.match(r)] for a pattern without the [g] flag. *)
Definition exec (ic : bool) (r : regex) (s : jsstring) : option MatchResult :=
  execFrom ic r 0 s.

(** [r.test(s)], and the truth value of [s.match(r)]. *)
Definition test (ic : bool) (r : regex) (s : jsstring) : bool :=
  match exec ic r s with Some _ => true | None => false end.


(** Patterns with the [g] flag. [String.prototype.match] and
    [String.prototype.replace] both start at [lastIndex = 0] and call
    [exec] until it fails; after a match [lastIndex] is the end of the
    match, one further when the match is empty. Here [s] is the input from
    [pos] on and [skip] counts the units of [s] that belong to the match
    found last. *)
Fixpoint matchAllFrom (ic : bool) (r : regex) (pos skip : nat) (s : jsstring)
  : list jsstring :=
  match skip with
  | S k =>
      match s with
      | [] => []
      | _ :: t => matchAllFrom ic r (S pos) k t
      end
  | 0 =>
      match matchAt ic r pos s with
      | Some y =>
          let n := endIndex y - pos in
          take n s ::
            match s with
            | [] => []
            | _ :: t => matchAllFrom ic r (S pos) (pred n) t
            end
      | None =>
          match s with
          | [] => []
          | _ :: t => matchAllFrom ic r (S pos) 0 t
          end
      end
  end.

(** [s.match(r)] with the [g] flag: [null] when nothing matches. *)
Definition matchAll (ic : bool) (r : regex) (s : jsstring)
  : option (list jsstring) :=
  match matchAllFrom ic r 0 0 s with
  | [] => None
  | l => Some l
  end.

Fixpoint replaceAllFrom (ic : bool) (r : regex) (repl : jsstring)
  (pos skip : nat) (s : jsstring) : jsstring :=
  match skip with
  | S k =>
      match s with
      | [] => []
      | _ :: t => replaceAllFrom ic r repl (S pos) k t
      end
  | 0 =>
      match matchAt ic r pos s with
      | Some y =>
          let n := endIndex y - pos in
          repl ++
            match s with
            | [] => []
            | b :: t =>
                (if n =? 0 then [b] else [])
                  ++ replaceAllFrom ic r repl (S pos) (pred n) t
            end
      | None =>
          match s with
          | [] => []
          | b :: t => b :: replaceAllFrom ic r repl (S pos) 0 t
          end
      end
  end.

(** [s.replace(r, repl)] with the [g] flag, for a replacement text without
    [$] patterns. *)
Definition replaceAll (ic : bool) (r : regex) (repl s : jsstring) : jsstring :=
  replaceAllFrom ic r repl 0 0 s.

(** *** Vocabulary for the properties of the matcher *)

(** The number of iterations a quantifier cannot do without. *)
Definition reps (min : nat) (max : option nat) : nat :=
  match max with
  | Some mx => Nat.min min mx
  | None => min
  end.

(** A lower bound on the length of every match of a pattern. *)
Fixpoint min_len (r : regex) : nat :=
  match r with
  | Eps => 0
  | Chr _ => 1
  | Cls _ _ => 1
  | Seq r1 r2 => min_len r1 + min_len r2
  | Alt r1 r2 => Nat.min (min_len r1) (min_len r2)
  | Rep min max _ r' => reps min max * min_len r'
  | Grp _ r' => min_len r'
  | Look _ _ => 0
  | Bol => 0
  | Eol => 0
  end.

(** [y] is [x] moved [n] units on in the same input, whatever the
    captures. *)
Definition moved (n : nat) (x y : MatchState) : Prop :=
  n ≤ length (rest x) ∧ endIndex y = endIndex x + n ∧ rest y = drop n (rest x).

(** A matcher enters its continuation only further on in the same input,
    at least [k] units on. *)
Definition progresses (k : nat)
  (m : MatchState → Continuation → option MatchState) : Prop :=
  ∀ x c z, m x c = Some z → ∃ y n, k ≤ n ∧ moved n x y ∧ c y = Some z.

(** A matcher looks at its continuation only further on in the same
    input. *)
Definition localised (m : MatchState → Continuation → option MatchState)
  : Prop :=
  ∀ x c1 c2, (∀ y n, moved n x y → c1 y = c2 y) → m x c1 = m x c2.

(** What a lazy [[\s\S]*?] does: it tries its continuation at every index
    in turn, from [idx] on. *)
Fixpoint scanLazy (c : Continuation) (idx : nat) (s : jsstring)
  (caps : list (nat * jsstring)) : option MatchState :=
  orElse (c (mkState idx s caps))
         match s with
         | [] => None
         | _ :: t => scanLazy c (S idx) t caps
         end.

(** A text ends with [p]. *)
Definition endsWithText (p t : jsstring) : Prop := ∃ pre, t = pre ++ p.

(** [String(n)] for a count or a length. *)
Definition decimal (n : nat) : jsstring :=
  u (DecimalString.NilEmpty.string_of_uint (Nat.to_uint n)).

(** [[...new Set(l)]]: the first occurrence of each element, in order. *)
Fixpoint distinct (seen l : list jsstring) : list jsstring :=
  match l with
  | [] => []
  | a :: l' =>
      if bool_decide (a ∈ seen) then distinct seen l'
      else a :: distinct (a :: seen) l'
  end.

(** [Array.prototype.join]. *)
Fixpoint join (sep : jsstring) (l : list jsstring) : jsstring :=
  match l with
  | [] => []
  | [a] => a
  | a :: l' => a ++ sep ++ join sep l'
  end.

(** ** Exceptions and the state the scripts work on *)

Inductive JsError : Type :=
| TypeError (msg : string)      (* a property read on [undefined] *)
| ENOENT (path : string)        (* [readFileSync] of a missing file *)
| EACCES (path : string).       (* [writeFileSync] of a read-only file *)

Inductive Completion (A : Type) : Type :=
| Normal (a : A)
| Throw (e : JsError).
Arguments Normal {A} a.
Arguments Throw {A} e.

(** A statement over a mutable state [S]: it completes normally or throws,
    and in both cases leaves a state behind. *)
Definition Js (S A : Type) : Type := S -> Completion A * S.

Definition ret {S A : Type} (a : A) : Js S A := fun st => (Normal a, st).

Definition throw {S A : Type} (e : JsError) : Js S A := fun st => (Throw e, st).

Definition bind {S A B : Type} (m : Js S A) (k : A -> Js S B) : Js S B :=
  fun st =>
    match m st with
    | (Normal a, st') => k a st'
    | (Throw e, st') => (Throw e, st')
    end.

Definition get {S : Type} : Js S S := fun st => (Normal st, st).

Definition modify {S : Type} (f : S -> S) : Js S unit :=
  fun st => (Normal tt, f st).

(** [try { m } catch (error) { handler(error) }]. *)
Definition tryCatch {S A : Type} (m : Js S A) (handler : JsError -> Js S A)
  : Js S A :=
  fun st =>
    match m st with
    | (Normal a, st') => (Normal a, st')
    | (Throw e, st') => handler e st'
    end.

#[export] Instance js_ret {S : Type} : MRet (Js S) := fun A a => ret a.
#[export] Instance js_bind {S : Type} : MBind (Js S) := fun A B k m => bind m k.

(** [for (const x of l) body(x)]. *)
Fixpoint forOf {S A : Type} (l : list A) (body : A -> Js S unit) : Js S unit :=
  match l with
  | [] => ret tt
  | a :: l' => body a ;; forOf l' body
  end.

(** The files on disk: their text, and the paths that cannot be written. *)
Record FileSystem : Type := mkFs {
  files : gmap string jsstring;
  readonly : gset string
}.

Definition readFileSync (fs : FileSystem) (path : string) : Completion jsstring :=
  match files fs !! path with
  | Some data => Normal data
  | None => Throw (ENOENT path)
  end.

Definition writeFileSync (path : string) (data : jsstring) (fs : FileSystem)
  : Completion FileSystem :=
  if bool_decide (path ∈ readonly fs) then Throw (EACCES path)
  else Normal (mkFs (<[path := data]> (files fs)) (readonly fs)).

(** [(counts[key] || 0) + n]. *)
Definition addCount (key : jsstring) (n : nat) (counts : gmap jsstring nat)
  : gmap jsstring nat :=
  <[key := default 0 (counts !! key) + n]> counts.

(** The sum of the values of a table of counts. *)
Definition total (counts : gmap jsstring nat) : nat :=
  map_fold (fun _ n acc => n + acc) 0 counts.

(** ** scripts/seo-audit.js *)

Module Audit.

Inductive Severity : Type := Error | Warning | Info.

(** [const severityLevels = { error: 3, warning: 2, info: 1 }]. *)
Definition severityLevels (sev : Severity) : nat :=
  match sev with
  | Error => 3
  | Warning => 2
  | Info => 1
  end.

(** The parsed header of a document. *)
Abbreviation Frontmatter := (gmap jsstring jsstring).

(** Truthiness of a property that is a string or [undefined]. *)
Definition truthy (v : option jsstring) : bool :=
  match v with
  | Some (_ :: _) => true
  | _ => false
  end.

(** [!fm.key || fm.key.trim() === ''] *)
Definition blank (v : option jsstring) : bool :=
  match v with
  | Some (c :: s) => match trim (c :: s) with [] => true | _ => false end
  | _ => true
  end.

(** [fm.key.length] and the like: a property read on [undefined] throws. *)
Definition readOf {A : Type} (key : string) (v : option jsstring)
  (f : jsstring -> A) : Completion A :=
  match v with
  | Some d => Normal (f d)
  | None => Throw (TypeError key)
  end.

Record Check : Type := mkCheck {
  name : jsstring;
  check : jsstring -> Frontmatter -> bool;
  severity : Severity;
  details : option (jsstring -> Frontmatter -> Completion jsstring)
}.

(** [[^>]] *)
Definition not_gt : regex := Cls true (one_of (u ">")).
(** The class of the two quote characters. *)
Definition quote : regex := Cls false (one_of [DQ; SQ]).

(** [/<h1[^>]*>/i] *)
Definition re_h1 : regex := seq [lit (u "<h1"); star not_gt; Chr 62%N].

(** [/\s\w{1,3}$/] *)
Definition re_short_fragment : regex :=
  seq [cls_space; Rep 1 (Some 3) true cls_word; Eol].

(** The class of [.], [!], [?] and the double quote, then [$]. *)
Definition re_terminal : regex :=
  seq [Cls false (one_of (u ".!?" ++ [DQ])); Eol].

(** [/<img(?![^>]*alt=)[^>]*>/gi] *)
Definition re_img_no_alt : regex :=
  seq [lit (u "<img"); Look true (seq [star not_gt; lit (u "alt=")]);
       star not_gt; Chr 62%N].

(** [<img[^>]*alt=], a quote, [\s*], a quote, [[^>]*>], flags [gi]. *)
Definition re_img_empty_alt : regex :=
  seq [lit (u "<img"); star not_gt; lit (u "alt="); quote; star cls_space;
       quote; star not_gt; Chr 62%N].

(** [/&#\d+;|&[a-z]+;/i] *)
Definition re_entity : regex :=
  Alt (seq [lit (u "&#"); plus cls_digit; Chr 59%N])
      (seq [Chr 38%N; plus (Cls false is_lower); Chr 59%N]).

Definition count (ms : option (list jsstring)) : nat :=
  match ms with
  | Some l => length l
  | None => 0
  end.

Definition description (fm : Frontmatter) : option jsstring :=
  fm !! u "description".
Definition title (fm : Frontmatter) : option jsstring := fm !! u "title".

Definition truncatedDescription (content : jsstring) (fm : Frontmatter) : bool :=
  match description fm with
  | Some (c :: s) =>
      let desc := trim (c :: s) in
      (50 <? length desc)
      && (endsWith (u "...") desc
          || test false re_short_fragment desc
          || negb (test false re_terminal desc))
  | _ => false
  end.

Definition lengthDetails (content : jsstring) (fm : Frontmatter)
  : Completion jsstring :=
  readOf "description" (description fm)
         (fun d => decimal (length d) ++ u " chars (recommended: 120-160)").

Definition entityDetails (content : jsstring) (fm : Frontmatter)
  : Completion jsstring :=
  let of_field v :=
    if truthy v then default [] (matchAll true re_entity (default [] v))
    else [] in
  let entities := of_field (title fm) ++ of_field (description fm) in
  Normal (u "Found: " ++ join (u ", ") (distinct [] entities)).

(** [const SEO_CHECKS = [...]], in the order of the script. *)
Definition SEO_CHECKS : list Check := [
  mkCheck (u "Missing H1 Tag")
    (fun content fm => negb (test true re_h1 content))
    Error None;
  mkCheck (u "Multiple H1 Tags")
    (fun content fm => 1 <? count (matchAll true re_h1 content))
    Warning
    (Some (fun content fm =>
       Normal (u "Found " ++ decimal (count (matchAll true re_h1 content))
                 ++ u " h1 tags")));
  mkCheck (u "Missing Title")
    (fun content fm => blank (title fm))
    Error None;
  mkCheck (u "Missing Description")
    (fun content fm => blank (description fm))
    Error None;
  mkCheck (u "Truncated Description")
    truncatedDescription
    Warning
    (Some (fun content fm =>
       readOf "description" (description fm)
              (fun d => [DQ] ++ substring0 80 d ++ u "..." ++ [DQ])));
  mkCheck (u "Description Too Short")
    (fun content fm =>
       truthy (description fm) && (length (default [] (description fm)) <? 50))
    Warning (Some lengthDetails);
  mkCheck (u "Description Too Long")
    (fun content fm =>
       truthy (description fm) && (160 <? length (default [] (description fm))))
    Info (Some lengthDetails);
  mkCheck (u "Missing OG Image")
    (fun content fm => blank (fm !! u "ogImage"))
    Warning None;
  mkCheck (u "Images Missing Alt Text")
    (fun content fm =>
       (0 <? count (matchAll true re_img_no_alt content))
       || (0 <? count (matchAll true re_img_empty_alt content)))
    Warning
    (Some (fun content fm =>
       Normal (decimal (count (matchAll true re_img_no_alt content))
                 ++ u " missing, "
                 ++ decimal (count (matchAll true re_img_empty_alt content))
                 ++ u " empty")));
  mkCheck (u "Contains HTML Entities")
    (fun content fm =>
       (truthy (title fm) && test true re_entity (default [] (title fm)))
       || (truthy (description fm)
           && test true re_entity (default [] (description fm))))
    Warning (Some entityDetails);
  mkCheck (u "Missing Canonical URL")
    (fun content fm =>
       negb (truthy (fm !! u "ogUrl")) && negb (truthy (fm !! u "canonicalUrl")))
    Info None
].

(** [/\r\n/g] *)
Definition re_crlf : regex := lit [CR; LF].

(** [/^---\n([\s\S]*?)\n---/] *)
Definition re_frontmatter : regex :=
  seq [Bol; lit (u "---"); Chr LF; Grp 1 (star_lazy cls_any); Chr LF;
       lit (u "---")].

(** [^(\w+):\s*], a quote, a group of [.*], a quote, [\s*$]. *)
Definition re_quoted : regex :=
  seq [Bol; Grp 1 (plus cls_word); Chr 58%N; star cls_space; quote;
       Grp 2 (star cls_dot); quote; star cls_space; Eol].

(** [/^(\w+):\s*(.+?)\s*$/] *)
Definition re_bare : regex :=
  seq [Bol; Grp 1 (plus cls_word); Chr 58%N; star cls_space;
       Grp 2 (plus_lazy cls_dot); star cls_space; Eol].

(** [line.match(quoted) || line.match(bare)] *)
Definition keyMatch (line : jsstring) : option MatchResult :=
  match exec false re_quoted line with
  | Some m => Some m
  | None => exec false re_bare line
  end.

(** [frontmatter[key] = value] on an object made by [{}]: an assignment to
    [__proto__] goes to the setter of [Object.prototype], which ignores a
    string; every other key becomes a property of the object. *)
Definition setProperty (key value : jsstring) (fm : Frontmatter) : Frontmatter :=
  if bool_decide (key = u "__proto__") then fm else <[key := value]> fm.

(** The body of the loop over the lines of the header. Both groups take
    part in every match of the two patterns. *)
Definition parseLine (fm : Frontmatter) (line : jsstring) : Frontmatter :=
  match keyMatch line with
  | Some m =>
      match group 1 (groups m), group 2 (groups m) with
      | Some k, Some v => setProperty k v fm
      | _, _ => fm
      end
  | None => fm
  end.

(** [content.replace(/\r\n/g, '\n')] *)
Definition normalizedContent (content : jsstring) : jsstring :=
  replaceAll false re_crlf [LF] content.

(** [normalizedContent.match(...)] and, when it matches, [match[1]]. *)
Definition headerBlock (content : jsstring) : option jsstring :=
  match exec false re_frontmatter (normalizedContent content) with
  | Some m => group 1 (groups m)
  | None => None
  end.

Definition parseFrontmatter (content : jsstring) : Frontmatter :=
  match headerBlock content with
  | None => ∅
  | Some yaml =>
      let lines := split LF yaml in
      foldl parseLine ∅ lines
  end.

(** One finding, [{ check, severity, details }]; [details] is [null] for a
    check without a [details] function. *)
Record Issue : Type := mkIssue {
  issueCheck : jsstring;
  issueSeverity : Severity;
  issueDetails : option jsstring
}.

(** An entry of [stats.fileIssues]. *)
Record FileReport : Type := mkReport {
  file : string;
  reportTitle : jsstring;
  issues : list Issue
}.

(** [issuesBySeverity: { error: 0, warning: 0, info: 0 }] *)
Record BySeverity : Type := mkBySeverity {
  error : nat;
  warning : nat;
  info : nat
}.

Record Stats : Type := mkStats {
  filesScanned : nat;
  issuesByType : gmap jsstring nat;
  issuesBySeverity : BySeverity;
  fileIssues : list FileReport
}.

Definition stats0 : Stats := mkStats 0 ∅ (mkBySeverity 0 0 0) [].

(** [counts[sev]++] *)
Definition bump (sev : Severity) (counts : BySeverity) : BySeverity :=
  match sev with
  | Error => mkBySeverity (S (error counts)) (warning counts) (info counts)
  | Warning => mkBySeverity (error counts) (S (warning counts)) (info counts)
  | Info => mkBySeverity (error counts) (warning counts) (S (info counts))
  end.

Definition scanned (st : Stats) : Stats :=
  mkStats (S (filesScanned st)) (issuesByType st) (issuesBySeverity st)
          (fileIssues st).

(** The two increments that follow [fileIssues.push(issue)]. *)
Definition tally (ck : Check) (st : Stats) : Stats :=
  mkStats (filesScanned st)
          (addCount (name ck) 1 (issuesByType st))
          (bump (severity ck) (issuesBySeverity st))
          (fileIssues st).

Definition report (r : FileReport) (st : Stats) : Stats :=
  mkStats (filesScanned st) (issuesByType st) (issuesBySeverity st)
          (fileIssues st ++ [r]).

(** A call that may throw, as a statement. *)
Definition lift {S A : Type} (r : Completion A) : Js S A :=
  fun st => (r, st).

(** [check.details ? check.details(content, frontmatter) : null] *)
Definition detailsOf (ck : Check) (content : jsstring) (fm : Frontmatter)
  : Completion (option jsstring) :=
  match details ck with
  | Some f =>
      match f content fm with
      | Normal d => Normal (Some d)
      | Throw e => Throw e
      end
  | None => Normal None
  end.

(** [for (const check of SEO_CHECKS) { ... }], with the local [fileIssues]
    as an accumulator. *)
Fixpoint runChecks (checks : list Check) (minLevel : nat) (content : jsstring)
  (fm : Frontmatter) (found : list Issue) : Js Stats (list Issue) :=
  match checks with
  | [] => mret found
  | ck :: checks' =>
      if severityLevels (severity ck) <? minLevel
      then runChecks checks' minLevel content fm found
      else if check ck content fm then
        d ← lift (detailsOf ck content fm);
        let issue := mkIssue (name ck) (severity ck) d in
        modify (tally ck);;
        runChecks checks' minLevel content fm (found ++ [issue])
      else runChecks checks' minLevel content fm found
  end.

(** [frontmatter.title || '(no title)'] *)
Definition titleOr (fm : Frontmatter) : jsstring :=
  match title fm with
  | Some (c :: s) => c :: s
  | _ => u "(no title)"
  end.

(** The body of [for (const file of files)]. *)
Definition auditFile (fs : FileSystem) (minLevel : nat) (f : string)
  : Js Stats unit :=
  content ← lift (readFileSync fs f);
  let frontmatter := parseFrontmatter content in
  modify scanned;;
  found ← runChecks SEO_CHECKS minLevel content frontmatter [];
  if 0 <? length found
  then modify (report (mkReport f (titleOr frontmatter) found))
  else mret tt.

(** [severityLevels[minSeverity] || 1]. A name that is a property of
    [Object.prototype] gives a value that is not a number; every comparison
    with it is false, and no check is skipped, as with level 1. *)
Definition levelOf (minSeverity : jsstring) : nat :=
  if bool_decide (minSeverity = u "error") then 3
  else if bool_decide (minSeverity = u "warning") then 2
  else 1.

(** [severityFilter ? severityFilter.split('=')[1] : 'info'] *)
Definition minSeverityOf (argv : list jsstring) : jsstring :=
  match List.find (startsWith (u "--severity=")) argv with
  | Some arg => nth 1 (split 61%N arg) []
  | None => u "info"
  end.

(** [main], up to the report: [files] is what [glob] returned. An exception
    that leaves the loop reaches [main().catch], which prints
    [Fatal error] and exits with code 1. *)
Definition main (argv : list jsstring) (fs : FileSystem) (files : list string)
  : Js Stats unit :=
  let minLevel := levelOf (minSeverityOf argv) in
  forOf files (auditFile fs minLevel).

Definition exitCode {A : Type} (r : Completion A) : nat :=
  match r with
  | Normal _ => 0
  | Throw _ => 1
  end.

(** *** Vocabulary for the properties of the audit *)

(** A text ends with white space and a word of one to three units. *)
Definition endsShortFragment (t : jsstring) : Prop :=
  ∃ pre c w, t = pre ++ c :: w ∧ is_space c = true ∧ 1 ≤ length w ≤ 3
             ∧ Forall (fun a => is_word a = true) w.

(** The full stop, the exclamation mark, the question mark and the double
    quote. *)
Definition terminalPunctuation : list N := [46; 33; 63; 34]%N.

Definition endsTerminal (t : jsstring) : Prop :=
  ∃ pre c, t = pre ++ [c] ∧ c ∈ terminalPunctuation.

Definition describedBy (d : jsstring) : Frontmatter := {[ u "description" := d ]}.

Definition shortExample : jsstring :=
  u "This is a great article about many thing".
Definition finishedExample : jsstring :=
  u "This is a great article about many things.".
Definition longExample : jsstring :=
  u "This is a great article about many more interesting thing".
Definition longFinishedExample : jsstring :=
  u "This is a great article about many more interesting things.".

(** A page whose header carries [shortExample]. *)
Definition shortPage : jsstring :=
  u "---" ++ [LF] ++ u "title: A page" ++ [LF]
    ++ u "description: " ++ shortExample ++ [LF]
    ++ u "---" ++ [LF] ++ u "<h1>A page</h1>".

(** A line feed and the marker: what the pattern of the header ends
    with. *)
Definition marker : jsstring := LF :: u "---".

(** The text before the first occurrence of [marker]. *)
Fixpoint upToMarker (s : jsstring) : option jsstring :=
  if startsWith marker s then Some []
  else match s with
       | [] => None
       | b :: t => cons b <$> upToMarker t
       end.


(** The continuation of the group of [re_frontmatter], when the group
    started at index 4 of an input that goes on with [tl0]. *)
Definition closing (tl0 : jsstring) : Continuation :=
  fun y => matcher false (Seq (Chr LF) (lit (u "---")))
                   (capture 1 (mkState 4 tl0 []) y) Some.

Definition helloWorld : jsstring :=
  u "---" ++ [LF] ++ u "title: " ++ [DQ] ++ u "Hello" ++ [DQ] ++ [LF]
    ++ u "description: World" ++ [LF] ++ u "---" ++ [LF] ++ u "body".

(** The same header with a bare value between spaces. *)
Definition helloSpaced : jsstring :=
  u "---" ++ [LF] ++ u "title: " ++ [DQ] ++ u "Hello" ++ [DQ] ++ [LF]
    ++ u "description:   World  " ++ [LF] ++ u "---" ++ [LF] ++ u "body".



(** The invariant of the statistics: as many findings by name as by
    severity. *)
Definition consistent (st : Stats) : Prop :=
  total (issuesByType st)
  = error (issuesBySeverity st) + warning (issuesBySeverity st)
    + info (issuesBySeverity st).

(** The checks that a threshold lets through. *)
Definition allowed (minLevel : nat) (ck : Check) : bool :=
  negb (severityLevels (severity ck) <? minLevel).


(** A page with a heading, a title, a description of a good length and no
    preview image: its only finding is a warning. *)
Definition noImagePage : jsstring :=
  u "---" ++ [LF] ++ u "title: Hello" ++ [LF]
    ++ u "description: A page that tells the reader, in full sentences, "
    ++ u "what this site is about and why it is worth reading it all."
    ++ [LF] ++ u "ogUrl: https://example.org/hello/" ++ [LF]
    ++ u "---" ++ [LF] ++ u "<h1>Hello</h1>".

Definition noImageSite : FileSystem :=
  mkFs {[ "hello/index.html"%string := noImagePage ]} ∅.

End Audit.

(** ** scripts/cleanup-wp-legacy.js

    The two variants of the script differ in their table of patterns only;
    the functions are written once, over the table. *)

Module Cleanup.

Record Rule : Type := mkRule {
  name : jsstring;
  pattern : regex       (* every pattern has the [g] flag and no other *)
}.

Record Stats : Type := mkStats {
  filesScanned : nat;
  filesModified : nat;
  removalsByType : gmap jsstring nat
}.

Definition stats0 : Stats := mkStats 0 0 ∅.

(** What the loop of [main] prints for one file. *)
Inductive Line : Type :=
| Removed (path : string) (totalRemovals : nat)
| ErrorProcessing (path : string) (e : JsError).

(** All that the script reads and changes: its statistics, the files, and
    the lines printed so far. *)
Record World : Type := mkWorld {
  stats : Stats;
  disk : FileSystem;
  console : list Line
}.

Definition withStats (f : Stats -> Stats) (w : World) : World :=
  mkWorld (f (stats w)) (disk w) (console w).

Definition print (l : Line) (w : World) : World :=
  mkWorld (stats w) (disk w) (console w ++ [l]).

Definition scanned (st : Stats) : Stats :=
  mkStats (S (filesScanned st)) (filesModified st) (removalsByType st).

Definition markModified (st : Stats) : Stats :=
  mkStats (filesScanned st) (S (filesModified st)) (removalsByType st).

Definition setRemovals (byType : gmap jsstring nat) (st : Stats) : Stats :=
  mkStats (filesScanned st) (filesModified st) byType.

Definition count (ms : option (list jsstring)) : nat :=
  match ms with
  | Some l => length l
  | None => 0
  end.

(** The body of the loop of [cleanupContent], on the text so far, the
    removals so far and [stats.removalsByType]. *)
Definition applyRule (acc : jsstring * nat * gmap jsstring nat) (rule : Rule)
  : jsstring * nat * gmap jsstring nat :=
  let '(text, totalRemovals, byType) := acc in
  let n := count (matchAll false (pattern rule) text) in
  if 0 <? n
  then (replaceAll false (pattern rule) [] text,
        totalRemovals + n,
        addCount (name rule) n byType)
  else acc.

Section Script.

Variable REMOVAL_PATTERNS : list Rule.

(** The text and the count that [cleanupContent] returns, with the table
    of counts it leaves in [stats.removalsByType]. *)
Definition cleanup (content : jsstring) (byType : gmap jsstring nat)
  : jsstring * nat * gmap jsstring nat :=
  foldl applyRule (content, 0, byType) REMOVAL_PATTERNS.

Definition cleanupContent (content : jsstring) : Js World (jsstring * nat) :=
  w ← get;
  let '(text, totalRemovals, byType) :=
    cleanup content (removalsByType (stats w)) in
  modify (withStats (setRemovals byType));;
  mret (text, totalRemovals).

(** The two fields of the result of [cleanupContent]; they do not depend
    on the statistics the call starts from. *)
Definition modified (content : jsstring) : jsstring :=
  (cleanup content ∅).1.1.

Definition totalRemovals (content : jsstring) : nat :=
  (cleanup content ∅).1.2.

Definition readFile (path : string) : Js World jsstring :=
  fun w => (readFileSync (disk w) path, w).

Definition writeFile (path : string) (data : jsstring) : Js World unit :=
  fun w =>
    match writeFileSync path data (disk w) with
    | Normal fs' => (Normal tt, mkWorld (stats w) fs' (console w))
    | Throw e => (Throw e, w)
    end.

Definition processFile (filePath : string) (dryRun : bool) : Js World unit :=
  modify (withStats scanned);;
  content ← readFile filePath;
  r ← cleanupContent content;
  let '(text, totalRemovals) := r in
  if 0 <? totalRemovals then
    modify (withStats markModified);;
    modify (print (Removed filePath totalRemovals));;
    if negb dryRun then writeFile filePath text else mret tt
  else mret tt.

(** The loop of [main]: [files] is what [glob] returned. *)
Definition main (argv : list jsstring) (files : list string) : Js World unit :=
  let dryRun := bool_decide (u "--dry-run" ∈ argv) in
  forOf files (fun f =>
    tryCatch (processFile f dryRun)
             (fun e => modify (print (ErrorProcessing f e)))).

End Script.

(** A quoted attribute value. *)
Definition q (s : string) : jsstring := [DQ] ++ u s ++ [DQ].

(** The lookahead for a line feed, written after [\s*]. *)
Definition before_LF : regex := Look false (Chr LF).

Definition socialShare : Rule :=
  mkRule (u "Social Share Section")
    (seq [lit (u "<section class="
                 ++ q "main-color container-wrap social-share-wrap" ++ u ">");
          star_lazy cls_any; lit (u "</section>"); star cls_space; before_LF]).

Definition relatedArticles : Rule :=
  mkRule (u "Related Articles Carousel")
    (seq [lit (u "<section class=" ++ q "container-wrap" ++ u ">");
          star cls_space;
          lit (u "<div class=" ++ q "container" ++ u ">");
          star cls_space;
          lit (u "<div class=" ++ q "related-wrap" ++ u ">");
          star_lazy cls_any; lit (u "</section>"); star cls_space; before_LF]).

Definition pagination : Rule :=
  mkRule (u "Pagination Navigation")
    (seq [star cls_space;
          lit (u "<nav class=" ++ [DQ] ++ u "pagination-sticky");
          star_lazy cls_any; lit (u "</nav><!-- .navigation -->");
          star cls_space]).

Definition comments : Rule :=
  mkRule (u "Comments Section")
    (seq [star cls_space; lit (u "<!-- Begin Comments -->");
          star_lazy cls_any; lit (u "<!-- End Comments -->");
          star cls_space]).

Definition articleMeta : Rule :=
  mkRule (u "Article Meta Section")
    (seq [star cls_space; lit (u "<div class=" ++ q "article-meta" ++ u ">");
          star_lazy cls_any; lit (u "</div><!--end article-meta-->");
          star cls_space]).

Definition pricingStyles : Rule :=
  mkRule (u "Go Pricing Table Styles")
    (seq [lit (u "<style"); star (Cls true (one_of (u ">")));
          lit (u ">#go-pricing-table"); star_lazy cls_any;
          lit (u "</style>")]).

Definition pricingHtml : Rule :=
  mkRule (u "Go Pricing Table HTML")
    (seq [lit (u "<div id=" ++ [DQ] ++ u "go-pricing-table-");
          plus cls_digit;
          lit ([DQ] ++ u " class=" ++ q "go-pricing");
          star_lazy cls_any;
          lit (u "</div></div></div></div></div>")]).

(** *** Vocabulary for the properties of the cleanup *)

(** The pattern of a rule matches nowhere in a text. *)
Definition unmatched (text : jsstring) (rule : Rule) : Prop :=
  matchAll false (pattern rule) text = None.

(** Every match of the pattern of a rule has at least one unit. *)
Definition consuming (rule : Rule) : Prop := 0 < min_len (pattern rule).


(** The files that a call of [processFile] leaves behind when it is not a
    dry run. *)
Definition written (rules : list Rule) (path : string) (fs : FileSystem)
  : FileSystem :=
  match readFileSync fs path with
  | Normal content =>
      if (0 <? totalRemovals rules content)
         && negb (bool_decide (path ∈ readonly fs))
      then mkFs (<[path := modified rules content]> (files fs)) (readonly fs)
      else fs
  | Throw _ => fs
  end.

(** The state in which the script starts. *)
Definition w0 (fs : FileSystem) : World := mkWorld stats0 fs [].

(** A page without any legacy fragment. *)
Definition plain : jsstring :=
  u "<h1>Hello</h1><p>No legacy fragment here.</p>".



(** A page with one comments block. *)
Definition commented : jsstring :=
  u "<p>text</p>" ++ [LF]
    ++ u "<!-- Begin Comments --><ol></ol><!-- End Comments -->" ++ [LF]
    ++ u "<p>more</p>".

Definition commentedSite : FileSystem :=
  mkFs {[ "post/index.html"%string := commented ]} ∅.

End Cleanup.

(** The script with four patterns. *)
Module Part000.
Definition REMOVAL_PATTERNS : list Cleanup.Rule :=
  [Cleanup.socialShare; Cleanup.relatedArticles; Cleanup.pagination;
   Cleanup.comments].
Definition cleanupContent := Cleanup.cleanupContent REMOVAL_PATTERNS.
Definition processFile := Cleanup.processFile REMOVAL_PATTERNS.
Definition main := Cleanup.main REMOVAL_PATTERNS.
End Part000.

(** The script with seven patterns. *)
Module Part001.
Definition REMOVAL_PATTERNS : list Cleanup.Rule :=
  Part000.REMOVAL_PATTERNS
    ++ [Cleanup.articleMeta; Cleanup.pricingStyles; Cleanup.pricingHtml].
Definition cleanupContent := Cleanup.cleanupContent REMOVAL_PATTERNS.
Definition processFile := Cleanup.processFile REMOVAL_PATTERNS.
Definition main := Cleanup.main REMOVAL_PATTERNS.
End Part001.

(** A list of two files of which the first cannot be read. *)
Definition page : jsstring := u "<h1>Hello</h1>".
Definition oneFile : FileSystem :=
  mkFs {[ "b/index.html"%string := page ]} ∅.
Definition listed : list string := ["a/index.html"; "b/index.html"]%string.
(** ** Vocabulary of the further properties *)

(** *** The patterns, read as descriptions of texts *)

(** The matches of a pattern, without their order of preference: [y] is a
    state that the matcher of [r] may hand to its continuation when it
    starts in [x]. *)
Inductive matches (ic : bool) : regex → MatchState → MatchState → Prop :=
| matches_Eps x : matches ic Eps x x
| matches_Chr a x b t :
    rest x = b :: t → chr_eq ic a b = true →
    matches ic (Chr a) x (advance x t)
| matches_Cls invert p x b t :
    rest x = b :: t → xorb invert (cls_mem ic p b) = true →
    matches ic (Cls invert p) x (advance x t)
| matches_Seq r1 r2 x y z :
    matches ic r1 x y → matches ic r2 y z → matches ic (Seq r1 r2) x z
| matches_Alt_l r1 r2 x y : matches ic r1 x y → matches ic (Alt r1 r2) x y
| matches_Alt_r r1 r2 x y : matches ic r2 x y → matches ic (Alt r1 r2) x y
| matches_Rep_done min max greedy r x :
    min = 0 ∨ max = Some 0 → matches ic (Rep min max greedy r) x x
| matches_Rep_step min max greedy r x y z :
    max ≠ Some 0 →
    matches ic r x y →
    matches ic (Rep (pred min) (pred <$> max) greedy r) y z →
    matches ic (Rep min max greedy r) x z
| matches_Grp i r x y :
    matches ic r x y → matches ic (Grp i r) x (capture i x y)
| matches_Look_pos r x y :
    matches ic r x y →
    matches ic (Look false r) x (mkState (endIndex x) (rest x) (captures y))
| matches_Look_neg r x : matches ic (Look true r) x x
| matches_Bol x : endIndex x = 0 → matches ic Bol x x
| matches_Eol x : rest x = [] → matches ic Eol x x.

(** [w] is the text between [x] and [y]; the captures are not looked at. *)
Definition spans (w : jsstring) (x y : MatchState) : Prop :=
  rest x = w ++ rest y ∧ endIndex y = endIndex x + length w.

(** [l] occurs in [s]. *)
Definition contains (l s : jsstring) : Prop := ∃ pre suf, s = pre ++ l ++ suf.

(** [l] occurs in [s], as a test. *)
Fixpoint occurs (l s : jsstring) : bool :=
  startsWith l s
  || match s with
     | [] => false
     | _ :: t => occurs l t
     end.

(** The literal text a pattern starts with, and whether the pattern is
    that text and nothing more. *)
Fixpoint literalPrefix (r : regex) : jsstring * bool :=
  match r with
  | Eps => ([], true)
  | Chr a => ([a], true)
  | Seq r1 r2 =>
      let (l1, whole1) := literalPrefix r1 in
      if whole1
      then let (l2, whole2) := literalPrefix r2 in (l1 ++ l2, whole2)
      else (l1, false)
  | _ => ([], false)
  end.

(** The literal text that every match holds: the text the pattern starts
    with, after a repetition when the pattern starts with one. *)
Definition opening (r : regex) : jsstring :=
  match r with
  | Seq (Rep _ _ _ _) r2 => (literalPrefix r2).1
  | _ => (literalPrefix r).1
  end.

(** The head of a text is not in a class. *)
Definition stopsAt (p : N → bool) (t : jsstring) : Prop :=
  match t with
  | [] => True
  | b :: _ => p b = false
  end.

(** A text with every line feed turned into a carriage return and a line
    feed. *)
Fixpoint toCRLF (s : jsstring) : jsstring :=
  match s with
  | [] => []
  | c :: t => (if (c =? LF)%N then [CR; LF] else [c]) ++ toCRLF t
  end.

(** A block between an opening and a closing text, with the white space
    around it: the patterns of the rules for the pagination, the comments
    and the article meta section. *)
Definition fenced (o c : jsstring) : regex :=
  seq [star cls_space; lit o; star_lazy cls_any; lit c; star cls_space].

(** [l] occurs in [s] at index [n] and at no index before. *)
Definition firstAt (l : jsstring) (n : nat) (s : jsstring) : Prop :=
  startsWith l (drop n s) = true
  ∧ ∀ j, j < n → startsWith l (drop j s) = false.

(** The last unit of a text is not in a class. *)
Definition endsOutside (p : N → bool) (s : jsstring) : Prop := stopsAt p (rev s).

(** *** The cleanup scripts *)

Module CleanupTerms.
Import Cleanup.

(** A line that reports removals in a file. *)
Definition isRemoved (l : Line) : bool :=
  match l with
  | Removed _ n => 0 <? n
  | ErrorProcessing _ _ => false
  end.

(** The two states agree on every file but [f]. *)
Definition sameBut (f : string) (fs fs' : FileSystem) : Prop :=
  readonly fs' = readonly fs
  ∧ ∀ p, p ≠ f → files fs' !! p = files fs !! p.

(** A page with one comments block, on a line of its own. *)
Definition withComments : jsstring :=
  u "<p>Hi</p>" ++ [LF] ++ u "<!-- Begin Comments -->" ++ u "<div>old</div>"
    ++ u "<!-- End Comments -->" ++ [LF] ++ u "<footer></footer>".

(** A pattern that ends with the lookahead for a line feed. *)
Definition endsBeforeLF (r : regex) : Prop := ∃ rs, r = seq (rs ++ [before_LF]).

(** A page on one line that holds a social share section. *)
Definition oneLine : jsstring :=
  u "<section class=" ++ q "main-color container-wrap social-share-wrap"
    ++ u ">share</section><p>end</p>".

End CleanupTerms.

(** *** The audit script *)

Module AuditTerms.
Import Audit.

(** The number of [h1] tags that the script counts. *)
Definition h1Count (content : jsstring) : nat :=
  count (matchAll true re_h1 content).

(** A property that is absent, or that holds white space only. *)
Definition blankValue (v : option jsstring) : Prop :=
  v = None ∨ ∃ d, v = Some d ∧ Forall (fun c => is_space c = true) d.

#[export] Instance Severity_eq_dec : EqDecision Severity.
Proof. solve_decision. Defined.

(** The counter of a severity. *)
Definition counter (sev : Severity) (counts : BySeverity) : nat :=
  match sev with
  | Error => error counts
  | Warning => warning counts
  | Info => info counts
  end.

(** All the findings that the reports of the files hold. *)
Definition allIssues (st : Stats) : list Issue :=
  List.concat (List.map issues (fileIssues st)).

(** How many findings of a list have a given name, a given severity. *)
Definition named (n : jsstring) (l : list Issue) : nat :=
  length (List.filter (fun i => bool_decide (issueCheck i = n)) l).
Definition graded (sev : Severity) (l : list Issue) : nat :=
  length (List.filter (fun i => bool_decide (issueSeverity i = sev)) l).

(** The statistics account for the reports: every counter is the number
    of findings of its name or severity in the reports, no report is
    empty, and there are no more reports than files scanned. *)
Definition accounted (st : Stats) : Prop :=
  (∀ n, default 0 (issuesByType st !! n) = named n (allIssues st))
  ∧ (∀ sev, counter sev (issuesBySeverity st) = graded sev (allIssues st))
  ∧ Forall (fun r => issues r ≠ []) (fileIssues st)
  ∧ length (fileIssues st) ≤ filesScanned st.

(** What a line and its captures look like where a pattern of [keyMatch]
    matches: a key of word units, a colon, and further on the value. *)
Definition entryOf (line k v : jsstring) : Prop :=
  k ≠ [] ∧ Forall (fun c => is_word c = true) k
  ∧ Forall (fun c => is_dot c = true) v
  ∧ ∃ tail, line = k ++ [58%N] ++ tail ∧ contains v tail.

(** A header line [key: value]. *)
Definition entryLine (e : jsstring * jsstring) : jsstring :=
  e.1 ++ u ": " ++ e.2.

(** A document whose header holds the given entries, one per line. *)
Definition document (entries : list (jsstring * jsstring)) (rest : jsstring)
  : jsstring :=
  u "---" ++ [LF] ++ join [LF] (entryLine <$> entries) ++ marker ++ rest.

(** A key of word characters, and a value on one line that has no white
    space around it and does not begin with a quote. *)
Definition plainEntry (e : jsstring * jsstring) : Prop :=
  e.1 ≠ [] ∧ Forall (fun c => is_word c = true) e.1
  ∧ e.2 ≠ [] ∧ Forall (fun c => is_dot c = true) e.2
  ∧ trim e.2 = e.2
  ∧ ∀ c, head e.2 = Some c → one_of [DQ; SQ] c = false.

(** The object the loop builds from the entries in order. *)
Definition assigned (entries : list (jsstring * jsstring)) : Frontmatter :=
  foldl (fun fm e => setProperty e.1 e.2 fm) ∅ entries.

(** Two entries, a title and a preview image. *)
Definition sample : list (jsstring * jsstring) :=
  [(u "title", u "Hello there"); (u "ogImage", u "/img/a.png")].




End AuditTerms.

(** * Properties *)

(** ** The matcher *)

Lemma moved_refl x : moved 0 x x.
Proof. split; [lia |]. split; [lia | by rewrite drop_0]. Qed.

Lemma moved_trans n1 n2 x y z :
  moved n1 x y → moved n2 y z → moved (n1 + n2) x z.
Proof.
  intros (H0 & H1 & H2) (H5 & H3 & H4).
  rewrite H2, length_drop in H5.
  split; [lia |]. split; [lia |].
  rewrite H4, H2, drop_drop. done.
Qed.

Lemma orElse_Some a b z : orElse a b = Some z → a = Some z ∨ b = Some z.
Proof. destruct a; simpl; intros; [left | right]; congruence. Qed.

Lemma orElse_None_r a : orElse a None = a.
Proof. by destruct a. Qed.

Lemma succ_neqb n : (S n =? n) = false.
Proof. apply Nat.eqb_neq. lia. Qed.

Lemma chr_eq_false a b : chr_eq false a b = (a =? b)%N.
Proof. unfold chr_eq. simpl. apply orb_false_r. Qed.

Lemma is_any_true c : is_any c = true.
Proof. unfold is_any. destruct (is_space c); done. Qed.

(** The continuation is entered where the matcher stands. *)
Ltac here x :=
  exists x, 0; split; [simpl; lia | split; [apply moved_refl | done]].

Lemma repeatMatcher_progresses m k greedy c :
  progresses k m →
  ∀ fuel min max x z,
    repeatMatcher m greedy c fuel min max x = Some z →
    ∃ y n, reps min max * k ≤ n ∧ moved n x y ∧ c y = Some z.
Proof.
  intros Hm fuel. induction fuel as [|fuel IH]; intros min max x z H.
  - simpl in H. destruct max as [[|mx]|]; destruct min; simpl in H;
      try discriminate; here x.
  - assert (Hd : ∀ y n mn' mx',
      k ≤ n → moved n x y →
      (if (min =? 0) && (endIndex y =? endIndex x) then None
       else repeatMatcher m greedy c fuel mn' mx' y) = Some z →
      ∃ y' n', reps mn' mx' * k + k ≤ n' ∧ moved n' x y' ∧ c y' = Some z).
    { intros y n mn' mx' Hn Hxy Hy.
      destruct ((min =? 0) && (endIndex y =? endIndex x)); [discriminate |].
      apply IH in Hy as (y' & n' & Hn' & Hyy' & Hc).
      exists y', (n + n'). split; [lia | split; [by eapply moved_trans | done]]. }
    simpl in H. destruct max as [[|mx]|].
    + here x.
    + destruct min as [|mn]; simpl in H.
      * destruct greedy; apply orElse_Some in H as [H|H]; try (here x).
        all: apply Hm in H as (y & n & Hn & Hxy & Hy);
          apply (Hd y n) in Hy as (y' & n' & Hn' & ? & ?); auto;
          exists y', n'; split; [simpl; lia | done].
      * apply Hm in H as (y & n & Hn & Hxy & Hy).
        apply (Hd y n) in Hy as (y' & n' & Hn' & ? & ?); auto.
        exists y', n'. split; [simpl in *; lia | done].
    + destruct min as [|mn]; simpl in H.
      * destruct greedy; apply orElse_Some in H as [H|H]; try (here x).
        all: apply Hm in H as (y & n & Hn & Hxy & Hy);
          apply (Hd y n) in Hy as (y' & n' & Hn' & ? & ?); auto;
          exists y', n'; split; [simpl; lia | done].
      * apply Hm in H as (y & n & Hn & Hxy & Hy).
        apply (Hd y n) in Hy as (y' & n' & Hn' & ? & ?); auto.
        exists y', n'. split; [simpl in *; lia | done].
Qed.

(** A match never leaves the input and is never shorter than [min_len]. *)
Lemma matcher_progresses ic r : progresses (min_len r) (matcher ic r).
Proof.
  induction r as [|a|inv p|r1 IH1 r2 IH2|r1 IH1 r2 IH2|mn mx g r IH|i r IH
                  |neg r IH| |]; intros x c z H; simpl in H.
  - here x.
  - destruct (rest x) as [|b t] eqn:E; [discriminate |].
    destruct (chr_eq ic a b); [| discriminate].
    exists (advance x t), 1. split; [done |]. split; [| done].
    unfold moved. rewrite E. simpl.
    split; [lia |]. split; [lia | by rewrite drop_0].
  - destruct (rest x) as [|b t] eqn:E; [discriminate |].
    destruct (xorb inv (cls_mem ic p b)); [| discriminate].
    exists (advance x t), 1. split; [done |]. split; [| done].
    unfold moved. rewrite E. simpl.
    split; [lia |]. split; [lia | by rewrite drop_0].
  - apply IH1 in H as (y & n & Hn & Hxy & H).
    apply IH2 in H as (y' & n' & Hn' & Hyy' & H).
    exists y', (n + n'). split; [simpl; lia |].
    split; [by eapply moved_trans | done].
  - apply orElse_Some in H as [H|H]; [apply IH1 in H | apply IH2 in H];
      destruct H as (y & n & Hn & Hxy & H); exists y, n;
      (split; [simpl; lia | done]).
  - eapply repeatMatcher_progresses in H; [| exact IH]. done.
  - apply IH in H as (y & n & Hn & Hxy & H).
    exists (capture i x y), n. split; [done |]. split; [| done].
    destruct Hxy as (? & ? & ?). split; [done |]. split; done.
  - destruct (matcher ic r x Some) as [y|]; destruct neg; try discriminate.
    + exists (mkState (endIndex x) (rest x) (captures y)), 0.
      split; [simpl; lia |]. split; [| done].
      split; simpl; [lia |]. split; [lia | by rewrite drop_0].
    + here x.
  - destruct (endIndex x =? 0); [| discriminate]. here x.
  - destruct (rest x); [| discriminate]. here x.
Qed.

Lemma matchAt_moved ic r pos s y :
  matchAt ic r pos s = Some y →
  ∃ n, min_len r ≤ n ∧ n ≤ length s ∧ endIndex y = pos + n ∧ rest y = drop n s.
Proof.
  intros H. apply matcher_progresses in H as (y' & n & Hn & (? & ? & ?) & Hy).
  inversion Hy; subst y'. exists n. done.
Qed.

(** *** The fuel of the quantifiers *)

Lemma repeatMatcher_localised m greedy :
  localised m →
  ∀ fuel min max x c1 c2,
    (∀ y n, moved n x y → c1 y = c2 y) →
    repeatMatcher m greedy c1 fuel min max x
    = repeatMatcher m greedy c2 fuel min max x.
Proof.
  intros Hm fuel. induction fuel as [|fuel IH]; intros min max x c1 c2 Hc.
  - simpl. rewrite (Hc x 0 (moved_refl x)). done.
  - simpl. rewrite (Hc x 0 (moved_refl x)).
    assert (Hd : m x (fun y => if (min =? 0) && (endIndex y =? endIndex x)
                               then None
                               else repeatMatcher m greedy c1 fuel (pred min)
                                                  (pred <$> max) y)
               = m x (fun y => if (min =? 0) && (endIndex y =? endIndex x)
                               then None
                               else repeatMatcher m greedy c2 fuel (pred min)
                                                  (pred <$> max) y)).
    { apply Hm. intros y n Hxy.
      destruct ((min =? 0) && (endIndex y =? endIndex x)); [done |].
      apply IH. intros y' n' Hyy'. apply (Hc y' (n + n')).
      by eapply moved_trans. }
    rewrite Hd. done.
Qed.

Lemma matcher_localised ic r : localised (matcher ic r).
Proof.
  induction r as [|a|inv p|r1 IH1 r2 IH2|r1 IH1 r2 IH2|mn mx g r IH|i r IH
                  |neg r IH| |]; intros x c1 c2 Hc; simpl.
  - apply (Hc x 0 (moved_refl x)).
  - destruct (rest x) as [|b t] eqn:E; [done |].
    destruct (chr_eq ic a b); [| done]. apply (Hc _ 1).
    unfold moved. rewrite E. simpl. split; [lia |]. split; [lia | by rewrite drop_0].
  - destruct (rest x) as [|b t] eqn:E; [done |].
    destruct (xorb inv (cls_mem ic p b)); [| done]. apply (Hc _ 1).
    unfold moved. rewrite E. simpl. split; [lia |]. split; [lia | by rewrite drop_0].
  - apply IH1. intros y n Hxy. apply IH2. intros y' n' Hyy'.
    apply (Hc y' (n + n')). by eapply moved_trans.
  - rewrite (IH1 x c1 c2 Hc), (IH2 x c1 c2 Hc). done.
  - by apply repeatMatcher_localised.
  - apply IH. intros y n (? & ? & ?). apply (Hc _ n). split; [done |]. split; done.
  - destruct (matcher ic r x Some) as [y|]; destruct neg; try done.
    + apply (Hc _ 0). split; simpl; [lia |]. split; [lia | by rewrite drop_0].
    + apply (Hc x 0 (moved_refl x)).
  - destruct (endIndex x =? 0); [| done]. apply (Hc x 0 (moved_refl x)).
  - destruct (rest x); [| done]. apply (Hc x 0 (moved_refl x)).
Qed.

(** A matcher whose continuation fails wherever it can be entered
    fails. *)
Lemma matcher_stuck m x (d : Continuation) :
  localised m → progresses 0 m →
  (∀ y n, moved n x y → d y = None) → m x d = None.
Proof.
  intros Hl Hp Hd. rewrite (Hl x d (fun _ => None)) by exact Hd.
  destruct (m x (fun _ => None)) as [z|] eqn:E; [| done].
  apply Hp in E as (y & n & _ & _ & E). discriminate.
Qed.

Lemma repeatMatcher_S m greedy c fuel min max x :
  repeatMatcher m greedy c (S fuel) min max x
  = match max with
    | Some 0 => c x
    | _ =>
        let d := fun y : MatchState =>
          if (min =? 0) && (endIndex y =? endIndex x) then None
          else repeatMatcher m greedy c fuel (pred min) (pred <$> max) y in
        if negb (min =? 0) then m x d
        else if greedy then orElse (m x d) (c x)
        else orElse (c x) (m x d)
    end.
Proof. reflexivity. Qed.

(** With [min + length (rest x)] iterations allowed, one more changes
    nothing: the loop of a quantifier never stops for want of fuel. *)
Lemma repeatMatcher_enough m greedy c :
  localised m → progresses 0 m →
  ∀ fuel min max x,
    min + length (rest x) ≤ fuel →
    repeatMatcher m greedy c (S fuel) min max x
    = repeatMatcher m greedy c fuel min max x.
Proof.
  intros Hl Hp fuel. induction fuel as [|fuel IH]; intros min max x Hf.
  - assert (min = 0) as -> by lia.
    assert (length (rest x) = 0) as Hx by lia.
    rewrite repeatMatcher_S. cbn -[Nat.eqb].
    assert (Hn : ∀ d' : Continuation,
               m x (fun y => if endIndex y =? endIndex x then None else d' y)
               = None).
    { intros d'. apply matcher_stuck; [done | done |].
      intros y n (Hn & Hi & _). assert (n = 0) as -> by lia.
      rewrite Hi, Nat.add_0_r, Nat.eqb_refl. done. }
    destruct max as [[|mx]|]; [done | |]; rewrite Hn;
      destruct greedy; simpl; by rewrite ?orElse_None_r.
  - rewrite (repeatMatcher_S m greedy c (S fuel)),
            (repeatMatcher_S m greedy c fuel).
    assert (Hd : m x (fun y => if (min =? 0) && (endIndex y =? endIndex x)
                               then None
                               else repeatMatcher m greedy c (S fuel) (pred min)
                                                  (pred <$> max) y)
               = m x (fun y => if (min =? 0) && (endIndex y =? endIndex x)
                               then None
                               else repeatMatcher m greedy c fuel (pred min)
                                                  (pred <$> max) y)).
    { apply Hl. intros y n (Hn & Hi & Hr).
      destruct ((min =? 0) && (endIndex y =? endIndex x)) eqn:E; [done |].
      apply IH. rewrite Hr, length_drop.
      apply andb_false_iff in E as [E|E].
      - apply Nat.eqb_neq in E. lia.
      - apply Nat.eqb_neq in E. lia. }
    cbv zeta. rewrite Hd. done.
Qed.

(** The fuel that [matcher] gives to a quantifier is enough: any more
    gives the same result. *)
Theorem matcher_fuel_enough ic r greedy c min max x k :
  repeatMatcher (matcher ic r) greedy c (min + length (rest x) + k) min max x
  = matcher ic (Rep min max greedy r) x c.
Proof.
  simpl. induction k as [|k IH]; [by rewrite Nat.add_0_r |].
  rewrite Nat.add_succ_r, repeatMatcher_enough; [exact IH | | | lia].
  - apply matcher_localised.
  - intros x' c' z H. apply matcher_progresses in H as (y & n & _ & ? & ?).
    exists y, n. split; [lia | done].
Qed.

(** A lazy [[\s\S]*?] with enough fuel is [scanLazy]. *)
Lemma star_lazy_any ic c s : ∀ fuel idx caps,
  length s ≤ fuel →
  repeatMatcher (matcher ic cls_any) false c fuel 0 None (mkState idx s caps)
  = scanLazy c idx s caps.
Proof.
  induction s as [|b t IH]; intros fuel idx caps Hf.
  - destruct fuel; simpl; by destruct (c _).
  - destruct fuel as [|fuel]; [simpl in Hf; lia |].
    cbn -[Nat.eqb]. unfold cls_mem. rewrite is_any_true. cbn -[Nat.eqb].
    rewrite succ_neqb. unfold advance. cbn -[Nat.eqb].
    rewrite IH by (simpl in Hf; lia). done.
Qed.

(** ** Searching, and the patterns with the [g] flag *)

Lemma execFrom_Some ic r s : ∀ pos,
  is_Some (execFrom ic r pos s)
  ↔ ∃ pre suf, s = pre ++ suf ∧ is_Some (matchAt ic r (pos + length pre) suf).
Proof.
  induction s as [|b t IH]; intros pos; simpl.
  - destruct (matchAt ic r pos []) as [y|] eqn:E.
    + split; [intros _ | eauto]. exists [], []. simpl.
      rewrite Nat.add_0_r, E. eauto.
    + split; [intros [? ?]; done |]. intros (pre & suf & Hs & Hm).
      symmetry in Hs. apply app_eq_nil in Hs as [-> ->]. simpl in Hm.
      rewrite Nat.add_0_r, E in Hm. done.
  - destruct (matchAt ic r pos (b :: t)) as [y|] eqn:E.
    + split; [intros _ | eauto]. exists [], (b :: t). simpl.
      rewrite Nat.add_0_r, E. eauto.
    + rewrite IH. split.
      * intros (pre & suf & -> & Hm). exists (b :: pre), suf. simpl.
        split; [done |]. rewrite Nat.add_succ_r. exact Hm.
      * intros (pre & suf & Hs & Hm). destruct pre as [|b' pre]; simpl in *.
        -- subst suf. rewrite Nat.add_0_r, E in Hm. by destruct Hm.
        -- inversion Hs; subst. exists pre, suf. split; [done |].
           rewrite Nat.add_succ_r in Hm. exact Hm.
Qed.

(** A test succeeds exactly when the pattern matches at some index. *)
Lemma test_true ic r s :
  test ic r s = true
  ↔ ∃ pre suf, s = pre ++ suf ∧ is_Some (matchAt ic r (length pre) suf).
Proof.
  unfold test, exec. rewrite <- (execFrom_Some ic r s 0).
  destruct (execFrom ic r 0 s); split; try done; eauto; intros [? ?]; done.
Qed.

Lemma execFrom_anchored ic r s : ∀ pos,
  0 < pos → execFrom ic (Seq Bol r) pos s = None.
Proof.
  induction s as [|b t IH]; intros pos Hp; simpl;
    unfold matchAt; cbn [matcher endIndex];
    replace (pos =? 0) with false by (symmetry; apply Nat.eqb_neq; lia);
    [done | apply IH; lia].
Qed.

(** A pattern that begins with [^] matches at index 0 or not at all. *)
Lemma exec_anchored ic r s :
  exec ic (Seq Bol r) s
  = match matchAt ic (Seq Bol r) 0 s with
    | Some y => Some (mkResult 0 (take (endIndex y - 0) s) (captures y))
    | None => None
    end.
Proof.
  unfold exec. destruct s as [|b t]; simpl.
  - by destruct (matchAt _ _ _ _).
  - destruct (matchAt _ _ _ _); [done |]. apply execFrom_anchored. lia.
Qed.

Lemma startsWith_true p : ∀ s, startsWith p s = true ↔ ∃ suf, s = p ++ suf.
Proof.
  induction p as [|a p IH]; intros s; simpl.
  - split; eauto.
  - destruct s as [|b s].
    + split; [done | intros [? ?]; done].
    + rewrite andb_true_iff, IH, N.eqb_eq. split.
      * intros [-> [suf ->]]. eauto.
      * intros [suf H]. inversion H; subst. eauto.
Qed.

Lemma endsWith_true p s : endsWith p s = true ↔ endsWithText p s.
Proof.
  unfold endsWith, endsWithText. rewrite startsWith_true. split.
  - intros [suf H]. exists (rev suf).
    apply (f_equal (@rev N)) in H. rewrite rev_involutive in H.
    rewrite H, rev_app_distr, rev_involutive. done.
  - intros [pre ->]. exists (rev pre). by rewrite rev_app_distr.
Qed.

Lemma one_of_true l c : one_of l c = true ↔ c ∈ l.
Proof.
  unfold one_of. rewrite existsb_exists. split.
  - intros (x & Hin & Hx). apply N.eqb_eq in Hx. subst.
    by apply list_elem_of_In.
  - intros H. exists c. split; [by apply list_elem_of_In | apply N.eqb_refl].
Qed.

(** Deleting every match never lengthens the text. *)
Lemma replaceAllFrom_length ic r s :
  ∀ pos skip, length (replaceAllFrom ic r [] pos skip s) ≤ length s.
Proof.
  induction s as [|b t IH]; intros pos skip.
  - destruct skip; simpl; [| lia]. destruct (matchAt ic r pos []); simpl; lia.
  - destruct skip as [|k]; simpl.
    + destruct (matchAt ic r pos (b :: t)) as [y|]; simpl.
      * destruct (endIndex y - pos =? 0); simpl;
          specialize (IH (S pos) (pred (endIndex y - pos))); lia.
      * specialize (IH (S pos) 0); lia.
    + specialize (IH (S pos) k); lia.
Qed.

(** Where nothing matches, replacing changes nothing. *)
Lemma replaceAllFrom_none ic r repl s :
  ∀ pos, matchAllFrom ic r pos 0 s = [] → replaceAllFrom ic r repl pos 0 s = s.
Proof.
  induction s as [|b t IH]; intros pos H; simpl in *.
  - destruct (matchAt ic r pos []); [discriminate | done].
  - destruct (matchAt ic r pos (b :: t)); [discriminate |].
    by rewrite IH.
Qed.

(** Deleting the matches of a pattern without empty matches shortens the
    text as soon as there is a match. *)
Lemma replaceAllFrom_shorter ic r s :
  0 < min_len r →
  ∀ pos, matchAllFrom ic r pos 0 s ≠ [] →
         length (replaceAllFrom ic r [] pos 0 s) < length s.
Proof.
  intros Hr. induction s as [|b t IH]; intros pos H; simpl in *.
  - destruct (matchAt ic r pos []) as [y|] eqn:E; [| done].
    apply matchAt_moved in E as (n & ? & ? & _). simpl in *. lia.
  - destruct (matchAt ic r pos (b :: t)) as [y|] eqn:E.
    + apply matchAt_moved in E as (n & ? & ? & -> & _).
      replace (pos + n - pos) with n by lia.
      destruct n as [|n]; [lia |]. simpl.
      pose proof (replaceAllFrom_length ic r t (S pos) n). lia.
    + specialize (IH (S pos) H). simpl. lia.
Qed.

Lemma matchAll_None ic r s :
  matchAll ic r s = None ↔ matchAllFrom ic r 0 0 s = [].
Proof. unfold matchAll. destruct (matchAllFrom ic r 0 0 s); split; done. Qed.

(** ** The matcher on small inputs

    The results are those of the same calls in JavaScript. *)

(** ['baac'.replace(/a*/g, '-')] is ['-b--c-']. *)
Example replace_empty_matches :
  replaceAll false (star (Chr 97%N)) (u "-") (u "baac") = u "-b--c-".
Proof. reflexivity. Qed.

(** ['baac'.match(/a*/g)] is [['', 'aa', '', '']]. *)
Example match_empty_matches :
  matchAll false (star (Chr 97%N)) (u "baac") = Some [[]; u "aa"; []; []].
Proof. reflexivity. Qed.

(** ['xxabyycdzzcd'.match(/ab([\s\S]*?)cd/)] captures ['yy'], and with a
    greedy star ['yycdzz']. *)
Example lazy_and_greedy :
  (groups <$> exec false (seq [lit (u "ab"); Grp 1 (star_lazy cls_any);
                               lit (u "cd")]) (u "xxabyycdzzcd"))
  = Some [(1, u "yy")]
  ∧ (groups <$> exec false (seq [lit (u "ab"); Grp 1 (star cls_any);
                                 lit (u "cd")]) (u "xxabyycdzzcd"))
    = Some [(1, u "yycdzz")].
Proof. split; reflexivity. Qed.

(** The pattern of the images without [alt], with its [i] flag, skips an
    image that has an [ALT] and finds the one that has none. *)
Example image_without_alt :
  matchAll true Audit.re_img_no_alt (u "<p><IMG src=x ALT=y><img src=z>")
  = Some [u "<img src=z>"].
Proof. reflexivity. Qed.

(** [' a b '.trim()] and ['a,b,,c'.split(',')]. *)
Example trim_and_split :
  trim (u "  a b ") = u "a b"
  ∧ split 44%N (u "a,b,,c") = [u "a"; u "b"; []; u "c"]
  ∧ split 44%N [] = [[]].
Proof. repeat split; reflexivity. Qed.

(** ** The statistics *)

Lemma total_insert_fresh (m : gmap jsstring nat) k v :
  m !! k = None → total (<[k := v]> m) = v + total m.
Proof.
  intros H. unfold total. rewrite map_fold_insert_L; [done | | done].
  intros. lia.
Qed.

Lemma total_addCount (m : gmap jsstring nat) k n :
  total (addCount k n m) = total m + n.
Proof.
  unfold addCount. destruct (m !! k) as [v|] eqn:E; simpl.
  - rewrite <- insert_delete_eq.
    rewrite total_insert_fresh by apply lookup_delete_eq.
    unfold total at 2.
    rewrite (map_fold_delete_L _ _ k v m);
      [fold (total (delete k m)); lia | | done].
    intros. lia.
  - rewrite total_insert_fresh by done. lia.
Qed.

(** Unfolding of the statements of the scripts. *)
Ltac run := unfold mbind, js_bind, bind, modify, mret, js_ret, ret, get; simpl.

(** ** The cleanup scripts *)

Module CleanupFacts.
Import Cleanup.

Lemma count_zero ic r s : count (matchAll ic r s) = 0 ↔ matchAll ic r s = None.
Proof.
  unfold matchAll. destruct (matchAllFrom ic r 0 0 s); simpl; split; done.
Qed.

(** One rule either matches nowhere and changes nothing, or removes [k]
    matches and does not lengthen the text. *)
Lemma applyRule_cases text n bt rule :
  (unmatched text rule ∧ applyRule (text, n, bt) rule = (text, n, bt))
  ∨ (∃ text' k, ¬ unmatched text rule ∧ 0 < k
       ∧ applyRule (text, n, bt) rule
         = (text', n + k, addCount (name rule) k bt)
       ∧ length text' ≤ length text
       ∧ (consuming rule → length text' < length text)).
Proof.
  unfold applyRule.
  destruct (count (matchAll false (pattern rule) text)) as [|k] eqn:E.
  - left. split; [by apply count_zero | done].
  - right. eexists _, (S k). simpl.
    split; [intros Hu; apply count_zero in Hu; congruence |].
    split; [lia |]. split; [done |].
    split; [apply replaceAllFrom_length |].
    intros Hc. apply replaceAllFrom_shorter; [done |].
    intros Hn. apply matchAll_None in Hn. rewrite Hn in E. done.
Qed.

Lemma cleanup_from rules : ∀ text n bt,
  ∃ text' k bt', foldl applyRule (text, n, bt) rules = (text', n + k, bt')
    ∧ length text' ≤ length text
    ∧ (Forall (unmatched text) rules → text' = text ∧ k = 0 ∧ bt' = bt)
    ∧ (k = 0 → Forall (unmatched text) rules)
    ∧ (Forall consuming rules → text' = text → k = 0).
Proof.
  induction rules as [|rule rules IH]; intros text n bt;
    [| change (foldl applyRule (text, n, bt) (rule :: rules))
         with (foldl applyRule (applyRule (text, n, bt) rule) rules)].
  - simpl. exists text, 0, bt. rewrite Nat.add_0_r. repeat split; auto.
  - destruct (applyRule_cases text n bt rule)
      as [[Hu ->] | (t1 & k1 & Hnu & Hk1 & -> & Hlen & Hsh)].
    + destruct (IH text n bt) as (t' & k & bt' & -> & Hl & Hall & Hz & Hc).
      exists t', k, bt'. split; [done |]. split; [done |].
      split; [intros HF; inversion HF; auto |].
      split; [intros; constructor; auto |].
      intros HF; inversion HF; auto.
    + destruct (IH t1 (n + k1) (addCount (name rule) k1 bt))
        as (t' & k & bt' & -> & Hl & Hall & Hz & Hc).
      exists t', (k1 + k), bt'. split; [f_equal; f_equal; lia |].
      split; [lia |].
      split; [intros HF; inversion HF as [|? ? Hu _]; subst; done |].
      split; [lia |].
      intros HF Ht. inversion HF as [|? ? Hcr _]; subst.
      specialize (Hsh Hcr). lia.
Qed.

Lemma applyRule_text_count text n bt n' bt' rule :
  (applyRule (text, n, bt) rule).1.1 = (applyRule (text, n', bt') rule).1.1
  ∧ (applyRule (text, n, bt) rule).1.2 + n'
    = (applyRule (text, n', bt') rule).1.2 + n.
Proof.
  unfold applyRule.
  destruct (0 <? count (matchAll false (pattern rule) text)); simpl;
    (split; [done | lia]).
Qed.

(** The text and the number of removals do not depend on the statistics
    the loop starts from. *)
Lemma foldl_applyRule_indep rules : ∀ text n bt n' bt',
  (foldl applyRule (text, n, bt) rules).1.1
  = (foldl applyRule (text, n', bt') rules).1.1
  ∧ (foldl applyRule (text, n, bt) rules).1.2 + n'
    = (foldl applyRule (text, n', bt') rules).1.2 + n.
Proof.
  induction rules as [|rule rules IH]; intros text n bt n' bt'.
  - simpl. split; [done | lia].
  - change (foldl applyRule ?a (rule :: rules))
      with (foldl applyRule (applyRule a rule) rules).
    destruct (applyRule_text_count text n bt n' bt' rule) as [H1 H2].
    destruct (applyRule (text, n, bt) rule) as [[t1 k1] b1].
    destruct (applyRule (text, n', bt') rule) as [[t2 k2] b2].
    simpl in *. subst t2.
    destruct (IH t1 k1 b1 k2 b2) as [H3 H4]. split; [done | lia].
Qed.

Lemma cleanup_fields rules content bt :
  (cleanup rules content bt).1
  = (modified rules content, totalRemovals rules content).
Proof.
  unfold modified, totalRemovals, cleanup.
  destruct (foldl_applyRule_indep rules content 0 bt 0 ∅) as [H1 H2].
  destruct (foldl applyRule (content, 0, bt) rules) as [[a b] c].
  destruct (foldl applyRule (content, 0, ∅) rules) as [[a' b'] c'].
  simpl in *. subst a'. f_equal. lia.
Qed.

(** What [cleanupContent] returns and what it leaves behind: it never
    throws. *)
Lemma cleanupContent_eq rules content w :
  cleanupContent rules content w
  = (Normal (modified rules content, totalRemovals rules content),
     withStats
       (setRemovals (cleanup rules content (removalsByType (stats w))).2) w).
Proof.
  unfold cleanupContent.
  pose proof (cleanup_fields rules content (removalsByType (stats w))) as H.
  unfold mbind, js_bind, bind, get. simpl.
  destruct (cleanup rules content (removalsByType (stats w))) as [[t n] b].
  simpl in *. inversion H; subst. done.
Qed.

Lemma cleanup_spec rules content :
  length (modified rules content) ≤ length content
  ∧ (Forall (unmatched content) rules ↔ totalRemovals rules content = 0)
  ∧ (totalRemovals rules content = 0 → modified rules content = content)
  ∧ (Forall consuming rules → modified rules content = content →
     totalRemovals rules content = 0).
Proof.
  unfold modified, totalRemovals, cleanup.
  destruct (cleanup_from rules content 0 ∅)
    as (t & k & b & -> & Hl & Hall & Hz & Hc). simpl.
  split; [done |]. split; [split; [apply Hall | apply Hz] |].
  split; [intros H; apply Hall, Hz, H | done].
Qed.

Lemma cleanup_unmatched_stats rules content bt :
  Forall (unmatched content) rules → (cleanup rules content bt).2 = bt.
Proof.
  intros H. unfold cleanup.
  destruct (cleanup_from rules content 0 bt) as (t & k & b & -> & _ & Hall & _).
  simpl. by apply Hall.
Qed.

Lemma world_eta w : withStats (setRemovals (removalsByType (stats w))) w = w.
Proof. destruct w as [[? ? ?] ? ?]. done. Qed.




(** C10: for every table of rules, so for the table of either script, and
    every document, [cleanupContent] returns a text that is not longer
    than the document; when no pattern of the table matches the document,
    it returns the document itself with a count of zero, and the
    statistics are as before. *)
Theorem cleanup_only_deletes rules content w :
  ∃ text n w',
    cleanupContent rules content w = (Normal (text, n), w')
    ∧ length text ≤ length content
    ∧ (Forall (unmatched content) rules → text = content ∧ n = 0 ∧ w' = w).
Proof.
  rewrite cleanupContent_eq. eexists _, _, _. split; [done |].
  destruct (cleanup_spec rules content) as (Hl & Hu & Hz & _).
  split; [done |]. intros H.
  split; [apply Hz, Hu, H |]. split; [apply Hu, H |].
  rewrite cleanup_unmatched_stats by done. apply world_eta.
Qed.

Lemma cleanup_only_deletes_witness :
  ∃ text n w',
    Part001.cleanupContent plain (w0 (mkFs ∅ ∅)) = (Normal (text, n), w')
    ∧ length text ≤ length plain
    ∧ text = plain ∧ n = 0 ∧ w' = w0 (mkFs ∅ ∅).
Proof.
  destruct (cleanup_only_deletes Part001.REMOVAL_PATTERNS plain (w0 (mkFs ∅ ∅)))
    as (text & n & w' & H1 & H2 & H3).
  exists text, n, w'. split; [exact H1 |]. split; [exact H2 |].
  apply H3. repeat constructor; vm_compute; reflexivity.
Defined.

(** Example of C10 on a page with a comments block: one removal, and a
    shorter text. *)
Example cleanup_commented :
  (Part001.cleanupContent commented (w0 (mkFs ∅ ∅))).1
  = Normal (u "<p>text</p><p>more</p>", 1).
Proof. vm_compute. reflexivity. Qed.



(** C3: for every table of rules, path and state, a dry run and a real run
    of [processFile] leave the same statistics (files scanned, files
    modified, removals by rule) and print the same line with the same
    total; the dry run leaves the files as they were; the real run writes
    the cleaned text to the path when there was a removal and the path can
    be written, and changes nothing else. *)
Theorem dry_run_same_counts rules path w :
  let dry := (processFile rules path true w).2 in
  let real := (processFile rules path false w).2 in
  stats dry = stats real
  ∧ console dry = console real
  ∧ disk dry = disk w
  ∧ disk real = written rules path (disk w).
Proof.
  unfold processFile, written, readFile, writeFile, writeFileSync. run.
  destruct (readFileSync (disk w) path) as [content|e]; simpl; [| done].
  rewrite cleanupContent_eq. simpl.
  destruct (0 <? totalRemovals rules content); simpl; [| done].
  destruct (bool_decide (path ∈ readonly (disk w))); simpl; done.
Qed.

(** Example of C3: on a page with a comments block both runs count one
    removal; only the real run changes the file. *)
Example dry_run_commented :
  let dry := (Part001.processFile "post/index.html" true (w0 commentedSite)).2 in
  let real := (Part001.processFile "post/index.html" false (w0 commentedSite)).2 in
  console dry = [Removed "post/index.html" 1]
  ∧ console real = [Removed "post/index.html" 1]
  ∧ removalsByType (stats dry) = {[ u "Comments Section" := 1 ]}
  ∧ removalsByType (stats real) = {[ u "Comments Section" := 1 ]}
  ∧ files (disk dry) !! "post/index.html"%string = Some commented
  ∧ files (disk real) !! "post/index.html"%string
    = Some (u "<p>text</p><p>more</p>").
Proof. vm_compute. repeat split; reflexivity. Qed.

Lemma processFile_scanned rules f dryRun w :
  filesScanned (stats (processFile rules f dryRun w).2)
  = S (filesScanned (stats w)).
Proof.
  unfold processFile, readFile, writeFile, writeFileSync. run.
  destruct (readFileSync (disk w) f) as [content|e]; simpl; [| done].
  rewrite cleanupContent_eq. simpl.
  destruct (0 <? totalRemovals rules content); simpl; [| done].
  destruct dryRun; simpl; [done |].
  destruct (bool_decide (f ∈ readonly (disk w))); simpl; done.
Qed.

(** The loop of the cleanup script goes through the whole list, whatever
    happens on a file. *)
Lemma main_total rules argv files : ∀ w,
  ∃ w', main rules argv files w = (Normal tt, w')
        ∧ filesScanned (stats w') = filesScanned (stats w) + length files.
Proof.
  unfold main.
  generalize (bool_decide (u "--dry-run" ∈ argv)). intros dryRun.
  induction files as [|f files IH]; intros w.
  - exists w. simpl. split; [done | lia].
  - simpl. unfold mbind, js_bind, bind, tryCatch at 1.
    pose proof (processFile_scanned rules f dryRun w) as Hs.
    destruct (processFile rules f dryRun w) as [[[]|e] w1]; simpl in *.
    + destruct (IH w1) as (w' & -> & Hn). exists w'. split; [done | lia].
    + destruct (IH (print (ErrorProcessing f e) w1)) as (w' & -> & Hn).
      exists w'. split; [done |]. simpl in Hn. lia.
Qed.

End CleanupFacts.

(** ** The audit script *)

Module AuditFacts.
Import Audit.

Ltac forall_inv :=
  repeat match goal with
         | H : Forall _ (_ :: _) |- _ => inversion H; clear H; subst
         end.

(** *** The description that looks cut *)

(** Where [/\s\w{1,3}$/] matches. *)
Lemma short_fragment_at pos suf :
  is_Some (matchAt false re_short_fragment pos suf)
  ↔ ∃ c w, suf = c :: w ∧ is_space c = true ∧ 1 ≤ length w ≤ 3
           ∧ Forall (fun a => is_word a = true) w.
Proof.
  unfold matchAt, re_short_fragment, cls_space, cls_word. cbn [seq matcher rest].
  destruct suf as [|c w].
  - split; [intros [? ?]; done | intros (? & ? & ? & _); done].
  - unfold cls_mem. cbn [andb xorb orb]. rewrite orb_false_r.
    destruct (is_space c) eqn:Ec.
    2:{ split; [intros [? ?]; done |]. intros (? & ? & Hs & Hc & _).
        inversion Hs; subst. congruence. }
    destruct w as [|a1 [|a2 [|a3 [|a4 t]]]]; cbn -[Nat.eqb];
      rewrite ?succ_neqb; cbn -[Nat.eqb];
      repeat match goal with
             | |- context [is_word ?a] =>
                 destruct (is_word a) eqn:?; cbn -[Nat.eqb];
                 rewrite ?succ_neqb; cbn -[Nat.eqb]
             end;
      (split;
       [ intros H;
         first [ by destruct H
               | eexists _, _; split; [reflexivity |]; split; [done |];
                 split; [simpl; lia | repeat constructor; done] ]
       | intros (c' & w' & Heq & Hc & Hlen & HF);
         inversion Heq; subst; forall_inv; simpl in *;
         try congruence; try lia; eauto ]).
Qed.

(** Where the pattern of the terminal punctuation matches. *)
Lemma terminal_at pos suf :
  is_Some (matchAt false re_terminal pos suf)
  ↔ ∃ c, suf = [c] ∧ one_of (u ".!?" ++ [DQ]) c = true.
Proof.
  unfold matchAt, re_terminal. cbn [seq matcher rest].
  destruct suf as [|c [|b t]]; unfold cls_mem; cbn [andb xorb orb];
    try rewrite orb_false_r;
    try destruct (one_of (u ".!?" ++ [DQ]) c) eqn:E;
    (split; [intros H; first [by destruct H | eauto]
            | intros (c' & Heq & Hc); inversion Heq; subst;
              try congruence; eauto]).
Qed.

Lemma test_short_fragment t :
  test false re_short_fragment t = true ↔ endsShortFragment t.
Proof.
  rewrite test_true. unfold endsShortFragment. split.
  - intros (pre & suf & -> & H).
    apply short_fragment_at in H as (c & w & -> & ?). eauto.
  - intros (pre & c & w & -> & H). exists pre, (c :: w). split; [done |].
    apply short_fragment_at. eauto.
Qed.

Lemma test_terminal t : test false re_terminal t = true ↔ endsTerminal t.
Proof.
  rewrite test_true. unfold endsTerminal. split.
  - intros (pre & suf & -> & H). apply terminal_at in H as (c & -> & H).
    apply one_of_true in H. eauto.
  - intros (pre & c & -> & H). exists pre, [c]. split; [done |].
    apply terminal_at. exists c. split; [done |]. by apply one_of_true.
Qed.

(** C1, as stated, fails: the description of the example has 40 units,
    which is not more than 50, and the check does not fire on the page that
    carries it. *)
Lemma short_example_does_not_fire :
  description (parseFrontmatter shortPage) = Some shortExample
  ∧ length (trim shortExample) = 40
  ∧ truncatedDescription shortPage (parseFrontmatter shortPage) = false.
Proof. vm_compute. repeat split; reflexivity. Qed.

(** C1, amended: for every document whose header has a description, the
    check named Truncated Description, a warning, fires exactly when the
    trimmed description is longer than 50 units and ends with three full
    stops, or ends with white space and a word of at most three units, or
    does not end with a full stop, an exclamation mark, a question mark or
    a double quote. It fires on neither description of the example, both
    being at most 50 units long; it fires on the longer [longExample] and
    not on [longFinishedExample]. *)
Theorem truncated_description_fires content fm d :
  description fm = Some d →
  (truncatedDescription content fm = true
   ↔ 50 < length (trim d)
     ∧ (endsWithText (u "...") (trim d)
        ∨ endsShortFragment (trim d)
        ∨ ¬ endsTerminal (trim d)))
  ∧ (∃ ck, SEO_CHECKS !! 4 = Some ck ∧ name ck = u "Truncated Description"
           ∧ severity ck = Warning ∧ check ck = truncatedDescription)
  ∧ truncatedDescription content (describedBy shortExample) = false
  ∧ truncatedDescription content (describedBy finishedExample) = false
  ∧ truncatedDescription content (describedBy longExample) = true
  ∧ truncatedDescription content (describedBy longFinishedExample) = false.
Proof.
  intros Hd. split.
  - unfold truncatedDescription. rewrite Hd. destruct d as [|c s].
    + split; [done |]. simpl. lia.
    + rewrite andb_true_iff, !orb_true_iff, negb_true_iff, Nat.ltb_lt.
      rewrite endsWith_true, test_short_fragment.
      rewrite <- test_terminal, not_true_iff_false. tauto.
  - split.
    + eexists. split; [reflexivity |]. repeat split.
    + repeat split; vm_compute; reflexivity.
Qed.

Lemma truncated_description_fires_witness :
  description (describedBy longExample) = Some longExample
  ∧ (truncatedDescription [] (describedBy longExample) = true
     ↔ 50 < length (trim longExample)
       ∧ (endsWithText (u "...") (trim longExample)
          ∨ endsShortFragment (trim longExample)
          ∨ ¬ endsTerminal (trim longExample))).
Proof.
  split; [reflexivity |].
  apply (truncated_description_fires [] (describedBy longExample) longExample).
  reflexivity.
Defined.

(** *** The header *)

Lemma frontmatter_at0 s :
  matchAt false re_frontmatter 0 s
  = match s with
    | 45%N :: 45%N :: 45%N :: 10%N :: tl => scanLazy (closing tl) 4 tl []
    | _ => None
    end.
Proof.
  unfold matchAt, re_frontmatter.
  change (u "---") with [45%N; 45%N; 45%N]. unfold LF.
  remember (Grp 1 (star_lazy cls_any)) as body eqn:Hbody.
  cbn [seq lit matcher endIndex rest Nat.eqb].
  destruct s as [|a s]; [done |]. rewrite chr_eq_false.
  destruct (N.eqb_spec 45 a) as [<-|Ha].
  2:{ destruct a as [|p]; [done |]. do 6 (destruct p as [p|p|]; try done). }
  cbn [advance rest].
  destruct s as [|b s]; [done |]. rewrite chr_eq_false.
  destruct (N.eqb_spec 45 b) as [<-|Hb].
  2:{ destruct b as [|p]; [done |]. do 6 (destruct p as [p|p|]; try done). }
  cbn [advance rest].
  destruct s as [|c s]; [done |]. rewrite chr_eq_false.
  destruct (N.eqb_spec 45 c) as [<-|Hc].
  2:{ destruct c as [|p]; [done |]. do 6 (destruct p as [p|p|]; try done). }
  cbn [advance rest].
  destruct s as [|d tl]; [done |]. rewrite chr_eq_false.
  destruct (N.eqb_spec 10 d) as [<-|Hd].
  2:{ destruct d as [|p]; [done |]. do 4 (destruct p as [p|p|]; try done). }
  cbn [advance rest endIndex captures]. subst body.
  change (repeatMatcher (matcher false cls_any) false (closing tl)
            (0 + length tl) 0 None (mkState 4 tl [])
          = scanLazy (closing tl) 4 tl []).
  apply star_lazy_any. simpl. lia.
Qed.

Lemma closing_spec tl0 idx s caps :
  closing tl0 (mkState idx s caps)
  = if startsWith marker s
    then Some (mkState (idx + 4) (drop 4 s) ((1, take (idx - 4) tl0) :: caps))
    else None.
Proof.
  unfold closing, marker. change (u "---") with [45%N; 45%N; 45%N]. unfold LF.
  cbn [lit matcher capture rest endIndex captures startsWith].
  destruct s as [|a s]; [done |]. rewrite chr_eq_false.
  destruct (10 =? a)%N; [| done]. cbn [advance rest andb].
  destruct s as [|b s]; [done |]. rewrite chr_eq_false.
  destruct (45 =? b)%N; [| done]. cbn [advance rest andb].
  destruct s as [|c s]; [done |]. rewrite chr_eq_false.
  destruct (45 =? c)%N; [| done]. cbn [advance rest andb].
  destruct s as [|d s]; [done |]. rewrite chr_eq_false.
  destruct (45 =? d)%N; [| done]. cbn [advance rest andb endIndex captures].
  replace (idx + 4) with (S (S (S (S idx)))) by lia. done.
Qed.

Lemma scanLazy_closing tl0 s : ∀ idx caps,
  scanLazy (closing tl0) idx s caps
  = (fun body => mkState (idx + length body + 4) (drop (length body + 4) s)
                         ((1, take (idx + length body - 4) tl0) :: caps))
      <$> upToMarker s.
Proof.
  induction s as [|b t IH]; intros idx caps.
  - cbn [scanLazy upToMarker]. rewrite closing_spec. done.
  - cbn [scanLazy upToMarker]. rewrite closing_spec.
    destruct (startsWith marker (b :: t)).
    + cbn [fmap option_fmap option_map length orElse].
      repeat (first [lia | f_equal]).
    + cbn [orElse]. rewrite IH. destruct (upToMarker t) as [body|]; [| done].
      cbn [fmap option_fmap option_map length drop].
      repeat (first [lia | f_equal]).
Qed.

(** [upToMarker] finds the first occurrence of the marker. *)
Lemma upToMarker_Some s : ∀ body,
  upToMarker s = Some body
  ↔ (∃ rest, s = body ++ marker ++ rest)
    ∧ ∀ j, j < length body → startsWith marker (drop j s) = false.
Proof.
  induction s as [|b t IH]; intros body.
  - cbn. split; [done |]. intros [[rest H] _]. destruct body; done.
  - cbn [upToMarker]. destruct (startsWith marker (b :: t)) eqn:E.
    + split.
      * intros H. inversion H; subst. split; [| simpl; lia].
        apply startsWith_true in E as [suf ->]. eauto.
      * intros [_ H]. destruct body as [|b' body]; [done |].
        specialize (H 0). rewrite drop_0 in H.
        rewrite H in E by (simpl; lia). done.
    + destruct (upToMarker t) as [body'|]; simpl.
      * split.
        -- intros H. inversion H; subst.
           destruct (proj1 (IH body') eq_refl) as [[rest ->] Hj].
           split; [eauto |].
           intros [|j] Hlt; [by rewrite drop_0 |]. simpl in Hlt.
           apply Hj. lia.
        -- intros [[rest H] Hj]. destruct body as [|b'' body].
           { assert (startsWith marker (b :: t) = true)
               by (apply startsWith_true; exists rest; exact H). congruence. }
           inversion H; subst.
           assert (Some body' = Some body) as Hb.
           { apply IH. split; [eauto |]. intros j Hlt.
             apply (Hj (S j)). simpl. lia. }
           congruence.
      * split; [done |]. intros [[rest H] Hj]. destruct body as [|b'' body].
        { assert (startsWith marker (b :: t) = true)
            by (apply startsWith_true; exists rest; exact H). congruence. }
        inversion H; subst.
        assert (None = Some body) as Hb; [| done].
        apply IH. split; [eauto |]. intros j Hlt.
        apply (Hj (S j)). simpl. lia.
Qed.

(** The header, without the matcher: the normalised text must begin with
    the marker and a line feed, and the header is what follows up to the
    first line feed followed by the marker. *)
Lemma headerBlock_spec content :
  headerBlock content
  = match normalizedContent content with
    | 45%N :: 45%N :: 45%N :: 10%N :: tl => upToMarker tl
    | _ => None
    end.
Proof.
  unfold headerBlock. generalize (normalizedContent content). intros s.
  unfold re_frontmatter. cbn [seq]. rewrite exec_anchored.
  change (matchAt false (Seq Bol _) 0 s) with (matchAt false re_frontmatter 0 s).
  rewrite frontmatter_at0.
  destruct s as [|a s]; [done |]. destruct a as [|p]; [done |].
  do 6 (destruct p as [p|p|]; try done).
  destruct s as [|a s]; [done |]. destruct a as [|p]; [done |].
  do 6 (destruct p as [p|p|]; try done).
  destruct s as [|a s]; [done |]. destruct a as [|p]; [done |].
  do 6 (destruct p as [p|p|]; try done).
  destruct s as [|a tl]; [done |]. destruct a as [|p]; [done |].
  do 4 (destruct p as [p|p|]; try done).
  rewrite scanLazy_closing.
  destruct (upToMarker tl) as [body|] eqn:E; [| done].
  cbn [fmap option_fmap option_map captures groups group Nat.eqb].
  apply upToMarker_Some in E as [[rest ->] _].
  f_equal. replace (4 + length body - 4) with (length body) by lia.
  by rewrite take_app_length.
Qed.

Lemma headerBlock_Some content body :
  headerBlock content = Some body
  ↔ ∃ tl, normalizedContent content = u "---" ++ [LF] ++ tl
          ∧ upToMarker tl = Some body.
Proof.
  rewrite headerBlock_spec. split.
  - destruct (normalizedContent content) as [|a s]; [done |].
    destruct a as [|p]; [done |]. do 6 (destruct p as [p|p|]; try done).
    destruct s as [|a s]; [done |].
    destruct a as [|p]; [done |]. do 6 (destruct p as [p|p|]; try done).
    destruct s as [|a s]; [done |].
    destruct a as [|p]; [done |]. do 6 (destruct p as [p|p|]; try done).
    destruct s as [|a tl]; [done |].
    destruct a as [|p]; [done |]. do 4 (destruct p as [p|p|]; try done).
    intros H. exists tl. done.
  - intros (tl & -> & H). exact H.
Qed.

(** Normalising the line ends copies a first unit that is not a line
    feed. *)
Lemma normalized_head pos s c out :
  c ≠ LF →
  replaceAllFrom false re_crlf [LF] pos 0 s = c :: out →
  ∃ t, s = c :: t ∧ out = replaceAllFrom false re_crlf [LF] (S pos) 0 t.
Proof.
  intros Hc. destruct s as [|a t]; [done |].
  cbn [replaceAllFrom].
  destruct (matchAt false re_crlf pos (a :: t)) as [y|].
  - cbn [app]. intros H. inversion H. congruence.
  - intros H. inversion H; subst. eauto.
Qed.

Lemma normalized_marker content :
  startsWith (u "---") (normalizedContent content) = true →
  startsWith (u "---") content = true.
Proof.
  rewrite !startsWith_true. intros [suf H].
  unfold normalizedContent, replaceAll in H.
  change (u "---" ++ suf) with (45%N :: 45%N :: 45%N :: suf) in H.
  apply normalized_head in H as (t1 & -> & H); [| done]. symmetry in H.
  apply normalized_head in H as (t2 & -> & H); [| done]. symmetry in H.
  apply normalized_head in H as (t3 & -> & H); [| done].
  exists t3. done.
Qed.

Lemma no_marker_no_header content :
  startsWith (u "---") content = false → headerBlock content = None.
Proof.
  intros H. destruct (headerBlock content) as [body|] eqn:E; [| done].
  apply headerBlock_Some in E as (tl & E & _).
  assert (startsWith (u "---") (normalizedContent content) = true) as Hn
    by (apply startsWith_true; eauto).
  apply normalized_marker in Hn. congruence.
Qed.

(** C5: the header of the example parses to the title [Hello], without
    its quotes, and the description [World]; a bare value between spaces
    loses them; and every document that does not start with the marker
    parses to the empty mapping. *)
Theorem parse_example :
  parseFrontmatter helloWorld
  = {[ u "title" := u "Hello"; u "description" := u "World" ]}
  ∧ parseFrontmatter helloSpaced
    = {[ u "title" := u "Hello"; u "description" := u "World" ]}
  ∧ ∀ content, startsWith (u "---") content = false →
               parseFrontmatter content = ∅.
Proof.
  split; [vm_compute; reflexivity |]. split; [vm_compute; reflexivity |].
  intros content H. unfold parseFrontmatter.
  by rewrite no_marker_no_header.
Qed.

Lemma parse_example_witness :
  startsWith (u "---") (u "<h1>Hello</h1>") = false
  ∧ parseFrontmatter (u "<h1>Hello</h1>") = ∅.
Proof.
  split; [reflexivity |].
  apply (proj2 (proj2 parse_example)). reflexivity.
Defined.



(** *** The loop over the checks *)

Lemma tally_consistent ck st : consistent st → consistent (tally ck st).
Proof.
  unfold consistent, tally. simpl. rewrite total_addCount.
  destruct (severity ck); simpl; lia.
Qed.

(** The loop over the checks keeps the invariant, however it ends. *)
Lemma runChecks_consistent checks minLevel content fm : ∀ found st,
  consistent st → consistent (runChecks checks minLevel content fm found st).2.
Proof.
  induction checks as [|ck checks IH]; intros found st H; simpl; [done |].
  destruct (severityLevels (severity ck) <? minLevel); [by apply IH |].
  destruct (check ck content fm); [| by apply IH].
  unfold mbind, js_bind, bind, lift, modify. simpl.
  destruct (detailsOf ck content fm) as [d|e]; simpl; [| done].
  apply IH. by apply tally_consistent.
Qed.

Lemma auditFile_consistent fs minLevel f st :
  consistent st → consistent (auditFile fs minLevel f st).2.
Proof.
  intros H. unfold auditFile. generalize SEO_CHECKS. intros checks.
  unfold mbind, js_bind, bind, lift, modify.
  destruct (readFileSync fs f) as [content|e]; [| done].
  generalize (parseFrontmatter content). intros fm.
  pose proof (runChecks_consistent checks minLevel content fm [] (scanned st) H)
    as Hr.
  destruct (runChecks checks minLevel content fm [] (scanned st))
    as [[found|e] st1]; [| done].
  destruct (0 <? length found); done.
Qed.

Lemma forOf_consistent fs minLevel files : ∀ st,
  consistent st → consistent (forOf files (auditFile fs minLevel) st).2.
Proof.
  induction files as [|f files IH]; intros st H; simpl; [done |].
  unfold mbind, js_bind, bind.
  pose proof (auditFile_consistent fs minLevel f st H) as Hf.
  destruct (auditFile fs minLevel f st) as [[[]|e] st1]; simpl in *; [| done].
  by apply IH.
Qed.

(** C9: whatever the arguments, the files on disk and the list of files,
    the statistics that [main] leaves, whether it ends normally or by an
    exception, count as many findings by name as by severity. *)
Theorem counts_agree argv fs files :
  consistent (main argv fs files stats0).2.
Proof. apply forOf_consistent. unfold consistent. reflexivity. Qed.

(** Example of C9: one page with a warning. *)
Example counts_agree_noImage :
  let st := (main [] noImageSite ["hello/index.html"%string] stats0).2 in
  issuesByType st = {[ u "Missing OG Image" := 1 ]}
  ∧ issuesBySeverity st = mkBySeverity 0 1 0
  ∧ filesScanned st = 1 ∧ length (fileIssues st) = 1.
Proof. vm_compute. repeat split; reflexivity. Qed.

(** A threshold acts as the removal of the checks below it from the
    table. *)
Lemma runChecks_filter checks minLevel content fm : ∀ found st,
  runChecks checks minLevel content fm found st
  = runChecks (List.filter (allowed minLevel) checks) 0 content fm found st.
Proof.
  induction checks as [|ck checks IH]; intros found st; [done |].
  cbn [List.filter runChecks]. unfold allowed at 1.
  destruct (severityLevels (severity ck) <? minLevel); cbn [negb]; [apply IH |].
  cbn [runChecks]. replace (severityLevels (severity ck) <? 0) with false
    by (symmetry; apply Nat.ltb_ge; lia).
  destruct (check ck content fm); [| apply IH].
  unfold mbind, js_bind, bind, lift, modify.
  destruct (detailsOf ck content fm); [apply IH | done].
Qed.

(** Where no allowed check fires, the loop finds nothing and counts
    nothing. *)
Lemma runChecks_quiet checks minLevel content fm : ∀ found st,
  Forall (fun ck => allowed minLevel ck = true → check ck content fm = false)
         checks →
  runChecks checks minLevel content fm found st = (Normal found, st).
Proof.
  induction checks as [|ck checks IH]; intros found st H; [done |].
  inversion H as [|? ? Hck Hrest]; subst. cbn [runChecks].
  unfold allowed in Hck.
  destruct (severityLevels (severity ck) <? minLevel); [by apply IH |].
  rewrite Hck by done. by apply IH.
Qed.

Lemma runChecks_levels checks minLevel content fm : ∀ found st found' st',
  runChecks checks minLevel content fm found st = (Normal found', st') →
  Forall (fun i => minLevel ≤ severityLevels (issueSeverity i)) found →
  Forall (fun i => minLevel ≤ severityLevels (issueSeverity i)) found'.
Proof.
  induction checks as [|ck checks IH]; intros found st found' st' H HF.
  - inversion H; subst. done.
  - cbn [runChecks] in H.
    destruct (severityLevels (severity ck) <? minLevel) eqn:E; [by eapply IH |].
    destruct (check ck content fm); [| by eapply IH].
    unfold mbind, js_bind, bind, lift, modify in H.
    destruct (detailsOf ck content fm); [| discriminate].
    eapply IH; [exact H |]. apply Forall_app. split; [done |].
    constructor; [| done]. simpl. apply Nat.ltb_ge in E. done.
Qed.

(** C7: for every table, threshold and document, the loop over the checks
    does what it does on the table without the checks below the threshold,
    so that these add no finding and no count, and every finding is at the
    threshold or above; [--severity=error] is the threshold 3; and under
    that threshold a file on which no check of severity error fires is
    counted as scanned and adds nothing else to the statistics: no entry in
    [fileIssues], no count. *)
Theorem threshold_suppresses :
  (∀ checks minLevel content fm found st,
     runChecks checks minLevel content fm found st
     = runChecks (List.filter (allowed minLevel) checks) 0 content fm found st)
  ∧ (∀ checks minLevel content fm st found' st',
       runChecks checks minLevel content fm [] st = (Normal found', st') →
       Forall (fun i => minLevel ≤ severityLevels (issueSeverity i)) found')
  ∧ levelOf (minSeverityOf [u "--severity=error"]) = 3
  ∧ (∀ fs f content st,
       readFileSync fs f = Normal content →
       Forall (fun ck => severity ck = Error →
                         check ck content (parseFrontmatter content) = false)
              SEO_CHECKS →
       ∃ st', auditFile fs 3 f st = (Normal tt, st')
              ∧ filesScanned st' = S (filesScanned st)
              ∧ fileIssues st' = fileIssues st
              ∧ issuesByType st' = issuesByType st
              ∧ issuesBySeverity st' = issuesBySeverity st).
Proof.
  split; [intros; apply runChecks_filter |].
  split; [intros; eapply runChecks_levels; [eassumption | constructor] |].
  split; [vm_compute; reflexivity |].
  intros fs f content st Hread Hno. exists (scanned st). split; [| done].
  unfold auditFile. unfold mbind, js_bind, bind, lift, modify. rewrite Hread.
  rewrite runChecks_quiet; [done |].
  eapply Forall_impl; [exact Hno |].
  intros ck Hck Hall. apply Hck.
  unfold allowed in Hall. destruct (severity ck); simpl in Hall; done.
Qed.

Lemma threshold_suppresses_witness :
  (runChecks SEO_CHECKS 1 noImagePage (parseFrontmatter noImagePage) []
             stats0).1
  = Normal [mkIssue (u "Missing OG Image") Warning None]
  ∧ ∃ st', auditFile noImageSite 3 "hello/index.html" stats0 = (Normal tt, st')
           ∧ filesScanned st' = 1
           ∧ fileIssues st' = []
           ∧ issuesByType st' = ∅
           ∧ issuesBySeverity st' = mkBySeverity 0 0 0.
Proof.
  split; [vm_compute; reflexivity |].
  apply (proj2 (proj2 (proj2 threshold_suppresses))
           noImageSite "hello/index.html"%string noImagePage stats0).
  - reflexivity.
  - unfold SEO_CHECKS.
    repeat (apply List.Forall_cons;
            [intros H; try discriminate H; vm_compute; reflexivity |]).
    apply List.Forall_nil.
Defined.


(** No [details] function of the table fails where its check holds. *)
Lemma details_defined content fm ck :
  ck ∈ SEO_CHECKS → check ck content fm = true →
  ∃ d, detailsOf ck content fm = Normal d.
Proof.
  intros Hin Hck. unfold SEO_CHECKS in Hin.
  repeat (apply elem_of_cons in Hin as [-> | Hin]);
    try (by apply elem_of_nil in Hin);
    unfold detailsOf; cbn [details check] in *; eauto.
  - unfold truncatedDescription in Hck.
    destruct (description fm) as [[|c s]|]; try discriminate. cbn [readOf]. eauto.
  - unfold lengthDetails.
    destruct (description fm) as [[|c s]|]; try discriminate. cbn [readOf]. eauto.
  - unfold lengthDetails.
    destruct (description fm) as [[|c s]|]; try discriminate. cbn [readOf]. eauto.
Qed.

Lemma runChecks_normal checks minLevel content fm :
  (∀ ck, ck ∈ checks → check ck content fm = true →
         ∃ d, detailsOf ck content fm = Normal d) →
  ∀ found st, ∃ found' st',
    runChecks checks minLevel content fm found st = (Normal found', st').
Proof.
  induction checks as [|ck checks IH]; intros Hd found st; [by eexists _, _ |].
  assert (Hd' : ∀ ck0, ck0 ∈ checks → check ck0 content fm = true →
                       ∃ d, detailsOf ck0 content fm = Normal d).
  { intros ck0 H0. apply Hd. apply elem_of_cons; by right. }
  cbn [runChecks].
  destruct (severityLevels (severity ck) <? minLevel); [by apply IH |].
  destruct (check ck content fm) eqn:E; [| by apply IH].
  destruct (Hd ck) as [d Hdd]; [apply elem_of_cons; by left | done |].
  unfold mbind, js_bind, bind, lift, modify. rewrite Hdd. by apply IH.
Qed.



End AuditFacts.

(** ** The two loops over the files *)

(** C2 holds for the cleanup scripts and fails for the audit script: the
    loop of the cleanup scripts catches what [processFile] throws, prints
    it and goes on, so that every file of the list is scanned; the loop of
    the audit script has no handler, and on a list whose first file cannot
    be read it ends with the exception, the second file not scanned and
    the exit code 1, where the cleanup script scans both files and prints
    the error. *)
Theorem audit_stops_at_unreadable_file :
  (∀ rules argv files w,
     ∃ w', Cleanup.main rules argv files w = (Normal tt, w')
           ∧ Cleanup.filesScanned (Cleanup.stats w')
             = Cleanup.filesScanned (Cleanup.stats w) + length files)
  ∧ Audit.main [] oneFile listed Audit.stats0
    = (Throw (ENOENT "a/index.html"), Audit.stats0)
  ∧ Audit.exitCode (Audit.main [] oneFile listed Audit.stats0).1 = 1
  ∧ (∃ w', Part001.main [] listed (Cleanup.w0 oneFile) = (Normal tt, w')
           ∧ Cleanup.filesScanned (Cleanup.stats w') = 2
           ∧ Cleanup.console w'
             = [Cleanup.ErrorProcessing "a/index.html" (ENOENT "a/index.html")])
  ∧ (∃ st, Audit.main [] oneFile ["b/index.html"%string] Audit.stats0
           = (Normal tt, st)
           ∧ Audit.filesScanned st = 1).
Proof.
  split; [intros; apply CleanupFacts.main_total |].
  split; [vm_compute; reflexivity |]. split; [vm_compute; reflexivity |].
  split; eexists; vm_compute; repeat split; reflexivity.
Qed.

(** * Further properties *)

(** ** The matcher is sound for the declarative reading *)

Lemma repeatMatcher_sound ic r greedy c :
  (∀ x c z, matcher ic r x c = Some z → ∃ y, matches ic r x y ∧ c y = Some z) →
  ∀ fuel min max x z,
    repeatMatcher (matcher ic r) greedy c fuel min max x = Some z →
    ∃ y, matches ic (Rep min max greedy r) x y ∧ c y = Some z.
Proof.
  intros Hm fuel. induction fuel as [|fuel IH]; intros min max x z H.
  - simpl in H. destruct max as [[|mx]|].
    + exists x. split; [apply matches_Rep_done; auto | done].
    + destruct min; [| done]. exists x. split; [apply matches_Rep_done; auto | done].
    + destruct min; [| done]. exists x. split; [apply matches_Rep_done; auto | done].
  - rewrite repeatMatcher_S in H.
    assert (Hstep : max ≠ Some 0 →
      matcher ic r x (fun y =>
        if (min =? 0) && (endIndex y =? endIndex x) then None
        else repeatMatcher (matcher ic r) greedy c fuel (pred min)
                           (pred <$> max) y) = Some z →
      ∃ y, matches ic (Rep min max greedy r) x y ∧ c y = Some z).
    { intros Hmax Hs. apply Hm in Hs as (y & Hxy & Hs).
      destruct ((min =? 0) && (endIndex y =? endIndex x)); [done |].
      apply IH in Hs as (y' & Hyy' & Hc). exists y'. split; [| done].
      eapply matches_Rep_step; eauto. }
    assert (Hdone : min = 0 ∨ max = Some 0 → c x = Some z →
      ∃ y, matches ic (Rep min max greedy r) x y ∧ c y = Some z).
    { intros Hd Hc. exists x. split; [by apply matches_Rep_done | done]. }
    destruct max as [[|mx]|]; [auto | |]; cbv zeta in H;
      (destruct min as [|mn]; cbn [Nat.eqb negb] in H;
       [ destruct greedy; apply orElse_Some in H as [H|H]; auto
       | auto ]).
Qed.

(** Soundness of the matcher: whatever it returns comes from its
    continuation, entered at a match of the pattern. *)
Lemma matcher_sound ic r :
  ∀ x c z, matcher ic r x c = Some z → ∃ y, matches ic r x y ∧ c y = Some z.
Proof.
  induction r as [|a|inv p|r1 IH1 r2 IH2|r1 IH1 r2 IH2|mn mx g r IH|i r IH
                  |neg r IH| |]; intros x c z H; simpl in H.
  - exists x. split; [constructor | done].
  - destruct (rest x) as [|b t] eqn:E; [done |].
    destruct (chr_eq ic a b) eqn:Ec; [| done].
    exists (advance x t). split; [by econstructor | done].
  - destruct (rest x) as [|b t] eqn:E; [done |].
    destruct (xorb inv (cls_mem ic p b)) eqn:Ec; [| done].
    exists (advance x t). split; [by econstructor | done].
  - apply IH1 in H as (y & Hxy & H). apply IH2 in H as (y' & Hyy' & H).
    exists y'. split; [by econstructor | done].
  - apply orElse_Some in H as [H|H]; [apply IH1 in H | apply IH2 in H];
      destruct H as (y & Hxy & H); exists y;
      (split; [| done]); [by apply matches_Alt_l | by apply matches_Alt_r].
  - by eapply repeatMatcher_sound.
  - apply IH in H as (y & Hxy & H). exists (capture i x y).
    split; [by constructor | done].
  - destruct (matcher ic r x Some) as [y|] eqn:E; destruct neg; try done.
    + apply IH in E as (y' & Hxy & E). inversion E; subst y'.
      eexists. split; [by apply matches_Look_pos | done].
    + exists x. split; [constructor | done].
  - destruct (endIndex x =? 0) eqn:E; [| done]. apply Nat.eqb_eq in E.
    exists x. split; [by constructor | done].
  - destruct (rest x) eqn:E; [| done]. exists x. split; [by constructor | done].
Qed.

Lemma matchAt_sound ic r pos s y :
  matchAt ic r pos s = Some y → matches ic r (mkState pos s []) y.
Proof.
  intros H. apply matcher_sound in H as (y' & Hm & H). by inversion H; subst.
Qed.

Lemma spans_nil x : spans [] x x.
Proof. split; [done | simpl; lia]. Qed.

Lemma spans_app w1 w2 x y z : spans w1 x y → spans w2 y z → spans (w1 ++ w2) x z.
Proof.
  intros [H1 H2] [H3 H4]. split.
  - by rewrite H1, H3, app_assoc.
  - rewrite length_app. lia.
Qed.

(** Every match spans a text. *)
Lemma matches_spans ic r x y : matches ic r x y → ∃ w, spans w x y.
Proof.
  induction 1 as [x|a x b t E _|inv p x b t E _|r1 r2 x y z _ [w1 H1] _ [w2 H2]
                  |r1 r2 x y _ IH|r1 r2 x y _ IH|mn mx g r x _
                  |mn mx g r x y z _ _ [w1 H1] _ [w2 H2]|i r x y _ [w H]
                  |r x y _ _|r x|x _|x _];
    try (by exists []; apply spans_nil);
    try (by exists [b]; split; [rewrite E | simpl; lia]);
    try (by exists (w1 ++ w2); eapply spans_app);
    try done.
  - exists w. done.
  - exists []. split; [done | simpl; lia].
Qed.

(** A literal matches itself and captures nothing. *)
Lemma matches_lit l : ∀ x y,
  matches false (lit l) x y → spans l x y ∧ captures y = captures x.
Proof.
  induction l as [|a l IH]; intros x y H.
  - inversion H; subst. split; [apply spans_nil | done].
  - destruct l as [|a' l].
    + inversion H as [|? ? b t E Hc| | | | | | | | | | |]; subst.
      rewrite chr_eq_false in Hc. apply N.eqb_eq in Hc. subst b.
      split; [| done]. split; [by rewrite E | simpl; lia].
    + cbn [lit] in H. inversion H as [| | |? ? ? y1 ? H1 H2| | | | | | | | |]; subst.
      inversion H1 as [|? ? b t E Hc| | | | | | | | | | |]; subst.
      rewrite chr_eq_false in Hc. apply N.eqb_eq in Hc. subst b.
      apply IH in H2 as [[H3 H4] H5]. split; [| done].
      split; [rewrite E; simpl in *; by rewrite H3 | simpl in *; lia].
Qed.

(** A repeated class matches a run of members of the class and captures
    nothing. *)
Lemma matches_rep_cls ic inv p g : ∀ mn mx x y,
  matches ic (Rep mn mx g (Cls inv p)) x y →
  ∃ w, spans w x y ∧ captures y = captures x
       ∧ Forall (fun b => xorb inv (cls_mem ic p b) = true) w
       ∧ reps mn mx ≤ length w.
Proof.
  intros mn mx x y H.
  remember (Rep mn mx g (Cls inv p)) as r eqn:Hr.
  revert mn mx Hr.
  induction H as [| | | | | |mn' mx' g' r' x Hd
                  |mn' mx' g' r' x y z Hmax H1 _ H2 IH2| | | | |];
    intros mn mx Hr; try discriminate; inversion Hr; subst.
  - exists []. split; [apply spans_nil |]. split; [done |]. split; [done |].
    destruct Hd as [-> | ->]; simpl; [destruct mx; simpl; lia | lia].
  - inversion H1 as [| |? ? ? b t E Hc| | | | | | | | | |]; subst.
    destruct (IH2 _ _ eq_refl) as (w & [Hs1 Hs2] & Hcap & HF & Hn).
    exists (b :: w). simpl in Hs1, Hs2.
    split; [split; [by rewrite E, Hs1 | simpl; lia] |].
    split; [done |]. split; [by constructor |].
    destruct mx as [[|mx]|]; [done | |]; destruct mn; simpl in *; lia.
Qed.

Lemma matches_literalPrefix r : ∀ x y,
  matches false r x y →
  ∃ suf, spans ((literalPrefix r).1 ++ suf) x y
         ∧ ((literalPrefix r).2 = true → suf = []).
Proof.
  induction r as [|a|inv p|r1 IH1 r2 IH2|r1 IH1 r2 IH2|mn mx g r IH|i r IH
                  |neg r IH| |]; intros x y H;
    try (destruct (matches_spans _ _ _ _ H) as [w Hw]; exists w; split; [exact Hw | done]).
  - inversion H; subst. exists []. split; [apply spans_nil | done].
  - apply (matches_lit [a]) in H as [H _]. exists []. split; [exact H | done].
  - inversion H as [| | |? ? ? y1 ? H1 H2| | | | | | | | |]; subst.
    apply IH1 in H1 as (s1 & Hs1 & Hw1). apply IH2 in H2 as (s2 & Hs2 & Hw2).
    cbn [literalPrefix].
    destruct (literalPrefix r1) as [l1 w1]. destruct (literalPrefix r2) as [l2 w2].
    simpl in *. destruct w1; simpl.
    + rewrite Hw1 in Hs1 by done. rewrite app_nil_r in Hs1.
      exists s2. split; [rewrite <- app_assoc; by eapply spans_app | done].
    + exists (s1 ++ l2 ++ s2). split; [| done].
      rewrite app_assoc. by eapply spans_app.
Qed.

Lemma matches_opening r x y :
  matches false r x y → ∃ w, spans w x y ∧ contains (opening r) w.
Proof.
  intros H.
  assert (Hgen : ∃ w, spans w x y ∧ contains (literalPrefix r).1 w).
  { apply matches_literalPrefix in H as (suf & Hs & _).
    eexists. split; [exact Hs |]. exists [], suf. done. }
  destruct r as [|a|inv p|r1 r2|r1 r2|mn mx g r|i r|neg r| |]; try exact Hgen.
  destruct r1; try exact Hgen.
  inversion H as [| | |? ? ? y1 ? H1 H2| | | | | | | | |]; subst.
  apply matches_spans in H1 as [w1 Hw1].
  apply matches_literalPrefix in H2 as (suf & Hs & _).
  eexists. split; [by eapply spans_app |].
  exists w1, suf. done.
Qed.

Lemma matchAt_opening r pos s y :
  matchAt false r pos s = Some y → contains (opening r) s.
Proof.
  intros H. apply matchAt_sound, matches_opening in H as (w & [Hs _] & pre & suf & ->).
  simpl in Hs. exists pre, (suf ++ rest y). rewrite Hs, <- !app_assoc. done.
Qed.

Lemma contains_cons l b s : contains l s → contains l (b :: s).
Proof. intros (pre & suf & ->). by exists (b :: pre), suf. Qed.

(** A text that does not hold the opening of a pattern has no match of
    it. *)
Lemma matchAllFrom_opening r s : ∀ pos skip,
  ¬ contains (opening r) s → matchAllFrom false r pos skip s = [].
Proof.
  induction s as [|b t IH]; intros pos skip Hn.
  - destruct skip; [| done]. simpl.
    destruct (matchAt false r pos []) eqn:E; [| done].
    apply matchAt_opening in E. done.
  - assert (¬ contains (opening r) t) as Ht by (intros Hc; by apply Hn, contains_cons).
    destruct skip; simpl; [| by apply IH].
    destruct (matchAt false r pos (b :: t)) eqn:E.
    + apply matchAt_opening in E. done.
    + by apply IH.
Qed.

Lemma occurs_true l s : occurs l s = true ↔ contains l s.
Proof.
  induction s as [|b t IH]; simpl.
  - rewrite orb_false_r, startsWith_true. split.
    + intros [suf H]. exists [], suf. done.
    + intros (pre & suf & H). destruct pre; [| done]. eauto.
  - rewrite orb_true_iff, startsWith_true, IH. split.
    + intros [[suf H] | H]; [exists [], suf; done | by apply contains_cons].
    + intros (pre & suf & H). destruct pre as [|b' pre].
      * left. eauto.
      * right. inversion H; subst. by exists pre, suf.
Qed.

Lemma occurs_false l s : occurs l s = false → ¬ contains l s.
Proof. intros H Hc. apply occurs_true in Hc. congruence. Qed.

(** ** Repetitions of a class, and the ends of a text *)

(** A search with the [g] flag finds nothing exactly where no index has a
    match. *)
Lemma matchAllFrom_nil ic r s : ∀ pos,
  matchAllFrom ic r pos 0 s = []
  ↔ ∀ pre suf, s = pre ++ suf → matchAt ic r (pos + length pre) suf = None.
Proof.
  induction s as [|b t IH]; intros pos; simpl.
  - destruct (matchAt ic r pos []) as [y|] eqn:E.
    + split; [done |]. intros H. specialize (H [] [] eq_refl). simpl in H.
      rewrite Nat.add_0_r in H. congruence.
    + split; [| done]. intros _ pre suf H. symmetry in H.
      apply app_eq_nil in H as [-> ->]. simpl. by rewrite Nat.add_0_r.
  - destruct (matchAt ic r pos (b :: t)) as [y|] eqn:E.
    + split; [done |]. intros H. specialize (H [] (b :: t) eq_refl). simpl in H.
      rewrite Nat.add_0_r in H. congruence.
    + rewrite IH. split.
      * intros H pre suf Hs. destruct pre as [|b' pre]; simpl in *.
        -- subst suf. by rewrite Nat.add_0_r.
        -- inversion Hs; subst. rewrite Nat.add_succ_r. by apply H.
      * intros H pre suf ->. specialize (H (b :: pre) suf eq_refl).
        simpl in H. by rewrite Nat.add_succ_r in H.
Qed.

(** [s.match(r)] finds something with the [g] flag exactly when it does
    without. *)
Lemma matchAll_test ic r s : matchAll ic r s = None ↔ test ic r s = false.
Proof.
  rewrite matchAll_None, matchAllFrom_nil, <- not_true_iff_false, test_true.
  split.
  - intros H (pre & suf & Hs & [y Hy]). specialize (H pre suf Hs).
    simpl in H. congruence.
  - intros H pre suf Hs. destruct (matchAt ic r (0 + length pre) suf) eqn:E; [| done].
    exfalso. apply H. exists pre, suf. split; [done |]. simpl in E. by rewrite E.
Qed.

Lemma trimStart_length s : length (trimStart s) ≤ length s.
Proof.
  induction s as [|c s IH]; simpl; [done |].
  destruct (is_space c); simpl; lia.
Qed.

(** Trimming never lengthens a text. *)
Lemma trim_length s : length (trim s) ≤ length s.
Proof.
  unfold trim, trimEnd. rewrite length_rev.
  etrans; [apply trimStart_length |]. rewrite length_rev.
  apply trimStart_length.
Qed.

Lemma trimStart_nil s : trimStart s = [] ↔ Forall (fun c => is_space c = true) s.
Proof.
  induction s as [|c s IH]; simpl; [done |].
  destruct (is_space c) eqn:E.
  - rewrite IH. split; [by constructor | by inversion 1].
  - split; [done |]. inversion 1; congruence.
Qed.

Lemma trimStart_spaces s :
  Forall (fun c => is_space c = true) s →
  Forall (fun c => is_space c = true) (trimStart s).
Proof.
  induction 1 as [|c s Hc _ IH]; simpl; [done |]. by rewrite Hc.
Qed.

Lemma trimStart_suffix s : ∃ pre, s = pre ++ trimStart s
                                  ∧ Forall (fun c => is_space c = true) pre.
Proof.
  induction s as [|c s (pre & IH & HF)]; simpl; [by exists [] |].
  destruct (is_space c) eqn:E.
  - exists (c :: pre). split; [simpl; congruence | by constructor].
  - by exists [].
Qed.

(** A text trims to nothing exactly when it is white space only. *)
Lemma trim_nil s : trim s = [] ↔ Forall (fun c => is_space c = true) s.
Proof.
  unfold trim, trimEnd. split.
  - intros H. apply (f_equal (@rev N)) in H. rewrite rev_involutive in H.
    simpl in H. apply trimStart_nil in H.
    apply Forall_rev in H. rewrite rev_involutive in H.
    destruct (trimStart_suffix s) as (pre & Hs & Hp). rewrite Hs.
    apply Forall_app. done.
  - intros H. apply trimStart_spaces in H.
    assert (trimStart (rev (trimStart s)) = []) as ->; [| done].
    apply trimStart_nil. by apply Forall_rev.
Qed.

Lemma matches_Seq_inv ic r1 r2 x z :
  matches ic (Seq r1 r2) x z → ∃ y, matches ic r1 x y ∧ matches ic r2 y z.
Proof. inversion 1; subst. eauto. Qed.

Lemma matches_Chr_inv a x y :
  matches false (Chr a) x y → spans [a] x y ∧ captures y = captures x.
Proof. apply (matches_lit [a]). Qed.

Lemma matches_Cls_inv ic inv p x y :
  matches ic (Cls inv p) x y →
  ∃ b, spans [b] x y ∧ captures y = captures x
       ∧ xorb inv (cls_mem ic p b) = true.
Proof.
  inversion 1 as [| |? ? ? b t E Hc| | | | | | | | | |]; subst.
  exists b. split; [split; [by rewrite E | simpl; lia] | done].
Qed.

Lemma matches_Bol_inv ic x y : matches ic Bol x y → y = x ∧ endIndex x = 0.
Proof. by inversion 1. Qed.

Lemma matches_Eol_inv ic x y : matches ic Eol x y → y = x ∧ rest x = [].
Proof. by inversion 1. Qed.

(** A group around a repeated class captures the run it matched. *)
Lemma matches_grp_rep_cls ic i inv p g mn mx x y :
  matches ic (Grp i (Rep mn mx g (Cls inv p))) x y →
  ∃ w, spans w x y ∧ captures y = (i, w) :: captures x
       ∧ Forall (fun b => xorb inv (cls_mem ic p b) = true) w
       ∧ reps mn mx ≤ length w.
Proof.
  inversion 1 as [| | | | | | | |? ? ? y' H1| | | |]; subst.
  apply matches_rep_cls in H1 as (w & [Hs1 Hs2] & Hc & HF & Hn).
  exists w. split; [done |]. split; [| done].
  unfold capture. cbn [captures]. rewrite Hc, Hs1, Hs2.
  replace (endIndex x + length w - endIndex x) with (length w) by lia.
  by rewrite take_app_length.
Qed.

Lemma cls_false_mem p b : xorb false (cls_mem false p b) = p b.
Proof. unfold cls_mem. simpl. by rewrite orb_false_r. Qed.

Lemma Forall_cls (p : N → bool) w :
  Forall (fun b => xorb false (cls_mem false p b) = true) w
  → Forall (fun b => p b = true) w.
Proof.
  intros H. eapply Forall_impl; [exact H |]. intros b Hb.
  rewrite <- (cls_false_mem p b). exact Hb.
Qed.

Lemma matcher_cls_cons p idx b t caps d :
  matcher false (Cls false p) (mkState idx (b :: t) caps) d
  = if p b then d (mkState (S idx) t caps) else None.
Proof. cbn [matcher rest]. by rewrite cls_false_mem. Qed.

Lemma matcher_cls_nil p idx caps d :
  matcher false (Cls false p) (mkState idx [] caps) d = None.
Proof. done. Qed.

(** A greedy repetition of a class takes the whole run when what follows
    the pattern matches after it. *)
Lemma greedy_takes_run p c z w : ∀ t idx caps fuel mn,
  Forall (fun b => p b = true) w → stopsAt p t →
  mn ≤ length w → mn + length (w ++ t) ≤ fuel →
  c (mkState (idx + length w) t caps) = Some z →
  repeatMatcher (matcher false (Cls false p)) true c fuel mn None
                (mkState idx (w ++ t) caps) = Some z.
Proof.
  induction w as [|b w IH]; intros t idx caps fuel mn HF Ht Hmn Hfuel Hc.
  - cbn [app length] in *. assert (mn = 0) as -> by lia. rewrite Nat.add_0_r in Hc.
    destruct fuel as [|fuel]; [simpl; done |].
    rewrite repeatMatcher_S. cbv zeta. cbn [Nat.eqb negb andb].
    destruct t as [|b t]; [by rewrite matcher_cls_nil, Hc |].
    rewrite matcher_cls_cons. simpl in Ht. rewrite Ht. simpl. exact Hc.
  - inversion HF as [|? ? Hb HF']; subst.
    destruct fuel as [|fuel]; [simpl in Hfuel; lia |].
    rewrite repeatMatcher_S. cbv zeta. cbn [app].
    rewrite matcher_cls_cons, Hb. cbn [endIndex].
    rewrite succ_neqb, andb_false_r.
    assert (Hrec : repeatMatcher (matcher false (Cls false p)) true c fuel
                     (pred mn) (pred <$> None) (mkState (S idx) (w ++ t) caps)
                   = Some z).
    { apply IH; try done; cbn [app length] in *; try lia.
      replace (S idx + length w) with (idx + S (length w)) by lia. exact Hc. }
    rewrite Hrec. by destruct (mn =? 0).
Qed.

(** Where its continuation fails everywhere, a repetition fails. *)
Lemma repeat_fails ic r greedy c fuel mn mx x :
  (∀ y n, moved n x y → c y = None) →
  repeatMatcher (matcher ic r) greedy c fuel mn mx x = None.
Proof.
  intros H.
  destruct (repeatMatcher (matcher ic r) greedy c fuel mn mx x) as [z|] eqn:E;
    [| done].
  eapply (repeatMatcher_progresses _ 0) in E as (y & n & _ & Hm & Hc).
  - rewrite (H y n Hm) in Hc. done.
  - intros x' c' z' H'. apply matcher_progresses in H' as (y & n & _ & ? & ?).
    exists y, n. split; [lia | done].
Qed.

(** A greedy [p*] stops at the last index of a run where what follows the
    pattern matches. *)
Lemma greedy_last p c z w : ∀ t idx caps fuel,
  Forall (fun b => p b = true) w →
  length (w ++ t) ≤ fuel →
  c (mkState (idx + length w) t caps) = Some z →
  (∀ j caps', 0 < j → j ≤ length t →
              c (mkState (idx + length w + j) (drop j t) caps') = None) →
  repeatMatcher (matcher false (Cls false p)) true c fuel 0 None
                (mkState idx (w ++ t) caps) = Some z.
Proof.
  induction w as [|b w IH]; intros t idx caps fuel HF Hfuel Hc Hlater.
  - cbn [app length] in *. rewrite Nat.add_0_r in *.
    destruct fuel as [|fuel]; [simpl; done |].
    rewrite repeatMatcher_S. cbv zeta. cbn [Nat.eqb negb andb].
    destruct t as [|b t]; [by rewrite matcher_cls_nil, Hc |].
    rewrite matcher_cls_cons. destruct (p b); [| simpl; exact Hc].
    cbn [endIndex]. rewrite succ_neqb.
    rewrite repeat_fails; [cbn [orElse]; exact Hc |].
    intros y n (Hn & Hi & Hr). simpl in *.
    destruct y as [yi yr yc]. simpl in *. subst.
    specialize (Hlater (S n) yc). simpl in Hlater.
    replace (idx + S n) with (S (idx + n)) in Hlater by lia.
    apply Hlater; lia.
  - inversion HF as [|? ? Hb HF']; subst.
    destruct fuel as [|fuel]; [simpl in Hfuel; lia |].
    rewrite repeatMatcher_S. cbv zeta. cbn [app Nat.eqb negb andb].
    rewrite matcher_cls_cons, Hb. cbn [endIndex]. rewrite succ_neqb.
    assert (Hrec : repeatMatcher (matcher false (Cls false p)) true c fuel
                     (pred 0) (pred <$> None) (mkState (S idx) (w ++ t) caps)
                   = Some z).
    { apply IH; try done.
      - simpl in Hfuel. lia.
      - replace (S idx + length w) with (idx + length (b :: w)) by (simpl; lia).
        exact Hc.
      - intros j caps' Hj Hjt.
        replace (S idx + length w + j) with (idx + length (b :: w) + j)
          by (simpl; lia).
        by apply Hlater. }
    rewrite Hrec. done.
Qed.

(** A lazy repetition of a class stops at the first index, from [mn] on,
    where what follows the pattern matches. *)
Lemma lazy_first p c z w : ∀ t idx caps fuel mn,
  Forall (fun b => p b = true) w →
  mn ≤ length w → mn + length (w ++ t) ≤ fuel →
  c (mkState (idx + length w) t caps) = Some z →
  (∀ j, mn ≤ j → j < length w →
        c (mkState (idx + j) (drop j (w ++ t)) caps) = None) →
  repeatMatcher (matcher false (Cls false p)) false c fuel mn None
                (mkState idx (w ++ t) caps) = Some z.
Proof.
  induction w as [|b w IH]; intros t idx caps fuel mn HF Hmn Hfuel Hc Hearly.
  - cbn [app length] in *. assert (mn = 0) as -> by lia. rewrite Nat.add_0_r in Hc.
    destruct fuel as [|fuel]; [simpl; done |].
    rewrite repeatMatcher_S. cbv zeta. cbn [Nat.eqb negb]. by rewrite Hc.
  - inversion HF as [|? ? Hb HF']; subst.
    destruct fuel as [|fuel]; [simpl in Hfuel; lia |].
    rewrite repeatMatcher_S. cbv zeta. cbn [app].
    rewrite matcher_cls_cons, Hb. cbn [endIndex].
    rewrite succ_neqb, andb_false_r.
    assert (Hrec : repeatMatcher (matcher false (Cls false p)) false c fuel
                     (pred mn) (pred <$> None) (mkState (S idx) (w ++ t) caps)
                   = Some z).
    { apply IH; try done; cbn [app length] in *; try lia.
      - replace (S idx + length w) with (idx + S (length w)) by lia. exact Hc.
      - intros j Hj1 Hj2. specialize (Hearly (S j)). simpl in Hearly.
        replace (S idx + j) with (idx + S j) by lia. apply Hearly; lia. }
    rewrite Hrec. destruct mn as [|mn]; [| done].
    cbn [Nat.eqb negb]. specialize (Hearly 0). simpl in Hearly.
    rewrite Nat.add_0_r in Hearly. rewrite Hearly by lia. done.
Qed.

Lemma matcher_Seq ic r1 r2 x c :
  matcher ic (Seq r1 r2) x c = matcher ic r1 x (fun y => matcher ic r2 y c).
Proof. done. Qed.

Lemma matcher_Grp ic i r x c :
  matcher ic (Grp i r) x c = matcher ic r x (fun y => c (capture i x y)).
Proof. done. Qed.

Lemma matcher_Rep ic mn mx g r x c :
  matcher ic (Rep mn mx g r) x c
  = repeatMatcher (matcher ic r) g c (mn + length (rest x)) mn mx x.
Proof. done. Qed.

Lemma matcher_Chr_cons a idx t caps c :
  matcher false (Chr a) (mkState idx (a :: t) caps) c
  = c (mkState (S idx) t caps).
Proof. cbn [matcher rest]. by rewrite chr_eq_false, N.eqb_refl. Qed.

(** Two runs of a class that end at a unit outside the class are the same
    run. *)
Lemma run_unique (p : N → bool) a : ∀ b x y r r',
  a ++ x :: r = b ++ y :: r' →
  Forall (fun c => p c = true) a → Forall (fun c => p c = true) b →
  p x = false → p y = false →
  a = b ∧ x = y ∧ r = r'.
Proof.
  induction a as [|a0 a IH]; intros b x y r r' H Ha Hb Hx Hy.
  - destruct b as [|b0 b]; simpl in H; inversion H; subst; [done |].
    inversion Hb; congruence.
  - destruct b as [|b0 b]; simpl in H; inversion H; subst.
    + inversion Ha; congruence.
    + inversion Ha; inversion Hb; subst.
      destruct (IH b x y r r') as (-> & -> & ->); done.
Qed.

(** [\s*$] matches exactly a text of white space. *)
Lemma spaces_to_end_Some idx s caps :
  Forall (fun c => is_space c = true) s →
  matcher false (Seq (star cls_space) Eol) (mkState idx s caps) Some
  = Some (mkState (idx + length s) [] caps).
Proof.
  intros H. rewrite matcher_Seq. unfold star, cls_space. rewrite matcher_Rep.
  rewrite <- (app_nil_r s) at 2.
  apply greedy_takes_run; try done; simpl; try lia.
  rewrite app_nil_r. lia.
Qed.

Lemma spaces_to_end_None idx s caps :
  ¬ Forall (fun c => is_space c = true) s →
  matcher false (Seq (star cls_space) Eol) (mkState idx s caps) Some = None.
Proof.
  intros H.
  destruct (matcher false (Seq (star cls_space) Eol) (mkState idx s caps) Some)
    as [z|] eqn:E; [| done].
  exfalso. apply H. apply matcher_sound in E as (y & Hm & _).
  apply matches_Seq_inv in Hm as (y1 & H1 & H2).
  apply matches_rep_cls in H1 as (w & [Hs _] & _ & HF & _).
  apply matches_Eol_inv in H2 as [-> He]. simpl in Hs.
  rewrite Hs, He, app_nil_r. by apply Forall_cls.
Qed.

Lemma matcher_Bol_0 ic s caps c :
  matcher ic Bol (mkState 0 s caps) c = c (mkState 0 s caps).
Proof. done. Qed.

Lemma capture_run i idx w t caps caps' :
  capture i (mkState idx (w ++ t) caps) (mkState (idx + length w) t caps')
  = mkState (idx + length w) t ((i, w) :: caps').
Proof.
  unfold capture. cbn [endIndex rest captures].
  replace (idx + length w - idx) with (length w) by lia.
  by rewrite take_app_length.
Qed.

Lemma trimStart_fixed s :
  length (trimStart s) = length s → stopsAt is_space s.
Proof.
  destruct s as [|c s]; simpl; [done |].
  destruct (is_space c) eqn:E; [| done].
  intros H. pose proof (trimStart_length s). lia.
Qed.

(** A text that trimming leaves as it is neither starts nor ends with
    white space. *)
Lemma trim_fixed s :
  trim s = s → stopsAt is_space s ∧ stopsAt is_space (rev s).
Proof.
  intros H.
  assert (length (trim s) = length s) as Hl by (by rewrite H).
  unfold trim, trimEnd in Hl. rewrite length_rev in Hl.
  pose proof (trimStart_length (rev (trimStart s))) as H1.
  pose proof (trimStart_length s) as H2. rewrite length_rev in H1.
  split; [apply trimStart_fixed; lia |].
  assert (trimStart s = s) as Hs.
  { destruct (trimStart_suffix s) as (pre & Hp & _).
    assert (length pre = 0) as Hz.
    { apply (f_equal length) in Hp. rewrite length_app in Hp. lia. }
    destruct pre; [| done]. by rewrite Hp at 2. }
  rewrite Hs in Hl. apply trimStart_fixed. by rewrite length_rev.
Qed.

Lemma not_all_spaces_after v ws' j :
  stopsAt is_space (rev v) → j < length v →
  ¬ Forall (fun c => is_space c = true) (drop j (v ++ ws')).
Proof.
  intros Hlast Hj HF.
  destruct (rev v) as [|vl r] eqn:E.
  { apply (f_equal length) in E. rewrite length_rev in E. simpl in E. lia. }
  simpl in Hlast.
  assert (v = rev r ++ [vl]) as ->.
  { rewrite <- (rev_involutive v), E. done. }
  rewrite length_app in Hj. simpl in Hj.
  rewrite <- app_assoc, drop_app_le in HF by lia.
  apply Forall_app in HF as [_ HF]. inversion HF; congruence.
Qed.

Lemma matcher_lit l : ∀ idx t caps c,
  matcher false (lit l) (mkState idx (l ++ t) caps) c
  = c (mkState (idx + length l) t caps).
Proof.
  induction l as [|a l IH]; intros idx t caps c.
  - cbn. by rewrite Nat.add_0_r.
  - destruct l as [|a' l].
    + cbn [lit app]. rewrite matcher_Chr_cons. cbn [length]. do 2 f_equal. lia.
    + change (lit (a :: a' :: l)) with (Seq (Chr a) (lit (a' :: l))).
      rewrite matcher_Seq. cbn [app]. rewrite matcher_Chr_cons.
      etransitivity; [apply (IH (S idx) t caps c) |].
      cbn [length]. do 2 f_equal. lia.
Qed.

Lemma matcher_lit_fails l : ∀ idx s caps c,
  startsWith l s = false →
  matcher false (lit l) (mkState idx s caps) c = None.
Proof.
  intros idx s caps c H.
  destruct (matcher false (lit l) (mkState idx s caps) c) as [z|] eqn:E; [| done].
  apply matcher_sound in E as (y & Hm & _).
  apply matches_lit in Hm as [[Hs _] _]. simpl in Hs.
  assert (startsWith l s = true) by (apply startsWith_true; eauto). congruence.
Qed.

(** The match of a fenced pattern at the white space before the opening
    text. *)
Lemma fenced_at o c idx ws1 mid ws2 post :
  o ≠ [] → stopsAt is_space o →
  Forall (fun b => is_space b = true) ws1 →
  firstAt c (length mid) (mid ++ c ++ ws2 ++ post) →
  Forall (fun b => is_space b = true) ws2 → stopsAt is_space post →
  matchAt false (fenced o c) idx (ws1 ++ o ++ mid ++ c ++ ws2 ++ post)
  = Some (mkState (idx + length (ws1 ++ o ++ mid ++ c ++ ws2)) post []).
Proof.
  intros Ho Hos H1 [_ Hc] H2 Hp.
  unfold matchAt, fenced. cbn [seq]. rewrite matcher_Seq.
  unfold star at 1, cls_space at 1. rewrite matcher_Rep. cbn [rest].
  apply greedy_takes_run; [done | | lia | simpl; lia |].
  { destruct o as [|a o]; [done |]. exact Hos. }
  rewrite matcher_Seq, matcher_lit. rewrite matcher_Seq.
  unfold star_lazy at 1, cls_any at 1. rewrite matcher_Rep. cbn [rest].
  apply lazy_first; [| lia | simpl; lia | |].
  - apply Forall_forall. intros b _. apply is_any_true.
  - rewrite matcher_Seq, matcher_lit. unfold star, cls_space. rewrite matcher_Rep.
    cbn [rest]. rewrite (greedy_takes_run is_space Some
      (mkState (idx + length ws1 + length o + length mid + length c + length ws2) post []));
      try done; try lia; try (simpl; lia).
    do 2 f_equal. rewrite !length_app. lia.
  - intros j _ Hj. rewrite matcher_Seq. apply matcher_lit_fails. by apply Hc.
Qed.

(** Before the first opening text there is no match, when what comes
    before the white space of the block does not end in white space. *)
Lemma fenced_before o c pos pre ws1 tl j :
  o ≠ [] → stopsAt is_space o →
  Forall (fun b => is_space b = true) ws1 →
  endsOutside is_space pre →
  (∀ i, i < length pre → startsWith o (drop i (pre ++ ws1 ++ o ++ tl)) = false) →
  j < length pre →
  matchAt false (fenced o c) (pos + j) (drop j (pre ++ ws1 ++ o ++ tl)) = None.
Proof.
  intros Ho Hos H1 Hpre Hfirst Hj.
  destruct (matchAt false (fenced o c) (pos + j) (drop j (pre ++ ws1 ++ o ++ tl)))
    as [z|] eqn:E; [| done].
  exfalso. apply matchAt_sound in E. unfold fenced in E. cbn [seq] in E.
  apply matches_Seq_inv in E as (y1 & E1 & E2).
  apply matches_rep_cls in E1 as (ws & [Hs _] & _ & Hws & _).
  apply matches_Seq_inv in E2 as (y2 & E2 & _).
  apply matches_lit in E2 as [[Ho' _] _].
  cbn [rest] in Hs. rewrite Ho' in Hs.
  apply Forall_cls in Hws.
  (* the opening text is at index [j + length ws] *)
  assert (startsWith o (drop (j + length ws) (pre ++ ws1 ++ o ++ tl)) = true) as Hat.
  { rewrite <- drop_drop, Hs, drop_app_length. apply startsWith_true. eauto. }
  destruct (decide (j + length ws < length pre)) as [Hlt | Hge].
  { rewrite Hfirst in Hat by done. done. }
  (* the white space covers the end of [pre] *)
  rewrite drop_app_le in Hs by lia.
  destruct (drop j pre) as [|b l] eqn:Ed using rev_ind.
  { apply (f_equal length) in Ed. rewrite length_drop in Ed. simpl in Ed. lia. }
  clear IHl.
  assert (pre = take j pre ++ l ++ [b]) as Hpre' by (by rewrite <- Ed, take_drop).
  unfold endsOutside in Hpre. rewrite Hpre', !rev_app_distr in Hpre. simpl in Hpre.
  assert (length (l ++ [b]) ≤ length ws) as Hlen.
  { rewrite <- Ed, length_drop. lia. }
  assert (b ∈ ws) as Hin.
  { apply (f_equal (take (length (l ++ [b])))) in Hs.
    rewrite take_app_length in Hs. rewrite take_app_le in Hs by done.
    rewrite <- (take_drop (length (l ++ [b])) ws), <- Hs.
    apply elem_of_app. left. apply elem_of_app. right. apply elem_of_cons. by left. }
  rewrite Forall_forall in Hws. specialize (Hws b Hin). congruence.
Qed.

(** Scanning: the units that belong to the match found last are passed
    over. *)
Lemma replaceAllFrom_skip ic r repl w : ∀ pos s,
  replaceAllFrom ic r repl pos (length w) (w ++ s)
  = replaceAllFrom ic r repl (pos + length w) 0 s.
Proof.
  induction w as [|b w IH]; intros pos s.
  - cbn [length app]. by rewrite Nat.add_0_r.
  - cbn [length app replaceAllFrom]. rewrite IH. f_equal. lia.
Qed.

Lemma matchAllFrom_skip ic r w : ∀ pos s,
  matchAllFrom ic r pos (length w) (w ++ s)
  = matchAllFrom ic r (pos + length w) 0 s.
Proof.
  induction w as [|b w IH]; intros pos s.
  - cbn [length app]. by rewrite Nat.add_0_r.
  - cbn [length app matchAllFrom]. rewrite IH. f_equal. lia.
Qed.

(** Scanning a stretch in which no match starts. *)
Lemma replaceAllFrom_prefix ic r repl pre : ∀ pos s,
  (∀ j, j < length pre → matchAt ic r (pos + j) (drop j (pre ++ s)) = None) →
  replaceAllFrom ic r repl pos 0 (pre ++ s)
  = pre ++ replaceAllFrom ic r repl (pos + length pre) 0 s.
Proof.
  induction pre as [|b pre IH]; intros pos s H.
  - cbn [length app]. by rewrite Nat.add_0_r.
  - cbn [app replaceAllFrom].
    pose proof (H 0 ltac:(simpl; lia)) as H0. rewrite Nat.add_0_r, drop_0 in H0.
    cbn [app] in H0. rewrite H0. rewrite IH.
    + cbn [length app].
      replace (pos + S (length pre)) with (S pos + length pre) by lia. done.
    + intros j Hj. specialize (H (S j) ltac:(simpl; lia)).
      cbn [app drop] in H. rewrite <- H. f_equal. lia.
Qed.

Lemma matchAllFrom_prefix ic r pre : ∀ pos s,
  (∀ j, j < length pre → matchAt ic r (pos + j) (drop j (pre ++ s)) = None) →
  matchAllFrom ic r pos 0 (pre ++ s)
  = matchAllFrom ic r (pos + length pre) 0 s.
Proof.
  induction pre as [|b pre IH]; intros pos s H.
  - cbn [length app]. by rewrite Nat.add_0_r.
  - cbn [app matchAllFrom].
    pose proof (H 0 ltac:(simpl; lia)) as H0. rewrite Nat.add_0_r, drop_0 in H0.
    cbn [app] in H0. rewrite H0. rewrite IH.
    + cbn [length].
      replace (pos + S (length pre)) with (S pos + length pre) by lia. done.
    + intros j Hj. specialize (H (S j) ltac:(simpl; lia)).
      cbn [app drop] in H. rewrite <- H. f_equal. lia.
Qed.

(** Scanning at a match that is not empty. *)
Lemma replaceAllFrom_match ic r repl pos w s y :
  w ≠ [] → matchAt ic r pos (w ++ s) = Some y → endIndex y = pos + length w →
  replaceAllFrom ic r repl pos 0 (w ++ s)
  = repl ++ replaceAllFrom ic r repl (pos + length w) 0 s.
Proof.
  intros Hw Hm He. destruct w as [|b w]; [done |].
  cbn [app replaceAllFrom]. cbn [app] in Hm. rewrite Hm. cbv zeta. rewrite He.
  replace (pos + length (b :: w) - pos) with (S (length w)) by (simpl; lia).
  cbn [Nat.eqb pred app]. rewrite replaceAllFrom_skip. do 2 f_equal. simpl. lia.
Qed.

Lemma matchAllFrom_match ic r pos w s y :
  w ≠ [] → matchAt ic r pos (w ++ s) = Some y → endIndex y = pos + length w →
  matchAllFrom ic r pos 0 (w ++ s)
  = w :: matchAllFrom ic r (pos + length w) 0 s.
Proof.
  intros Hw Hm He. destruct w as [|b w]; [done |].
  cbn [app matchAllFrom]. cbn [app] in Hm. rewrite Hm. cbv zeta. rewrite He.
  replace (pos + length (b :: w) - pos) with (S (length w)) by (simpl; lia).
  cbn [pred]. rewrite matchAllFrom_skip. f_equal.
  - change (b :: w ++ s) with ((b :: w) ++ s).
    by rewrite (take_app_length' (b :: w) s).
  - f_equal. simpl. lia.
Qed.

Lemma literalPrefix_lit l : literalPrefix (lit l) = (l, true).
Proof.
  induction l as [|a l IH]; [done |]. destruct l as [|a' l]; [done |].
  change (lit (a :: a' :: l)) with (Seq (Chr a) (lit (a' :: l))).
  cbn [literalPrefix]. by rewrite IH.
Qed.

Lemma opening_fenced o c : opening (fenced o c) = o.
Proof.
  unfold fenced, opening. cbn [seq star]. cbn [literalPrefix].
  rewrite literalPrefix_lit. cbn. by rewrite app_nil_r.
Qed.

Lemma matches_Look_inv ic r x y :
  matches ic (Look false r) x y →
  ∃ y', matches ic r x y' ∧ rest y = rest x ∧ endIndex y = endIndex x.
Proof. intros H. inversion H; subst. eauto. Qed.

(** A match of a sequence ends with a match of its last pattern. *)
Lemma matches_seq_last ic r rs : ∀ x z,
  matches ic (seq (rs ++ [r])) x z → ∃ y, matches ic r y z.
Proof.
  induction rs as [|r1 rs IH]; intros x z H; [by exists x |].
  assert (seq ((r1 :: rs) ++ [r]) = Seq r1 (seq (rs ++ [r]))) as E
    by (by destruct rs).
  rewrite E in H. apply matches_Seq_inv in H as (y & _ & H). by eapply IH.
Qed.

(** ** The cleanup scripts *)

Module CleanupLaws.
Import Cleanup CleanupTerms.

(** The openings of the seven patterns. *)
Example openings :
  (fun rule => opening (pattern rule)) <$> Part001.REMOVAL_PATTERNS
  = [ u "<section class=" ++ q "main-color container-wrap social-share-wrap" ++ u ">";
      u "<section class=" ++ q "container-wrap" ++ u ">";
      u "<nav class=" ++ [DQ] ++ u "pagination-sticky";
      u "<!-- Begin Comments -->";
      u "<div class=" ++ q "article-meta" ++ u ">";
      u "<style";
      u "<div id=" ++ [DQ] ++ u "go-pricing-table-" ].
Proof. reflexivity. Qed.

(** X1: for every table of rules and every document: when, for every rule
    of the table, the literal text that the rule's pattern opens with
    occurs nowhere in the document, [cleanupContent] returns the document
    itself with a count of zero, and leaves the statistics, the disk and
    the console as they were. *)
Theorem untouched_without_openings rules content w :
  Forall (fun rule => occurs (opening (pattern rule)) content = false) rules →
  cleanupContent rules content w = (Normal (content, 0), w).
Proof.
  intros H.
  assert (Forall (unmatched content) rules) as Hu.
  { eapply Forall_impl; [exact H |]. intros rule Hn.
    apply matchAll_None. by apply matchAllFrom_opening, occurs_false. }
  rewrite CleanupFacts.cleanupContent_eq.
  destruct (CleanupFacts.cleanup_spec rules content) as (_ & Hz & Hm & _).
  rewrite (Hm (proj1 Hz Hu)), (proj1 Hz Hu).
  rewrite CleanupFacts.cleanup_unmatched_stats by done.
  by rewrite CleanupFacts.world_eta.
Qed.

Lemma untouched_without_openings_witness :
  Part001.cleanupContent plain (w0 (mkFs ∅ ∅)) = (Normal (plain, 0), w0 (mkFs ∅ ∅)).
Proof.
  apply (untouched_without_openings Part001.REMOVAL_PATTERNS plain).
  repeat (apply List.Forall_cons; [vm_compute; reflexivity |]).
  apply List.Forall_nil.
Defined.

(** Deleting the matches of a pattern leaves a subsequence of the text. *)
Lemma replaceAllFrom_sublist ic r s :
  ∀ pos skip, replaceAllFrom ic r [] pos skip s `sublist_of` s.
Proof.
  induction s as [|b t IH]; intros pos skip.
  - destruct skip; simpl; [| done]. by destruct (matchAt ic r pos []).
  - destruct skip as [|k]; simpl.
    + destruct (matchAt ic r pos (b :: t)) as [y|]; simpl.
      * destruct (endIndex y - pos =? 0); simpl.
        -- apply sublist_skip, IH.
        -- apply sublist_cons, IH.
      * apply sublist_skip, IH.
    + apply sublist_cons, IH.
Qed.

Lemma applyRule_sublist text n bt rule :
  (applyRule (text, n, bt) rule).1.1 `sublist_of` text.
Proof.
  unfold applyRule.
  destruct (0 <? count (matchAll false (pattern rule) text)); simpl; [| done].
  apply replaceAllFrom_sublist.
Qed.

Lemma applyRule_total text n bt rule :
  total (applyRule (text, n, bt) rule).2 + n
  = total bt + (applyRule (text, n, bt) rule).1.2.
Proof.
  unfold applyRule.
  destruct (0 <? count (matchAll false (pattern rule) text)); simpl; [| lia].
  rewrite total_addCount. lia.
Qed.

Lemma foldl_applyRule_sublist_total rules : ∀ text n bt,
  (foldl applyRule (text, n, bt) rules).1.1 `sublist_of` text
  ∧ total (foldl applyRule (text, n, bt) rules).2 + n
    = total bt + (foldl applyRule (text, n, bt) rules).1.2.
Proof.
  induction rules as [|rule rules IH]; intros text n bt.
  - simpl. split; [done | lia].
  - change (foldl applyRule ?a (rule :: rules))
      with (foldl applyRule (applyRule a rule) rules).
    pose proof (applyRule_sublist text n bt rule) as Hs.
    pose proof (applyRule_total text n bt rule) as Ht.
    destruct (applyRule (text, n, bt) rule) as [[t1 n1] b1]. simpl in *.
    destruct (IH t1 n1 b1) as [Hs' Ht']. split; [by etrans | lia].
Qed.

(** X2: for every table of rules, document and state, [cleanupContent]
    returns normally; the text it returns is the document with some of
    its units left out, in their order; the removals by rule that it adds
    to the statistics sum to the total it returns; and it changes neither
    the two file counters, nor the disk, nor the console. *)
Theorem cleanup_subsequence_and_total rules content w :
  ∃ text n w',
    cleanupContent rules content w = (Normal (text, n), w')
    ∧ text `sublist_of` content
    ∧ total (removalsByType (stats w')) = total (removalsByType (stats w)) + n
    ∧ filesScanned (stats w') = filesScanned (stats w)
    ∧ filesModified (stats w') = filesModified (stats w)
    ∧ disk w' = disk w ∧ console w' = console w.
Proof.
  rewrite CleanupFacts.cleanupContent_eq. eexists _, _, _. split; [done |].
  destruct (foldl_applyRule_sublist_total rules content 0 ∅) as [Hs _].
  destruct (foldl_applyRule_sublist_total rules content 0 (removalsByType (stats w)))
    as [_ Ht].
  split; [exact Hs |]. split; [| done].
  pose proof (CleanupFacts.cleanup_fields rules content (removalsByType (stats w))) as Hf.
  unfold cleanup in *. simpl.
  destruct (foldl applyRule (content, 0, removalsByType (stats w)) rules)
    as [[t n] b]. simpl in *. inversion Hf; subst. lia.
Qed.

(** What one call of [processFile] does to the state. *)
Lemma processFile_effect rules f dryRun w :
  let w1 := (processFile rules f dryRun w).2 in
  (∃ lines, console w1 = console w ++ lines
            ∧ Forall (fun l => isRemoved l = true) lines
            ∧ filesModified (stats w1) = filesModified (stats w) + length lines
            ∧ length lines ≤ 1)
  ∧ (dryRun = true → disk w1 = disk w)
  ∧ sameBut f (disk w) (disk w1).
Proof.
  assert (Hrefl : sameBut f (disk w) (disk w)) by (split; done).
  unfold processFile, readFile, writeFile, writeFileSync. run.
  destruct (readFileSync (disk w) f) as [content|e]; simpl.
  2:{ split; [exists []; rewrite app_nil_r; simpl; split; [done |]; split; [done | lia] |].
      done. }
  rewrite CleanupFacts.cleanupContent_eq. simpl.
  destruct (0 <? totalRemovals rules content) eqn:E; simpl.
  2:{ split; [exists []; rewrite app_nil_r; simpl; split; [done |]; split; [done | lia] |].
      done. }
  assert (Hl : ∃ lines, console w ++ [Removed f (totalRemovals rules content)]
                        = console w ++ lines
                        ∧ Forall (fun l => isRemoved l = true) lines
                        ∧ S (filesModified (stats w))
                          = filesModified (stats w) + length lines
                        ∧ length lines ≤ 1).
  { eexists. split; [done |]. split; [by repeat constructor | simpl; lia]. }
  destruct dryRun; simpl; [done |].
  destruct (bool_decide (f ∈ readonly (disk w))); simpl; [done |].
  split; [done |]. split; [done |].
  split; [done |]. simpl. intros p Hp. by rewrite lookup_insert_ne.
Qed.

(** X3: whatever the table, the arguments, the list of files and the
    state, the loop of [main] of the cleanup script ends normally, also
    when files cannot be read or written; it only adds lines to the
    console; it counts every file of the list as scanned; the files it
    counts as modified are as many as the lines it prints for removals,
    and no more than the files of the list. *)
Theorem main_counts rules argv files : ∀ w,
  ∃ w' lines,
    main rules argv files w = (Normal tt, w')
    ∧ console w' = console w ++ lines
    ∧ filesScanned (stats w') = filesScanned (stats w) + length files
    ∧ filesModified (stats w')
      = filesModified (stats w) + length (List.filter isRemoved lines)
    ∧ length (List.filter isRemoved lines) ≤ length files.
Proof.
  unfold main.
  generalize (bool_decide (u "--dry-run" ∈ argv)). intros dryRun.
  induction files as [|f files IH]; intros w.
  - exists w, []. simpl. rewrite app_nil_r. repeat split; lia.
  - simpl. unfold mbind, js_bind, bind, tryCatch at 1.
    pose proof (CleanupFacts.processFile_scanned rules f dryRun w) as Hs.
    destruct (processFile_effect rules f dryRun w)
      as ((l1 & Hc & HF & Hm & Hl) & _ & _).
    assert (Hfilter : List.filter isRemoved l1 = l1).
    { clear -HF. induction HF as [|l ls Hl _ IH]; simpl; [done |].
      by rewrite Hl, IH. }
    destruct (processFile rules f dryRun w) as [[[]|e] w1]; simpl in *.
    + destruct (IH w1) as (w' & l2 & -> & Hc2 & Hs2 & Hm2 & Hl2).
      exists w', (l1 ++ l2). split; [done |].
      rewrite List.filter_app, length_app, Hfilter.
      split; [by rewrite Hc2, Hc, app_assoc |]. lia.
    + destruct (IH (print (ErrorProcessing f e) w1))
        as (w' & l2 & -> & Hc2 & Hs2 & Hm2 & Hl2).
      exists w', (l1 ++ [ErrorProcessing f e] ++ l2). split; [done |].
      rewrite !List.filter_app, !length_app, Hfilter. simpl in *.
      split; [by rewrite Hc2, Hc, <- !app_assoc |]. lia.
Qed.




(** One rule with a fenced pattern, on a document with one block. *)
Lemma fenced_block_removed o c pre ws1 mid ws2 post :
  let block := ws1 ++ o ++ mid ++ c ++ ws2 in
  let doc := pre ++ block ++ post in
  o ≠ [] → stopsAt is_space o →
  Forall (fun b => is_space b = true) ws1 →
  Forall (fun b => is_space b = true) ws2 →
  endsOutside is_space pre → stopsAt is_space post →
  (∀ i, i < length pre → startsWith o (drop i doc) = false) →
  firstAt c (length mid) (mid ++ c ++ ws2 ++ post) →
  occurs o post = false →
  matchAll false (fenced o c) doc = Some [block]
  ∧ replaceAll false (fenced o c) [] doc = pre ++ post
  ∧ ∀ rule n byType,
      pattern rule = fenced o c →
      applyRule (doc, n, byType) rule
      = (pre ++ post, n + 1, addCount (name rule) 1 byType).
Proof.
  intros block doc Ho Hos H1 H2 Hpre Hpost Hfirst Hc Hafter.
  assert (Hblock : block ≠ []).
  { unfold block. destruct ws1; [destruct o |]; done. }
  assert (Hbefore : ∀ j, j < length pre →
            matchAt false (fenced o c) (0 + j) (drop j (pre ++ block ++ post)) = None).
  { intros j Hj. unfold block. rewrite <- !app_assoc.
    apply fenced_before; try done.
    intros i Hi. specialize (Hfirst i Hi). unfold doc, block in Hfirst.
    by rewrite <- !app_assoc in Hfirst. }
  assert (Hat : matchAt false (fenced o c) (0 + length pre) (block ++ post)
                = Some (mkState (0 + length pre + length block) post [])).
  { unfold block. rewrite <- !app_assoc. by apply fenced_at. }
  assert (Hrest : ∀ pos, matchAllFrom false (fenced o c) pos 0 post = []).
  { intros pos. apply matchAllFrom_opening. rewrite opening_fenced.
    by apply occurs_false. }
  assert (Hall : matchAll false (fenced o c) doc = Some [block]).
  { unfold matchAll, doc. rewrite matchAllFrom_prefix by exact Hbefore.
    rewrite (matchAllFrom_match _ _ _ _ _ _ Hblock Hat) by done.
    by rewrite Hrest. }
  assert (Hrep : replaceAll false (fenced o c) [] doc = pre ++ post).
  { unfold replaceAll, doc. rewrite replaceAllFrom_prefix by exact Hbefore.
    rewrite (replaceAllFrom_match _ _ _ _ _ _ _ Hblock Hat) by done.
    rewrite replaceAllFrom_none by apply Hrest. done. }
  split; [exact Hall |]. split; [exact Hrep |].
  intros rule n byType Hr. unfold applyRule. rewrite Hr, Hall, Hrep. done.
Qed.

(** The three rules with a fenced pattern. *)
Lemma fenced_rules :
  pattern pagination
  = fenced (u "<nav class=" ++ [DQ] ++ u "pagination-sticky")
           (u "</nav><!-- .navigation -->")
  ∧ pattern comments
    = fenced (u "<!-- Begin Comments -->") (u "<!-- End Comments -->")
  ∧ pattern articleMeta
    = fenced (u "<div class=" ++ q "article-meta" ++ u ">")
             (u "</div><!--end article-meta-->").
Proof. done. Qed.

(** Rules whose openings do not occur leave the text, the count and the
    removals as they are. *)
Lemma foldl_applyRule_unmatched rules text n bt :
  Forall (fun r => occurs (opening (pattern r)) text = false) rules →
  foldl applyRule (text, n, bt) rules = (text, n, bt).
Proof.
  intros H.
  destruct (CleanupFacts.cleanup_from rules text n bt)
    as (t & k & b & E & _ & Hall & _).
  rewrite E. destruct Hall as (-> & -> & ->).
  - eapply Forall_impl; [exact H |]. intros r Hr.
    apply matchAll_None. by apply matchAllFrom_opening, occurs_false.
  - by rewrite Nat.add_0_r.
Qed.

(** X17: for a table of rules in which one rule has a pattern made of
    white space, an opening text, anything, a closing text and white
    space, as the rules for the pagination, the comments and the article
    meta section have, and for a document made of a text that does not
    end in white space, then white space, the opening text, a middle, the
    closing text, white space, and a rest that does not begin with white
    space: when the opening text starts nowhere before the block and
    occurs nowhere after it, the first closing text after the opening
    text is the one that ends the block, and the openings of the rules
    before that rule occur nowhere in the document and those of the rules
    after it nowhere in the text around the block, the pattern has the
    block as its only match, and [cleanupContent] returns the text before
    the block followed by the text after it, with a count of one, and
    adds one to the removals of that rule. *)
Theorem block_cleaned before rule after o c pre ws1 mid ws2 post w :
  let block := ws1 ++ o ++ mid ++ c ++ ws2 in
  let doc := pre ++ block ++ post in
  pattern rule = fenced o c →
  o ≠ [] → stopsAt is_space o →
  Forall (fun b => is_space b = true) ws1 →
  Forall (fun b => is_space b = true) ws2 →
  endsOutside is_space pre → stopsAt is_space post →
  (∀ i, i < length pre → startsWith o (drop i doc) = false) →
  firstAt c (length mid) (mid ++ c ++ ws2 ++ post) →
  occurs o post = false →
  Forall (fun r => occurs (opening (pattern r)) doc = false) before →
  Forall (fun r => occurs (opening (pattern r)) (pre ++ post) = false) after →
  matchAll false (pattern rule) doc = Some [block]
  ∧ cleanupContent (before ++ rule :: after) doc w
    = (Normal (pre ++ post, 1),
       withStats (setRemovals (addCount (name rule) 1 (removalsByType (stats w)))) w).
Proof.
  intros block doc Hr Ho Hos H1 H2 Hpre Hpost Hfirst Hc Hafter Hb Ha.
  destruct (fenced_block_removed o c pre ws1 mid ws2 post)
    as (Hall & _ & Hrule); try done.
  fold block in Hall, Hrule. fold doc in Hall, Hrule.
  split; [by rewrite Hr |].
  unfold cleanupContent, cleanup.
  unfold mbind, js_bind, bind, get, modify, mret, js_ret, ret.
  rewrite foldl_app. rewrite foldl_applyRule_unmatched by done.
  cbn [foldl]. rewrite (Hrule rule 0 _ Hr).
  rewrite foldl_applyRule_unmatched by done. done.
Qed.

Lemma block_cleaned_witness :
  Part001.cleanupContent withComments (w0 (mkFs ∅ ∅))
  = (Normal (u "<p>Hi</p><footer></footer>", 1),
     mkWorld (mkStats 0 0 {[ u "Comments Section" := 1 ]}) (mkFs ∅ ∅) []).
Proof.
  apply (block_cleaned [socialShare; relatedArticles; pagination] comments
           [articleMeta; pricingStyles; pricingHtml]
           (u "<!-- Begin Comments -->") (u "<!-- End Comments -->")
           (u "<p>Hi</p>") [LF] (u "<div>old</div>") [LF] (u "<footer></footer>")
           (w0 (mkFs ∅ ∅))).
  - reflexivity.
  - done.
  - reflexivity.
  - by repeat constructor.
  - by repeat constructor.
  - reflexivity.
  - reflexivity.
  - intros i Hi. do 9 (destruct i as [|i]; [reflexivity |]). simpl in Hi. lia.
  - split; [reflexivity |].
    intros j Hj. do 14 (destruct j as [|j]; [reflexivity |]). simpl in Hj. lia.
  - by vm_compute.
  - repeat (apply List.Forall_cons; [by vm_compute |]). apply List.Forall_nil.
  - repeat (apply List.Forall_cons; [by vm_compute |]). apply List.Forall_nil.
Defined.

(** A match of such a pattern ends just before a line feed. *)
Lemma matchAt_before_LF r pos s y :
  endsBeforeLF r → matchAt false r pos s = Some y →
  ∃ n t, drop n s = LF :: t ∧ endIndex y = pos + n.
Proof.
  intros [rs ->] H.
  destruct (matchAt_moved _ _ _ _ _ H) as (n & _ & _ & He & Hr).
  apply matchAt_sound, matches_seq_last in H as (x & H).
  apply matches_Look_inv in H as (y' & H & Hrest & _).
  apply matches_Chr_inv in H as [[Hx _] _]. cbn [app] in Hx.
  exists n, (rest y'). split; [| done]. by rewrite <- Hr, Hrest.
Qed.

(** X18: every match of the pattern of the social share section, and of
    the related articles carousel, is followed at once by a line feed
    that is not part of the match; so on a document without a line feed
    the body of the loop of [cleanupContent] leaves the text, the count
    and the removals by rule as they are for these two rules, whatever
    sections the document holds. *)
Theorem sections_need_line_feed rule :
  rule = socialShare ∨ rule = relatedArticles →
  (∀ pos s y,
     matchAt false (pattern rule) pos s = Some y →
     ∃ n t, drop n s = LF :: t ∧ endIndex y = pos + n)
  ∧ (∀ content acc bt,
       LF ∉ content →
       applyRule (content, acc, bt) rule = (content, acc, bt)).
Proof.
  intros Hr.
  assert (Hends : endsBeforeLF (pattern rule)).
  { destruct Hr as [-> | ->].
    - by eexists [_; _; _; _].
    - by eexists [_; _; _; _; _; _; _; _]. }
  split.
  - intros pos s y H. by eapply matchAt_before_LF.
  - intros content acc bt HLF.
    assert (matchAll false (pattern rule) content = None) as Hn.
    { apply matchAll_None, matchAllFrom_nil. intros pre suf ->.
      destruct (matchAt false (pattern rule) (0 + length pre) suf) as [y|] eqn:E;
        [| done].
      exfalso. apply HLF.
      destruct (matchAt_before_LF _ _ _ _ Hends E) as (n & t & Hd & _).
      apply elem_of_app. right.
      rewrite <- (take_drop n suf), Hd. apply elem_of_app. right.
      apply elem_of_cons. by left. }
    unfold applyRule. by rewrite Hn.
Qed.

Lemma sections_need_line_feed_witness :
  applyRule (oneLine, 0, ∅) socialShare = (oneLine, 0, ∅).
Proof.
  apply (proj2 (sections_need_line_feed socialShare (or_introl eq_refl))).
  apply (bool_decide_unpack _). vm_compute. exact I.
Defined.

End CleanupLaws.

(** ** The audit script *)

Module AuditLaws.
Import Audit AuditTerms.

(** X5: the first two checks of the table are named Missing H1 Tag and
    Multiple H1 Tags; on every document the first fires exactly when the
    script counts no [h1] tag and the second exactly when it counts two or
    more, so never both; the detail of the second is the text
    [Found n h1 tags] with the count in decimal. *)
Theorem h1_checks content fm :
  ∃ missing multiple,
    SEO_CHECKS !! 0 = Some missing ∧ SEO_CHECKS !! 1 = Some multiple
    ∧ name missing = u "Missing H1 Tag" ∧ name multiple = u "Multiple H1 Tags"
    ∧ (check missing content fm = true ↔ h1Count content = 0)
    ∧ (check multiple content fm = true ↔ 2 ≤ h1Count content)
    ∧ (check missing content fm = true → check multiple content fm = false)
    ∧ detailsOf multiple content fm
      = Normal (Some (u "Found " ++ decimal (h1Count content) ++ u " h1 tags")).
Proof.
  eexists _, _. split; [reflexivity |]. split; [reflexivity |].
  split; [reflexivity |]. split; [reflexivity |].
  cbn [check]. unfold h1Count.
  assert (Hm : negb (test true re_h1 content) = true
               ↔ count (matchAll true re_h1 content) = 0).
  { rewrite negb_true_iff, <- matchAll_test.
    unfold count, matchAll. destruct (matchAllFrom true re_h1 0 0 content); done. }
  split; [exact Hm |]. split; [apply Nat.ltb_lt |].
  split; [| done].
  intros H. apply Hm in H. rewrite H. done.
Qed.

(** [!fm.key || fm.key.trim() === ''] holds exactly when the key is absent
    or its value is white space only. *)
Lemma blank_true v :
  blank v = true
  ↔ v = None ∨ ∃ d, v = Some d ∧ Forall (fun c => is_space c = true) d.
Proof.
  destruct v as [[|c s]|]; simpl.
  - split; [right; eauto | done].
  - destruct (trim (c :: s)) eqn:E.
    + split; [| done]. intros _. right. exists (c :: s). split; [done |].
      by apply trim_nil.
    + split; [done |]. intros [H | (d & H & HF)]; [done |].
      inversion H; subst. apply trim_nil in HF. congruence.
  - split; [by left | done].
Qed.

(** X6: the checks named Missing Title, Missing Description and Missing
    OG Image are at the indices 2, 3 and 7 of the table, and each fires
    exactly when its key, [title], [description] or [ogImage], is absent
    from the header or holds white space only. *)
Theorem missing_key_checks content fm :
  ∃ noTitle noDescription noImage,
    SEO_CHECKS !! 2 = Some noTitle ∧ SEO_CHECKS !! 3 = Some noDescription
    ∧ SEO_CHECKS !! 7 = Some noImage
    ∧ name noTitle = u "Missing Title"
    ∧ name noDescription = u "Missing Description"
    ∧ name noImage = u "Missing OG Image"
    ∧ (check noTitle content fm = true ↔ blankValue (fm !! u "title"))
    ∧ (check noDescription content fm = true
       ↔ blankValue (fm !! u "description"))
    ∧ (check noImage content fm = true ↔ blankValue (fm !! u "ogImage")).
Proof.
  eexists _, _, _. do 6 (split; [reflexivity |]).
  repeat split; apply blank_true.
Qed.

(** X7: on every document, the check Description Too Short fires exactly
    when the description is present with 1 to 49 units, and Description
    Too Long exactly when it has more than 160; where Truncated
    Description fires, neither Missing Description nor Description Too
    Short does; Too Short and Too Long never fire together; and on a
    header without a description, or with an empty one, Missing
    Description fires and none of the other three. *)
Theorem description_checks content fm :
  ∃ noDescription truncated tooShort tooLong,
    SEO_CHECKS !! 3 = Some noDescription ∧ SEO_CHECKS !! 4 = Some truncated
    ∧ SEO_CHECKS !! 5 = Some tooShort ∧ SEO_CHECKS !! 6 = Some tooLong
    ∧ (check tooShort content fm = true
       ↔ ∃ d, description fm = Some d ∧ 0 < length d < 50)
    ∧ (check tooLong content fm = true
       ↔ ∃ d, description fm = Some d ∧ 160 < length d)
    ∧ (check truncated content fm = true →
       check noDescription content fm = false
       ∧ check tooShort content fm = false)
    ∧ (check tooShort content fm = true → check tooLong content fm = false)
    ∧ (description fm = None ∨ description fm = Some [] →
       check noDescription content fm = true
       ∧ check truncated content fm = false
       ∧ check tooShort content fm = false
       ∧ check tooLong content fm = false).
Proof.
  eexists _, _, _, _. do 4 (split; [reflexivity |]). cbn [check].
  unfold truncatedDescription. split; [| split; [| split; [| split]]].
  - destruct (description fm) as [[|c s]|]; cbn [truthy default andb id].
    + split; [done |]. intros (d & H & Hl). inversion H; subst. simpl in Hl. lia.
    + rewrite Nat.ltb_lt. split.
      * intros H. exists (c :: s). split; [done |]. cbn [length] in *. lia.
      * intros (d & H & Hl). inversion H; subst. lia.
    + split; [done |]. by intros (d & H & _).
  - destruct (description fm) as [[|c s]|]; cbn [truthy default andb id].
    + split; [done |]. intros (d & H & Hl). inversion H; subst. simpl in Hl. lia.
    + rewrite Nat.ltb_lt. split.
      * intros H. exists (c :: s). split; [done |]. done.
      * intros (d & H & Hl). inversion H; subst. lia.
    + split; [done |]. by intros (d & H & _).
  - destruct (description fm) as [[|c s]|]; try done.
    intros H. apply andb_true_iff in H as [H _]. apply Nat.ltb_lt in H.
    pose proof (trim_length (c :: s)) as Hl. split.
    + simpl. destruct (trim (c :: s)); [simpl in H; lia | done].
    + cbn [truthy default andb id]. apply Nat.ltb_ge. cbn [length] in *. lia.
  - destruct (description fm) as [[|c s]|]; try done.
    cbn [truthy default andb id]. intros H. apply Nat.ltb_lt in H.
    apply Nat.ltb_ge. cbn [length] in *. lia.
  - intros [-> | ->]; done.
Qed.

Lemma named_app n l1 l2 : named n (l1 ++ l2) = named n l1 + named n l2.
Proof. unfold named. by rewrite List.filter_app, length_app. Qed.

Lemma graded_app sev l1 l2 : graded sev (l1 ++ l2) = graded sev l1 + graded sev l2.
Proof. unfold graded. by rewrite List.filter_app, length_app. Qed.

Lemma addCount_lookup (k n : jsstring) (m : gmap jsstring nat) :
  default 0 (addCount k 1 m !! n)
  = default 0 (m !! n) + (if bool_decide (k = n) then 1 else 0).
Proof.
  unfold addCount. case_bool_decide as E.
  - subst. by rewrite lookup_insert_eq.
  - rewrite lookup_insert_ne by done. lia.
Qed.

Lemma counter_bump sev counts sev' :
  counter sev' (bump sev counts)
  = counter sev' counts + (if bool_decide (sev = sev') then 1 else 0).
Proof. destruct sev, sev'; simpl; lia. Qed.

(** What the loop over the checks adds: the new findings, each counted
    once by name and once by severity. *)
Lemma runChecks_accounts checks minLevel content fm : ∀ found st found' st',
  runChecks checks minLevel content fm found st = (Normal found', st') →
  ∃ new, found' = found ++ new
    ∧ (∀ n, default 0 (issuesByType st' !! n)
            = default 0 (issuesByType st !! n) + named n new)
    ∧ (∀ sev, counter sev (issuesBySeverity st')
              = counter sev (issuesBySeverity st) + graded sev new)
    ∧ fileIssues st' = fileIssues st ∧ filesScanned st' = filesScanned st.
Proof.
  induction checks as [|ck checks IH]; intros found st found' st' H.
  - inversion H; subst. exists []. rewrite app_nil_r.
    split; [done |]. split; [intros; unfold named; simpl; lia |].
    split; [intros; unfold graded; simpl; lia | done].
  - cbn [runChecks] in H.
    destruct (severityLevels (severity ck) <? minLevel); [by eapply IH |].
    destruct (check ck content fm); [| by eapply IH].
    unfold mbind, js_bind, bind, lift, modify in H.
    destruct (detailsOf ck content fm) as [d|]; [| discriminate].
    apply IH in H as (new & -> & Hn & Hs & Hf & Hc).
    exists (mkIssue (name ck) (severity ck) d :: new).
    split; [by rewrite <- app_assoc |].
    split; [| split; [| done]].
    + intros n. rewrite Hn. simpl. rewrite addCount_lookup.
      unfold named. simpl. destruct (bool_decide (name ck = n)); simpl; lia.
    + intros sev. rewrite Hs. simpl. rewrite counter_bump.
      unfold graded. simpl. destruct (bool_decide (severity ck = sev)); simpl; lia.
Qed.

Lemma auditFile_accounted fs minLevel f st :
  accounted st →
  accounted (auditFile fs minLevel f st).2
  ∧ ∀ st', auditFile fs minLevel f st = (Normal tt, st') →
           filesScanned st' = S (filesScanned st).
Proof.
  intros (Hn & Hs & Hne & Hl). unfold auditFile.
  unfold mbind, js_bind, bind, lift, modify, mret, js_ret, ret.
  destruct (readFileSync fs f) as [content|e]; [| split; [done | intros; done]].
  destruct (AuditFacts.runChecks_normal SEO_CHECKS minLevel content
              (parseFrontmatter content)
              (fun ck Hin Hck => AuditFacts.details_defined content _ ck Hin Hck)
              [] (scanned st)) as (found & st1 & E).
  rewrite E.
  apply runChecks_accounts in E as (new & Hnew & Hn1 & Hs1 & Hf1 & Hc1).
  simpl in Hnew. subst new.
  assert (Hzero : ∀ n, named n [] = 0) by done.
  assert (Hzero' : ∀ sev, graded sev [] = 0) by done.
  destruct found as [|i found]; cbn [length Nat.ltb Nat.leb].
  - split; [| intros st' H; inversion H; subst; by rewrite Hc1].
    cbn [snd]. unfold accounted.
    assert (allIssues st1 = allIssues st) as Ha
      by (unfold allIssues; by rewrite Hf1).
    rewrite Ha, Hf1, Hc1. cbn [scanned fileIssues filesScanned].
    split; [intros n; rewrite Hn1, Hzero; cbn [scanned issuesByType];
            rewrite Hn; lia |].
    split; [intros sev; rewrite Hs1, Hzero'; cbn [scanned issuesBySeverity];
            rewrite Hs; lia |].
    split; [done | lia].
  - split; [| intros st' H; inversion H; subst; simpl; by rewrite Hc1].
    cbn [snd]. unfold accounted.
    assert (allIssues (report (mkReport f (titleOr (parseFrontmatter content))
                                        (i :: found)) st1)
            = allIssues st ++ (i :: found)) as Ha.
    { unfold allIssues, report. cbn [fileIssues]. rewrite Hf1.
      cbn [scanned fileIssues].
      rewrite List.map_app, List.concat_app. cbn [List.map List.concat issues].
      by rewrite app_nil_r. }
    rewrite Ha. unfold report.
    cbn [fileIssues issuesByType issuesBySeverity filesScanned].
    rewrite ?Hf1, ?Hc1. cbn [scanned fileIssues filesScanned].
    split; [intros n; rewrite Hn1, named_app; cbn [scanned issuesByType];
            by rewrite Hn |].
    split; [intros sev; rewrite Hs1, graded_app; cbn [scanned issuesBySeverity];
            by rewrite Hs |].
    split; [apply Forall_app; split; [done | by repeat constructor] |].
    rewrite length_app. simpl. lia.
Qed.

Lemma forOf_accounted fs minLevel files : ∀ st,
  accounted st →
  accounted (forOf files (auditFile fs minLevel) st).2
  ∧ ∀ st', forOf files (auditFile fs minLevel) st = (Normal tt, st') →
           filesScanned st' = filesScanned st + length files.
Proof.
  induction files as [|f files IH]; intros st H.
  - simpl. split; [done |]. intros st' E. inversion E; subst. lia.
  - cbn [forOf]. unfold mbind, js_bind, bind.
    destruct (auditFile_accounted fs minLevel f st H) as [Ha Hn].
    destruct (auditFile fs minLevel f st) as [[[]|e] st1]; cbn [snd] in *.
    + destruct (IH st1 Ha) as [Ha' Hn']. split; [done |].
      intros st' E. rewrite (Hn' st' E), (Hn st1 eq_refl). simpl. lia.
    + split; [done | intros; done].
Qed.

(** X8: after the loop of [main] of the audit script, started from the
    initial statistics and however it ends, the counter of every check
    name and of every severity is the number of findings of that name or
    severity in the reports of the files, no report is without a finding,
    and there are no more reports than files scanned; when the loop ends
    normally every file of the list has been scanned. *)
Theorem statistics_account argv fs files :
  accounted (main argv fs files stats0).2
  ∧ ∀ st, main argv fs files stats0 = (Normal tt, st) →
          filesScanned st = length files.
Proof.
  unfold main.
  destruct (forOf_accounted fs (levelOf (minSeverityOf argv)) files stats0)
    as [Ha Hn].
  - unfold accounted, allIssues. simpl. repeat split; try done.
    intros []; done.
  - split; [done |]. intros st E. by rewrite (Hn st E).
Qed.

Lemma crlf_at pos s :
  matchAt false re_crlf pos s
  = match s with
    | c :: d :: t =>
        if (CR =? c)%N && (LF =? d)%N
        then Some (mkState (S (S pos)) t [])
        else None
    | _ => None
    end.
Proof.
  unfold matchAt, re_crlf. cbn [lit matcher rest].
  destruct s as [|c [|d t]]; [done | |]; rewrite chr_eq_false.
  - by destruct (CR =? c)%N.
  - destruct (CR =? c)%N; [| done]. cbn [advance rest andb].
    rewrite chr_eq_false. by destruct (LF =? d)%N.
Qed.

Lemma crlf_at_other pos c t :
  c ≠ CR → matchAt false re_crlf pos (c :: t) = None.
Proof.
  intros H. rewrite crlf_at.
  assert ((CR =? c)%N = false) as E by (apply N.eqb_neq; congruence).
  destruct t; [done | by rewrite E].
Qed.

Lemma normalize_unix s : ∀ pos,
  CR ∉ s → replaceAllFrom false re_crlf [LF] pos 0 s = s.
Proof.
  induction s as [|c t IH]; intros pos H.
  - cbn [toCRLF replaceAllFrom]. by rewrite crlf_at.
  - apply not_elem_of_cons in H as [Hc Ht].
    cbn [replaceAllFrom]. rewrite crlf_at_other by congruence.
    by rewrite IH.
Qed.

Lemma normalize_windows s : ∀ pos,
  CR ∉ s → replaceAllFrom false re_crlf [LF] pos 0 (toCRLF s) = s.
Proof.
  induction s as [|c t IH]; intros pos H.
  - cbn [toCRLF replaceAllFrom]. by rewrite crlf_at.
  - apply not_elem_of_cons in H as [Hc Ht]. cbn [toCRLF].
    destruct (N.eqb_spec c LF) as [->|Hn].
    + cbn [app replaceAllFrom]. rewrite crlf_at. cbn -[replaceAllFrom].
      replace (S (S pos) - pos) with 2 by lia. cbn [Nat.eqb pred app].
      rewrite IH by done. done.
    + cbn [app replaceAllFrom]. rewrite crlf_at_other by congruence.
      by rewrite IH.
Qed.

(** X9: for every text without a carriage return, the normalisation of
    line ends leaves the text as it is, and gives it back from its
    rendering with a carriage return before every line feed; so the
    header and the parsed metadata of that rendering are those of the
    text. *)
Theorem windows_line_ends s :
  CR ∉ s →
  normalizedContent s = s
  ∧ normalizedContent (toCRLF s) = s
  ∧ headerBlock (toCRLF s) = headerBlock s
  ∧ parseFrontmatter (toCRLF s) = parseFrontmatter s.
Proof.
  intros H.
  assert (normalizedContent s = s) as H1 by (by apply normalize_unix).
  assert (normalizedContent (toCRLF s) = s) as H2 by (by apply normalize_windows).
  assert (headerBlock (toCRLF s) = headerBlock s) as H3
    by (unfold headerBlock; by rewrite H1, H2).
  repeat split; try done. unfold parseFrontmatter. by rewrite H3.
Qed.

Lemma windows_line_ends_witness :
  (CR ∉ helloSpaced)
  ∧ parseFrontmatter (toCRLF helloSpaced) = parseFrontmatter helloSpaced.
Proof.
  assert (CR ∉ helloSpaced) as H
    by (apply (bool_decide_unpack _); vm_compute; exact I).
  split; [exact H |]. apply (windows_line_ends helloSpaced H).
Defined.

Lemma quoted_sound line y :
  matchAt false re_quoted 0 line = Some y →
  ∃ k v, captures y = [(2, v); (1, k)] ∧ entryOf line k v.
Proof.
  intros H. apply matchAt_sound in H. unfold re_quoted in H. cbn [seq] in H.
  apply matches_Seq_inv in H as (x1 & H0 & H). apply matches_Bol_inv in H0 as [-> _].
  apply matches_Seq_inv in H as (x2 & H1 & H).
  apply matches_grp_rep_cls in H1 as (k & [Hk1 Hk2] & Hck & HFk & Hnk).
  apply matches_Seq_inv in H as (x3 & H2 & H).
  apply matches_Chr_inv in H2 as [[Hc1 Hc2] Hcc].
  apply matches_Seq_inv in H as (x4 & H3 & H).
  apply matches_rep_cls in H3 as (ws & [Hs1 Hs2] & Hcs & _ & _).
  apply matches_Seq_inv in H as (x5 & H4 & H).
  apply matches_Cls_inv in H4 as (q1 & [Hq1 Hq2] & Hcq & _).
  apply matches_Seq_inv in H as (x6 & H5 & H).
  apply matches_grp_rep_cls in H5 as (v & [Hv1 Hv2] & Hcv & HFv & _).
  apply matches_Seq_inv in H as (x7 & H6 & H).
  apply matches_Cls_inv in H6 as (q2 & [Hr1 Hr2] & Hcr & _).
  apply matches_Seq_inv in H as (x8 & H7 & H).
  apply matches_rep_cls in H7 as (ws' & [Ht1 Ht2] & Hct & _ & _).
  apply matches_Eol_inv in H as [-> He].
  exists k, v. split.
  - rewrite Hct, Hcr, Hcv, Hcq, Hcs, Hcc, Hck. done.
  - split; [destruct k; [simpl in Hnk; lia | done] |].
    split; [by apply Forall_cls |]. split; [by apply Forall_cls |].
    cbn [rest] in Hk1. exists (ws ++ [q1] ++ v ++ [q2] ++ ws').
    split.
    + rewrite Hk1, Hc1, Hs1, Hq1, Hv1, Hr1, Ht1, He, app_nil_r. done.
    + exists (ws ++ [q1]), ([q2] ++ ws'). by rewrite <- !app_assoc.
Qed.

Lemma bare_sound line y :
  matchAt false re_bare 0 line = Some y →
  ∃ k v, captures y = [(2, v); (1, k)] ∧ entryOf line k v ∧ v ≠ [].
Proof.
  intros H. apply matchAt_sound in H. unfold re_bare in H. cbn [seq] in H.
  apply matches_Seq_inv in H as (x1 & H0 & H). apply matches_Bol_inv in H0 as [-> _].
  apply matches_Seq_inv in H as (x2 & H1 & H).
  apply matches_grp_rep_cls in H1 as (k & [Hk1 Hk2] & Hck & HFk & Hnk).
  apply matches_Seq_inv in H as (x3 & H2 & H).
  apply matches_Chr_inv in H2 as [[Hc1 Hc2] Hcc].
  apply matches_Seq_inv in H as (x4 & H3 & H).
  apply matches_rep_cls in H3 as (ws & [Hs1 Hs2] & Hcs & _ & _).
  apply matches_Seq_inv in H as (x6 & H5 & H).
  apply matches_grp_rep_cls in H5 as (v & [Hv1 Hv2] & Hcv & HFv & Hnv).
  apply matches_Seq_inv in H as (x8 & H7 & H).
  apply matches_rep_cls in H7 as (ws' & [Ht1 Ht2] & Hct & _ & _).
  apply matches_Eol_inv in H as [-> He].
  exists k, v. split; [| split].
  - rewrite Hct, Hcv, Hcs, Hcc, Hck. done.
  - split; [destruct k; [simpl in Hnk; lia | done] |].
    split; [by apply Forall_cls |]. split; [by apply Forall_cls |].
    cbn [rest] in Hk1. exists (ws ++ v ++ ws').
    split.
    + rewrite Hk1, Hc1, Hs1, Hv1, Ht1, He, app_nil_r. done.
    + by exists ws, ws'.
  - destruct v; [simpl in Hnv; lia | done].
Qed.

Lemma keyMatch_sound line m :
  keyMatch line = Some m →
  ∃ k v, group 1 (groups m) = Some k ∧ group 2 (groups m) = Some v
         ∧ entryOf line k v.
Proof.
  unfold keyMatch.
  assert (Hq : ∀ m, exec false re_quoted line = Some m →
               ∃ y, matchAt false re_quoted 0 line = Some y ∧ groups m = captures y).
  { intros m0. unfold re_quoted at 1. cbn [seq]. rewrite exec_anchored.
    change (matchAt false (Seq Bol _) 0 line) with (matchAt false re_quoted 0 line).
    destruct (matchAt false re_quoted 0 line) as [y|]; [| done].
    intros E. inversion E; subst. eauto. }
  assert (Hb : ∀ m, exec false re_bare line = Some m →
               ∃ y, matchAt false re_bare 0 line = Some y ∧ groups m = captures y).
  { intros m0. unfold re_bare at 1. cbn [seq]. rewrite exec_anchored.
    change (matchAt false (Seq Bol _) 0 line) with (matchAt false re_bare 0 line).
    destruct (matchAt false re_bare 0 line) as [y|]; [| done].
    intros E. inversion E; subst. eauto. }
  destruct (exec false re_quoted line) as [m0|] eqn:E.
  - intros Hm. inversion Hm; subst.
    destruct (Hq m eq_refl) as (y & Hy & ->).
    apply quoted_sound in Hy as (k & v & -> & He). exists k, v. done.
  - intros Hm. destruct (Hb m Hm) as (y & Hy & ->).
    apply bare_sound in Hy as (k & v & -> & He & _). exists k, v. done.
Qed.

(** A line changes the header only by storing an entry of that line, under
    a key that is not [__proto__]. *)
Lemma parseLine_cases fm line :
  parseLine fm line = fm
  ∨ ∃ k v, parseLine fm line = <[k := v]> fm ∧ entryOf line k v
           ∧ k ≠ u "__proto__".
Proof.
  unfold parseLine. destruct (keyMatch line) as [m|] eqn:E; [| by left].
  apply keyMatch_sound in E as (k & v & -> & -> & He).
  unfold setProperty. case_bool_decide; [by left |]. right. eauto.
Qed.

Lemma foldl_parseLine_entries lines : ∀ fm k v,
  foldl parseLine fm lines !! k = Some v →
  fm !! k = Some v
  ∨ ∃ line, line ∈ lines ∧ entryOf line k v ∧ k ≠ u "__proto__".
Proof.
  induction lines as [|line lines IH]; intros fm k v H; [by left |].
  cbn [foldl] in H. apply IH in H as [H | (l & Hl & He)].
  - destruct (parseLine_cases fm line) as [E | (k' & v' & E & He & Hp)];
      rewrite E in H; [by left |].
    destruct (decide (k' = k)) as [->|Hne].
    + rewrite lookup_insert_eq in H. inversion H; subst.
      right. exists line. split; [apply elem_of_cons; by left | done].
    + rewrite lookup_insert_ne in H by done. by left.
  - right. exists l. split; [apply elem_of_cons; by right | done].
Qed.

(** X10: every entry of the object that [parseFrontmatter] returns comes
    from a line of the header: its key is not empty, is made of word
    characters and is not [__proto__]; its value holds no line
    terminator; and some line of the header is the key, a colon, and a
    rest in which the value occurs. *)
Theorem parsed_entries content k v :
  parseFrontmatter content !! k = Some v →
  k ≠ [] ∧ Forall (fun c => is_word c = true) k ∧ k ≠ u "__proto__"
  ∧ Forall (fun c => is_dot c = true) v
  ∧ ∃ body line tail,
      headerBlock content = Some body ∧ line ∈ split LF body
      ∧ line = k ++ [58%N] ++ tail ∧ contains v tail.
Proof.
  unfold parseFrontmatter. destruct (headerBlock content) as [body|]; [| done].
  intros H. apply foldl_parseLine_entries in H as [H | (line & Hl & He & Hp)];
    [done |].
  destruct He as (Hk & Hw & Hd & tail & Hline & Hc).
  repeat split; try done. exists body, line, tail. done.
Qed.

Lemma parsed_entries_witness :
  ∃ body line tail,
    headerBlock noImagePage = Some body ∧ line ∈ split LF body
    ∧ line = u "ogUrl" ++ [58%N] ++ tail
    ∧ contains (u "https://example.org/hello/") tail.
Proof.
  apply (parsed_entries noImagePage (u "ogUrl") (u "https://example.org/hello/")).
  vm_compute. reflexivity.
Defined.

Lemma quote_not_space q : one_of [DQ; SQ] q = true → is_space q = false.
Proof.
  intros H. apply one_of_true in H.
  repeat (apply elem_of_cons in H as [->|H]; [done |]). by apply elem_of_nil in H.
Qed.

Lemma colon_not_word : is_word 58 = false.
Proof. done. Qed.

Lemma space_not_quote b : is_space b = true → one_of [DQ; SQ] b = false.
Proof.
  intros H. destruct (one_of [DQ; SQ] b) eqn:E; [| done].
  apply quote_not_space in E. congruence.
Qed.

Lemma quoted_match k ws q1 v q2 ws' :
  k ≠ [] → Forall (fun c => is_word c = true) k →
  Forall (fun c => is_space c = true) ws →
  one_of [DQ; SQ] q1 = true →
  Forall (fun c => is_dot c = true) v →
  one_of [DQ; SQ] q2 = true →
  Forall (fun c => is_space c = true) ws' →
  ∃ y, matchAt false re_quoted 0
         (k ++ [58%N] ++ ws ++ [q1] ++ v ++ [q2] ++ ws') = Some y
       ∧ captures y = [(2, v); (1, k)].
Proof.
  intros Hk HFk HFs Hq1 HFv Hq2 HFs'.
  eexists. split; [| shelve].
  unfold matchAt, re_quoted. cbn [seq].
  rewrite matcher_Seq, matcher_Bol_0, matcher_Seq, matcher_Grp.
  unfold plus, cls_word. rewrite matcher_Rep. cbn [rest].
  eapply (greedy_takes_run _ _ _ k); try done.
  { destruct k; [done | simpl; lia]. }
  rewrite capture_run. cbn [app].
  rewrite matcher_Seq, matcher_Chr_cons, matcher_Seq.
  unfold star, cls_space. rewrite matcher_Rep. cbn [rest].
  eapply (greedy_takes_run _ _ _ ws); try done.
  { simpl. by apply quote_not_space. }
  { lia. }
  cbn [app]. rewrite matcher_Seq. unfold quote.
  rewrite matcher_cls_cons, Hq1, matcher_Seq, matcher_Grp.
  unfold cls_dot. rewrite matcher_Rep. cbn [rest].
  eapply (greedy_last _ _ _ v); try done.
  - rewrite capture_run. cbn [app].
    rewrite matcher_Seq, matcher_cls_cons, Hq2.
    fold cls_space. fold (star cls_space).
    rewrite spaces_to_end_Some by done. reflexivity.
  - intros j caps' Hj Hjt. cbn [app] in *.
    destruct j as [|j]; [lia |]. cbn [drop].
    unfold capture. cbn [endIndex rest captures]. rewrite matcher_Seq.
    destruct (drop j ws') as [|b t] eqn:E; [done |].
    rewrite matcher_cls_cons.
    assert (is_space b = true) as Hsb.
    { apply (Forall_drop _ j) in HFs'. rewrite E in HFs'. by inversion HFs'. }
    by rewrite (space_not_quote b Hsb).
  Unshelve. reflexivity.
Qed.

(** The shape of a line that the quoted pattern matches. *)
Lemma quoted_shape line y :
  matchAt false re_quoted 0 line = Some y →
  ∃ k ws q1 rem,
    line = k ++ [58%N] ++ ws ++ [q1] ++ rem
    ∧ Forall (fun c => is_word c = true) k
    ∧ Forall (fun c => is_space c = true) ws
    ∧ one_of [DQ; SQ] q1 = true.
Proof.
  intros H. apply matchAt_sound in H. unfold re_quoted in H. cbn [seq] in H.
  apply matches_Seq_inv in H as (x1 & H0 & H). apply matches_Bol_inv in H0 as [-> _].
  apply matches_Seq_inv in H as (x2 & H1 & H).
  apply matches_grp_rep_cls in H1 as (k & [Hk1 Hk2] & Hck & HFk & Hnk).
  apply matches_Seq_inv in H as (x3 & H2 & H).
  apply matches_Chr_inv in H2 as [[Hc1 Hc2] Hcc].
  apply matches_Seq_inv in H as (x4 & H3 & H).
  apply matches_rep_cls in H3 as (ws & [Hs1 Hs2] & Hcs & HFs & _).
  apply matches_Seq_inv in H as (x5 & H4 & _).
  apply matches_Cls_inv in H4 as (q1 & [Hq1 Hq2] & Hcq & Hq).
  exists k, ws, q1, (rest x5). cbn [rest] in Hk1.
  split; [by rewrite Hk1, Hc1, Hs1, Hq1 |].
  split; [by apply Forall_cls |]. split; [by apply Forall_cls |].
  by rewrite cls_false_mem in Hq.
Qed.

Lemma bare_match k ws v ws' :
  k ≠ [] → Forall (fun c => is_word c = true) k →
  Forall (fun c => is_space c = true) ws →
  v ≠ [] → Forall (fun c => is_dot c = true) v → trim v = v →
  Forall (fun c => is_space c = true) ws' →
  ∃ y, matchAt false re_bare 0 (k ++ [58%N] ++ ws ++ v ++ ws') = Some y
       ∧ captures y = [(2, v); (1, k)].
Proof.
  intros Hk HFk HFs Hv HFv Htrim HFs'.
  destruct (trim_fixed v Htrim) as [Hfirst Hlast].
  eexists. split; [| shelve].
  unfold matchAt, re_bare. cbn [seq].
  rewrite matcher_Seq, matcher_Bol_0, matcher_Seq, matcher_Grp.
  unfold plus, cls_word. rewrite matcher_Rep. cbn [rest].
  eapply (greedy_takes_run _ _ _ k); try done.
  { destruct k; [done | simpl; lia]. }
  rewrite capture_run. cbn [app].
  rewrite matcher_Seq, matcher_Chr_cons, matcher_Seq.
  unfold star, cls_space. rewrite matcher_Rep. cbn [rest].
  eapply (greedy_takes_run _ _ _ ws); try done.
  { destruct v; [done | exact Hfirst]. }
  { lia. }
  rewrite matcher_Seq, matcher_Grp.
  unfold plus_lazy, cls_dot. rewrite matcher_Rep. cbn [rest].
  eapply (lazy_first _ _ _ v); try done.
  - destruct v; [done | simpl; lia].
  - rewrite capture_run.
    fold cls_space. fold (star cls_space).
    rewrite spaces_to_end_Some by done. reflexivity.
  - intros j Hj1 Hj2. unfold capture. cbn [endIndex rest captures].
    fold cls_space. fold (star cls_space).
    apply spaces_to_end_None. by apply not_all_spaces_after.
  Unshelve. reflexivity.
Qed.

Lemma quoted_fails k ws v ws' :
  Forall (fun c => is_word c = true) k →
  Forall (fun c => is_space c = true) ws →
  v ≠ [] → trim v = v →
  (∀ c, head v = Some c → one_of [DQ; SQ] c = false) →
  exec false re_quoted (k ++ [58%N] ++ ws ++ v ++ ws') = None.
Proof.
  intros HFk HFs Hv Htrim Hq.
  unfold re_quoted at 1. cbn [seq]. rewrite exec_anchored.
  change (matchAt false (Seq Bol _) 0 ?l) with (matchAt false re_quoted 0 l).
  destruct (matchAt false re_quoted 0 _) as [y|] eqn:E; [| done].
  exfalso. apply quoted_shape in E as (k' & ws1 & q1 & rem & Hl & HFk' & HFs1 & Hq1).
  destruct (trim_fixed v Htrim) as [Hfirst _].
  destruct v as [|v0 v']; [done |]. simpl in Hfirst.
  cbn [app] in Hl.
  apply (run_unique is_word) in Hl as (-> & _ & Hl); try done.
  apply (run_unique is_space) in Hl as (_ & -> & _); try done.
  - rewrite (Hq q1 eq_refl) in Hq1. done.
  - by apply quote_not_space.
Qed.

(** A line with a bare value. *)
Lemma parseLine_bare fm k ws v ws' :
  k ≠ [] → Forall (fun c => is_word c = true) k →
  Forall (fun c => is_space c = true) ws →
  v ≠ [] → Forall (fun c => is_dot c = true) v → trim v = v →
  (∀ c, head v = Some c → one_of [DQ; SQ] c = false) →
  Forall (fun c => is_space c = true) ws' →
  parseLine fm (k ++ [58%N] ++ ws ++ v ++ ws') = setProperty k v fm.
Proof.
  intros Hk HFk HFs Hv HFv Htrim Hq HFs'.
  unfold parseLine, keyMatch. rewrite quoted_fails by done.
  destruct (bare_match k ws v ws') as (y & Hy & Hc); try done.
  unfold re_bare at 1. cbn [seq]. rewrite exec_anchored.
  change (matchAt false (Seq Bol _) 0 ?l) with (matchAt false re_bare 0 l).
  rewrite Hy. cbn [groups]. rewrite Hc. done.
Qed.

(** A line with a quoted value. *)
Lemma parseLine_quoted fm k ws q1 v q2 ws' :
  k ≠ [] → Forall (fun c => is_word c = true) k →
  Forall (fun c => is_space c = true) ws →
  one_of [DQ; SQ] q1 = true →
  Forall (fun c => is_dot c = true) v →
  one_of [DQ; SQ] q2 = true →
  Forall (fun c => is_space c = true) ws' →
  parseLine fm (k ++ [58%N] ++ ws ++ [q1] ++ v ++ [q2] ++ ws')
  = setProperty k v fm.
Proof.
  intros Hk HFk HFs Hq1 HFv Hq2 HFs'.
  unfold parseLine, keyMatch.
  destruct (quoted_match k ws q1 v q2 ws') as (y & Hy & Hc); try done.
  unfold re_quoted at 1. cbn [seq]. rewrite exec_anchored.
  change (matchAt false (Seq Bol _) 0 ?l) with (matchAt false re_quoted 0 l).
  rewrite Hy. cbn [groups]. rewrite Hc. done.
Qed.

(** X11: a line made of a key of word characters, a colon, white space,
    a value and white space sets the key to exactly that value, when the
    value is not empty, holds no line terminator, has no white space at
    either end and does not begin with a quote. *)
Theorem bare_line fm k ws v ws' :
  k ≠ [] → Forall (fun c => is_word c = true) k →
  Forall (fun c => is_space c = true) ws →
  v ≠ [] → Forall (fun c => is_dot c = true) v → trim v = v →
  (∀ c, head v = Some c → one_of [DQ; SQ] c = false) →
  Forall (fun c => is_space c = true) ws' →
  parseLine fm (k ++ [58%N] ++ ws ++ v ++ ws') = setProperty k v fm.
Proof. apply parseLine_bare. Qed.

Lemma bare_line_witness :
  parseLine ∅ (u "title: Hello World  ") = {[ u "title" := u "Hello World" ]}.
Proof.
  apply (bare_line ∅ (u "title") [32%N] (u "Hello World") [32%N; 32%N]).
  - done.
  - by repeat constructor.
  - by repeat constructor.
  - done.
  - by repeat constructor.
  - by vm_compute.
  - intros c Hc. by inversion Hc.
  - by repeat constructor.
Defined.

(** X12: a line made of a key of word characters, a colon, white space, a
    quote, a value without line terminator, a quote and white space sets
    the key to exactly the value between the quotes; each quote is a
    single or a double one, and the two need not be the same. *)
Theorem quoted_line fm k ws q1 v q2 ws' :
  k ≠ [] → Forall (fun c => is_word c = true) k →
  Forall (fun c => is_space c = true) ws →
  one_of [DQ; SQ] q1 = true →
  Forall (fun c => is_dot c = true) v →
  one_of [DQ; SQ] q2 = true →
  Forall (fun c => is_space c = true) ws' →
  parseLine fm (k ++ [58%N] ++ ws ++ [q1] ++ v ++ [q2] ++ ws')
  = setProperty k v fm.
Proof. apply parseLine_quoted. Qed.

Lemma quoted_line_witness :
  parseLine ∅ (u "title: " ++ [DQ] ++ u "Hello, World" ++ [SQ] ++ u " ")
  = {[ u "title" := u "Hello, World" ]}.
Proof.
  apply (quoted_line ∅ (u "title") [32%N] DQ (u "Hello, World") SQ [32%N]).
  - done.
  - by repeat constructor.
  - by repeat constructor.
  - done.
  - by repeat constructor.
  - done.
  - by repeat constructor.
Defined.

(** X13: a line of the header that holds no colon, or that does not begin
    with a word character, such as an indented line or a list item,
    leaves the object as it is. *)
Theorem ignored_lines fm line :
  58%N ∉ line ∨ stopsAt is_word line →
  parseLine fm line = fm.
Proof.
  intros H.
  destruct (parseLine_cases fm line)
    as [E | (k & v & _ & (Hk & HFk & _ & tail & Hl & _) & _)]; [done |].
  exfalso. destruct H as [H | H].
  - apply H. rewrite Hl. apply elem_of_app. right. apply elem_of_cons. by left.
  - destruct k as [|c k]; [done |]. rewrite Hl in H. simpl in H.
    inversion HFk; congruence.
Qed.

Lemma ignored_lines_witness :
  parseLine {[ u "title" := u "A" ]} (u "  - a list item: indented")
  = {[ u "title" := u "A" ]}.
Proof.
  apply ignored_lines. right. reflexivity.
Defined.

Lemma levelOf_range s : 1 ≤ levelOf s ≤ 3.
Proof. unfold levelOf. repeat case_bool_decide; lia. Qed.

(** X14: whatever the arguments, no check of severity error is
    suppressed; with the threshold [error] exactly the checks of severity
    error are run, with [warning] exactly those that are not of severity
    info, and with any other threshold every check; without an argument
    that starts with [--severity=] every check is run. *)
Theorem threshold_levels argv :
  let threshold := minSeverityOf argv in
  let level := levelOf threshold in
  (∀ ck, severity ck = Error → allowed level ck = true)
  ∧ (threshold = u "error" →
     ∀ ck, allowed level ck = true ↔ severity ck = Error)
  ∧ (threshold = u "warning" →
     ∀ ck, allowed level ck = true ↔ severity ck ≠ Info)
  ∧ (threshold ≠ u "error" → threshold ≠ u "warning" →
     ∀ ck, allowed level ck = true)
  ∧ (Forall (fun a => startsWith (u "--severity=") a = false) argv →
     ∀ ck, allowed level ck = true).
Proof.
  cbv zeta. split; [| split; [| split; [| split]]].
  - intros ck H. unfold allowed. rewrite H. simpl.
    pose proof (levelOf_range (minSeverityOf argv)).
    apply negb_true_iff, Nat.ltb_ge. lia.
  - intros -> ck. unfold allowed, levelOf.
    rewrite bool_decide_eq_true_2 by done.
    destruct (severity ck); simpl; split; congruence.
  - intros -> ck. unfold allowed, levelOf.
    rewrite bool_decide_eq_false_2 by (by vm_compute).
    rewrite bool_decide_eq_true_2 by done.
    destruct (severity ck); simpl; split; congruence.
  - intros H1 H2 ck. unfold allowed, levelOf.
    rewrite !bool_decide_eq_false_2 by done.
    destruct (severity ck); done.
  - intros HF ck.
    assert (List.find (startsWith (u "--severity=")) argv = None) as Hn.
    { clear -HF. induction HF as [|a l Ha _ IH]; [done |].
      cbn [List.find]. by rewrite Ha. }
    unfold minSeverityOf. rewrite Hn.
    unfold allowed. destruct (severity ck); done.
Qed.

Lemma split_line l : LF ∉ l → split LF l = [l].
Proof.
  induction l as [|c l IH]; intros H; [done |].
  apply not_elem_of_cons in H as [Hc Hl]. cbn [split].
  destruct (N.eqb_spec c LF) as [->|_]; [done |]. by rewrite IH.
Qed.

Lemma split_app l s :
  LF ∉ l → split LF (l ++ LF :: s) = l :: split LF s.
Proof.
  induction l as [|c l IH]; intros H.
  - cbn [app split]. by rewrite N.eqb_refl.
  - apply not_elem_of_cons in H as [Hc Hl]. cbn [app split].
    destruct (N.eqb_spec c LF) as [->|_]; [done |]. by rewrite IH.
Qed.

Lemma split_join lines :
  lines ≠ [] → Forall (fun l => LF ∉ l) lines →
  split LF (join [LF] lines) = lines.
Proof.
  intros Hne HF. induction HF as [|a ls Ha HF IH]; [done |].
  destruct ls as [|b ls].
  - cbn [join]. by apply split_line.
  - change (join [LF] (a :: b :: ls)) with (a ++ LF :: join [LF] (b :: ls)).
    rewrite split_app by done. by rewrite IH.
Qed.

Lemma upToMarker_line l tl :
  LF ∉ l → upToMarker (l ++ tl) = (fun b => l ++ b) <$> upToMarker tl.
Proof.
  induction l as [|c l IH]; intros H.
  - cbn [app]. by destruct (upToMarker tl).
  - apply not_elem_of_cons in H as [Hc Hl]. cbn [app upToMarker].
    assert (startsWith marker (c :: l ++ tl) = false) as ->.
    { unfold marker. cbn [startsWith].
      destruct (N.eqb_spec LF c) as [E|_]; [congruence | done]. }
    rewrite IH by done. by destruct (upToMarker tl).
Qed.

Lemma upToMarker_marker rest : upToMarker (marker ++ rest) = Some [].
Proof. by destruct rest. Qed.

Lemma upToMarker_feed c tl :
  c ≠ 45%N →
  upToMarker (LF :: c :: tl) = cons LF <$> upToMarker (c :: tl).
Proof.
  intros Hc. cbn [upToMarker].
  assert (startsWith marker (LF :: c :: tl) = false) as ->; [| done].
  change marker with (LF :: 45%N :: u "--"). cbn [startsWith].
  rewrite N.eqb_refl. destruct (N.eqb_spec 45 c) as [E|_]; [congruence | done].
Qed.

(** The header of a document made of lines that hold no line feed and
    begin with something else than a hyphen. *)
Lemma upToMarker_lines lines rest :
  Forall (fun l => (LF ∉ l) ∧ ∃ c t, l = c :: t ∧ c ≠ 45%N) lines →
  upToMarker (join [LF] lines ++ marker ++ rest) = Some (join [LF] lines).
Proof.
  intros HF. induction HF as [|a ls [Ha _] HF IH].
  - apply upToMarker_marker.
  - destruct ls as [|b ls].
    + cbn [join]. rewrite upToMarker_line by done.
      rewrite upToMarker_marker. cbn. by rewrite app_nil_r.
    + change (join [LF] (a :: b :: ls)) with (a ++ LF :: join [LF] (b :: ls)).
      rewrite <- app_assoc. rewrite upToMarker_line by done.
      cbn [app]. inversion HF as [|? ? (_ & c & t & -> & Hc) _]; subst.
      assert (∃ t', join [LF] ((c :: t) :: ls) = c :: t') as [t' Et].
      { destruct ls; cbn [join app]; eauto. }
      rewrite Et in IH |- *. cbn [app] in IH |- *.
      rewrite upToMarker_feed by done. rewrite IH. done.
Qed.

Lemma word_units c : is_word c = true → c ≠ LF ∧ c ≠ CR ∧ c ≠ 45%N.
Proof. intros H. repeat split; intros ->; done. Qed.

Lemma dot_units c : is_dot c = true → c ≠ LF ∧ c ≠ CR.
Proof. intros H. split; intros ->; done. Qed.

Lemma entryLine_plain e :
  plainEntry e →
  (LF ∉ entryLine e) ∧ (CR ∉ entryLine e)
  ∧ ∃ c t, entryLine e = c :: t ∧ c ≠ 45%N.
Proof.
  destruct e as [k v]. intros (Hk & HFk & Hv & HFv & _). simpl in *.
  unfold entryLine. simpl fst. simpl snd.
  assert (∀ x, x = LF ∨ x = CR → x ∉ k ++ u ": " ++ v) as Hx.
  { intros x Hx Hin. apply elem_of_app in Hin as [Hin | Hin].
    - rewrite Forall_forall in HFk. apply HFk, word_units in Hin.
      destruct Hx; subst; tauto.
    - change (u ": " ++ v) with (58%N :: 32%N :: v) in Hin.
      apply elem_of_cons in Hin as [-> | Hin]; [by destruct Hx |].
      apply elem_of_cons in Hin as [-> | Hin]; [by destruct Hx |].
      rewrite Forall_forall in HFv. apply HFv, dot_units in Hin.
      destruct Hx; subst; tauto. }
  split; [apply Hx; by left |]. split; [apply Hx; by right |].
  destruct k as [|c k]; [done |]. exists c, (k ++ u ": " ++ v).
  split; [done |]. inversion HFk; subst. by apply word_units.
Qed.

Lemma parseLine_entry fm e :
  plainEntry e → parseLine fm (entryLine e) = setProperty e.1 e.2 fm.
Proof.
  destruct e as [k v]. intros (Hk & HFk & Hv & HFv & Ht & Hq).
  simpl in Hk, HFk, Hv, HFv, Ht, Hq. unfold entryLine. simpl fst. simpl snd.
  change (k ++ u ": " ++ v) with (k ++ [58%N] ++ [32%N] ++ v).
  rewrite <- (app_nil_r v) at 1.
  apply parseLine_bare; try done. by repeat constructor.
Qed.

Lemma foldl_parseLine_entries' entries : ∀ fm,
  Forall plainEntry entries →
  foldl parseLine fm (entryLine <$> entries)
  = foldl (fun fm e => setProperty e.1 e.2 fm) fm entries.
Proof.
  induction entries as [|e es IH]; intros fm HF; [done |].
  inversion HF; subst. cbn [fmap list_fmap foldl].
  rewrite parseLine_entry by done. by apply IH.
Qed.

Lemma not_elem_of_join x lines :
  x ≠ LF → Forall (fun l => x ∉ l) lines → x ∉ join [LF] lines.
Proof.
  intros Hx HF. induction HF as [|a ls Ha HF IH]; [by apply not_elem_of_nil |].
  destruct ls as [|b ls]; [done |].
  change (join [LF] (a :: b :: ls)) with (a ++ LF :: join [LF] (b :: ls)).
  intros Hin. apply elem_of_app in Hin as [Hin | Hin]; [done |].
  apply elem_of_cons in Hin as [-> | Hin]; done.
Qed.

Lemma assigned_lookup entries k v :
  NoDup entries.*1 → (k, v) ∈ entries → k ≠ u "__proto__" →
  assigned entries !! k = Some v.
Proof.
  unfold assigned. induction entries as [|e es IH] using rev_ind; intros Hnd Hin Hk.
  - by apply elem_of_nil in Hin.
  - rewrite foldl_app. cbn [foldl]. rewrite fmap_app in Hnd.
    apply NoDup_app in Hnd as (Hnd & Hdis & _).
    apply elem_of_app in Hin as [Hin | Hin].
    + assert (k ≠ e.1) as Hne.
      { intros ->. apply (Hdis e.1).
        - apply list_elem_of_fmap. by exists (e.1, v).
        - cbn. apply elem_of_cons. by left. }
      unfold setProperty. case_bool_decide; [by apply IH |].
      rewrite lookup_insert_ne by done. by apply IH.
    + apply elem_of_cons in Hin as [<- | Hin]; [| by apply elem_of_nil in Hin]. cbn [fst snd].
      unfold setProperty. rewrite bool_decide_eq_false_2 by done.
      by rewrite lookup_insert_eq.
Qed.

(** X15: a document that starts with the marker line, then one line
    [key: value] for each entry of a list, then a line that starts with
    the marker, and goes on with any text without carriage return, has
    these lines as its header and parses to the object that the
    assignments of the entries in order give, when every key is made of
    word characters and every value is on one line, not empty, without
    white space at its ends and without a quote at its start; so, with
    distinct keys, every key other than [__proto__] reads as its
    value. *)
Theorem header_round_trip entries rest :
  Forall plainEntry entries → CR ∉ rest →
  headerBlock (document entries rest) = Some (join [LF] (entryLine <$> entries))
  ∧ parseFrontmatter (document entries rest) = assigned entries
  ∧ (NoDup entries.*1 →
     ∀ k v, (k, v) ∈ entries → k ≠ u "__proto__" →
            parseFrontmatter (document entries rest) !! k = Some v).
Proof.
  intros HF Hrest.
  assert (Forall (fun l => (LF ∉ l) ∧ (CR ∉ l) ∧ ∃ c t, l = c :: t ∧ c ≠ 45%N)
                 (entryLine <$> entries)) as Hlines.
  { apply Forall_fmap. eapply Forall_impl; [exact HF |].
    intros e He. by apply entryLine_plain. }
  assert (headerBlock (document entries rest)
          = Some (join [LF] (entryLine <$> entries))) as Hh.
  { apply AuditFacts.headerBlock_Some.
    exists (join [LF] (entryLine <$> entries) ++ marker ++ rest). split.
    - unfold normalizedContent, replaceAll. apply normalize_unix.
      unfold document. intros Hin.
      change (u "---" ++ [LF] ++ ?x) with (45%N :: 45%N :: 45%N :: LF :: x) in Hin.
      do 4 (apply elem_of_cons in Hin as [Hin | Hin]; [done |]).
      apply elem_of_app in Hin as [Hin | Hin].
      + revert Hin. apply not_elem_of_join; [done |].
        eapply Forall_impl; [exact Hlines |]. by intros l (_ & H & _).
      + change (marker ++ rest) with (LF :: 45%N :: 45%N :: 45%N :: rest) in Hin.
        do 4 (apply elem_of_cons in Hin as [Hin | Hin]; [done |]). done.
    - apply upToMarker_lines. eapply Forall_impl; [exact Hlines |].
      by intros l (H1 & _ & H2). }
  assert (parseFrontmatter (document entries rest) = assigned entries) as Hp.
  { unfold parseFrontmatter. rewrite Hh. cbv zeta.
    destruct entries as [|e es]; [done |].
    rewrite split_join.
    - by apply foldl_parseLine_entries'.
    - done.
    - eapply Forall_impl; [exact Hlines |]. by intros l (H & _). }
  split; [exact Hh |]. split; [exact Hp |].
  intros Hnd k v Hin Hk. rewrite Hp. by apply assigned_lookup.
Qed.

Lemma header_round_trip_witness :
  parseFrontmatter (document sample (u "<h1>Hello</h1>"))
  = {[ u "title" := u "Hello there"; u "ogImage" := u "/img/a.png" ]}.
Proof.
  assert (Forall plainEntry sample ∧ CR ∉ u "<h1>Hello</h1>") as [H1 H2].
  { split.
    - repeat apply List.Forall_cons; try apply List.Forall_nil;
        (split; [done |]); (split; [by repeat constructor |]);
        (split; [done |]); (split; [by repeat constructor |]);
        (split; [by vm_compute |]); intros c Hc; by inversion Hc.
    - intros H. vm_compute in H. by repeat (apply elem_of_cons in H as [H | H]; [done |]); apply elem_of_nil in H. }
  rewrite (proj1 (proj2 (header_round_trip sample _ H1 H2))).
  by vm_compute.
Defined.





End AuditLaws.
